(** * DpOutSum: the outlier scorer and the context search, embedded in Rocq

    The Go program reads a salary table, ranks every record's neighbours by
    salary distance once ([Knn]), scores the records of a filtered
    sub-population with the local outlier factor ([Lof]) and enumerates the
    supersets of a baseline context on a pool of workers ([main]).

    Conventions of the embedding:
    - a Go slice is a list whose length is the slice's [len]; an index out of
      range panics, which is [None] in the [option] monad;
    - a position in a slice (a record index, a loop counter) is a [nat];
      [uint8], [uint32] and [uint64] data are [Z] with the wrap-around written
      out by [wrap];
    - a [*Employee] is the position of the record in [db.Employees];
    - a channel of booleans that is filled and then closed is the list of the
      values sent;
    - [float64] arithmetic is the interface [FloatOps], instantiated with the
      kernel's binary64 floats. *)

From Stdlib Require Import ZArith Lia ZifyNat Bool String Ascii Floats Uint63 QArith Qcanon.
From Stdlib Require Import Sorting.Sorted Sorting.Permutation.
From stdpp Require Import base option list sorting.
From stdpp Require Import strings gmap.

Local Open Scope Z_scope.

(** ** Machine integers and slices *)

Definition wrap (w : Z) (x : Z) : Z := x mod 2 ^ w.

(** A panic (an index out of range) is [None]; [let? x := m in k] runs [k]
    when [m] did not panic. *)
Notation "'let?' x := m 'in' k" :=
  (match m with Some x => k | None => None end)
  (at level 10, x pattern, m at level 100, k at level 200, only parsing).

(** [s[i] = x] on a slice: a panic when [i] is out of range. *)
Definition store {A} (s : list A) (i : nat) (x : A) : option (list A) :=
  if decide (i < length s)%nat then Some (<[i:=x]> s) else None.

(** ** database.go *)

Record Employee := mkEmployee {
  Id : Z;
  Employer : nat;
  JobTitle : nat;
  Year : nat;
  Salary : Z
}.

Record Database := mkDatabase {
  Employers : list string;
  JobTitles : list string;
  Years : list Z;
  Employees : list Employee
}.

Definition Distance (e other : Employee) : Z :=
  if Salary e <? Salary other
  then wrap 32 (Salary other - Salary e)
  else wrap 32 (Salary e - Salary other).

(** [a && b && c] with Go's short-circuit evaluation: an operand that is not
    reached cannot panic. *)
Definition and_then (a : option bool) (b : option bool) : option bool :=
  let? x := a in if x then b else Some false.

Definition Filter_valid (validEmployers validJobTitles validYears : list bool)
    (employee : Employee) : option bool :=
  and_then (validEmployers !! Employer employee)
    (and_then (validJobTitles !! JobTitle employee)
       (validYears !! Year employee)).

(** The values [Filter] sends on [out] before it closes the channel. *)
Definition Filter (db : Database)
    (validEmployers validJobTitles validYears : list bool) : option (list bool) :=
  mapM (Filter_valid validEmployers validJobTitles validYears) (Employees db).

(** ** knn.go: the inclusion mask *)

Record InclusionMask := mkInclusionMask {
  Mask : list Z;
  Count : Z
}.

Definition NewInclusionMask (db : Database) : InclusionMask :=
  {| Mask := replicate ((length (Employees db) + 7) / 8)%nat 0; Count := 0 |}.

(** One iteration of the loop of [Fill] after a value was received. *)
Definition Fill_step (include : bool) (b bit : nat) (im : InclusionMask)
    : option InclusionMask :=
  let? im1 := (if (bit =? 0)%nat
               then let? m := store (Mask im) b 0 in
                    Some {| Mask := m; Count := Count im |}
               else Some im) in
  if include
  then let? old := Mask im1 !! b in
       let? m := store (Mask im1) b
                   (Z.lor old (wrap 8 (Z.shiftl 1 (Z.of_nat (7 - bit))))) in
       Some {| Mask := m; Count := wrap 64 (Count im1 + 1) |}
  else Some im1.

Fixpoint Fill_loop (inclusion : list bool) (b bit : nat) (im : InclusionMask)
    : option InclusionMask :=
  match inclusion with
  | [] => Some im
  | include :: more =>
      let? im' := Fill_step include b bit im in
      if (7 <? bit + 1)%nat
      then Fill_loop more (b + 1)%nat 0%nat im'
      else Fill_loop more b (bit + 1)%nat im'
  end.

Definition Fill (im : InclusionMask) (inclusion : list bool) : option InclusionMask :=
  Fill_loop inclusion 0%nat 0%nat im.

Definition IsIncluded (im : InclusionMask) (i : nat) : option bool :=
  let? byte := Mask im !! (i / 8)%nat in
  Some (negb (Z.land byte (wrap 8 (Z.shiftl 1 (Z.of_nat (7 - i mod 8)))) =? 0)).

(** ** knn.go: the neighbour index *)

(** An element of the [distances] slice of [precomputeDistances]. *)
Record neighbor_distance := mkNeighborDistance {
  target : nat;
  distance : Z
}.

(** The comparator handed to [sort.Slice]. *)
Definition distance_less (a b : neighbor_distance) : bool :=
  distance a <? distance b.

(** [sort.Slice] belongs to Go's library, not to this program. The program
    relies on its documented contract only: the slice is rearranged (a
    permutation) so that no element is [less] than one before it; the order of
    equal elements is left open ("the sort is not guaranteed to be stable"). *)
Class SortSlice := {
  sort_Slice : list neighbor_distance → list neighbor_distance;
  sort_Slice_perm : ∀ l, Permutation (sort_Slice l) l;
  sort_Slice_sorted : ∀ l,
    StronglySorted (λ a b, distance_less b a = false) (sort_Slice l)
}.

Record Knn := mkKnn {
  Knn_Db : Database;
  NearestNeighbors : list (list nat)
}.

(** The [distances] slice a worker of [precomputeDistances] builds for [i]. *)
Definition distances_from (db : Database) (i : nat) : option (list neighbor_distance) :=
  mapM (λ j,
      if (i =? j)%nat then Some {| target := j; distance := 0 |}
      else let? ei := Employees db !! i in
           let? ej := Employees db !! j in
           Some {| target := j; distance := Distance ei ej |})
    (seq 0 (length (Employees db))).

(** The loop that copies the sorted targets, without [i], into the row. *)
Fixpoint copy_neighbors (i : nat) (distances : list neighbor_distance)
    (next : nat) (row : list nat) : option (list nat) :=
  match distances with
  | [] => Some row
  | neighbor :: more =>
      if (target neighbor =? i)%nat then copy_neighbors i more next row
      else let? row' := store row next (target neighbor) in
           copy_neighbors i more (next + 1)%nat row'
  end.

Definition neighbor_row `{SortSlice} (db : Database) (i : nat) : option (list nat) :=
  let? distances := distances_from db i in
  copy_neighbors i (sort_Slice distances) 0%nat
    (replicate (length (Employees db) - 1)%nat 0%nat).

(** The rows are computed by independent workers, one row per work item; no
    row reads another, so the result is that of computing them in turn. *)
Definition precomputeDistances `{SortSlice} (db : Database) : option (list (list nat)) :=
  mapM (neighbor_row db) (seq 0 (length (Employees db))).

Definition NewKnn `{SortSlice} (db : Database) : option Knn :=
  let? rows := precomputeDistances db in
  Some {| Knn_Db := db; NearestNeighbors := rows |}.

(** The loop of [KNearest]: [out] is written in place, [validNeighbors]
    counts the writes. *)
Fixpoint KNearest_loop (im : InclusionMask) (row : list nat) (out : list nat)
    (validNeighbors : nat) : option (list nat * nat) :=
  match row with
  | [] => Some (out, validNeighbors)
  | neighbor :: more =>
      let? included := IsIncluded im neighbor in
      if negb included then KNearest_loop im more out validNeighbors
      else let? out' := store out validNeighbors neighbor in
           if (length out <=? validNeighbors + 1)%nat
           then Some (out', (validNeighbors + 1)%nat)
           else KNearest_loop im more out' (validNeighbors + 1)%nat
  end.

(** Returns the buffer as [KNearest] leaves it and the number it returns. *)
Definition KNearest (knn : Knn) (im : InclusionMask) (i : nat) (out : list nat)
    : option (list nat * nat) :=
  let? row := NearestNeighbors knn !! i in
  KNearest_loop im row out 0%nat.

(** ** lof.go *)

(** The [float64] operations the scorer uses. *)
Class FloatOps (F : Type) := {
  f_zero : F;
  f_add : F → F → F;
  f_mul : F → F → F;
  f_div : F → F → F;
  f_ge : F → F → bool;
  f_of_Z : Z → F
}.

(** Go's [float64]: IEEE 754 binary64, round to nearest even. The integers
    converted are slice lengths and [uint32] distances, all below [2^63]. *)
#[export] Instance float64_ops : FloatOps float := {
  f_zero := PrimFloat.zero;
  f_add := PrimFloat.add;
  f_mul := PrimFloat.mul;
  f_div := PrimFloat.div;
  f_ge a b := PrimFloat.leb b a;
  f_of_Z z := PrimFloat.of_uint63 (Uint63.of_Z z)
}.

Section Scorer.
Context {F : Type} `{FloatOps F}.

Record Lof := mkLof {
  Lof_Db : Database;
  Neighbors : Knn;
  K : nat;
  Threshold : F
}.

Record LofCache := mkLofCache {
  Neighborhoods : list (list nat);
  CoreDistance : list Z;
  LocalReachabilityDensities : list F
}.

Definition NewLof (db : Database) (neighbors : Knn) (k : nat) (threshold : F) : Lof :=
  {| Lof_Db := db; Neighbors := neighbors; K := k; Threshold := threshold |}.

Definition NewThreadCache (lof : Lof) : LofCache :=
  let n := length (Employees (Lof_Db lof)) in
  {| Neighborhoods := replicate n (replicate (K lof) 0%nat);
     CoreDistance := replicate n 0;
     LocalReachabilityDensities := replicate n f_zero |}.

(** A [for i := range s] loop whose body may panic. *)
Fixpoint for_range {S} (body : nat → S → option S) (indices : list nat) (s : S)
    : option S :=
  match indices with
  | [] => Some s
  | i :: more => let? s' := body i s in for_range body more s'
  end.

Definition computeCoreDistances_body (lof : Lof) (im : InclusionMask) (i : nat)
    (cache : LofCache) : option LofCache :=
  let? included := IsIncluded im i in
  if negb included then Some cache
  else
    let? out := Neighborhoods cache !! i in
    let? (out', numNeighbors) := KNearest (Neighbors lof) im i out in
    let neighborhood := take numNeighbors out' in
    let? neighborhoods := store (Neighborhoods cache) i neighborhood in
    (* numNeighbors-1 is 2^64-1 when numNeighbors is 0: out of range *)
    let? furthest := (if (numNeighbors =? 0)%nat then None
                      else neighborhood !! (numNeighbors - 1)%nat) in
    let? ei := Employees (Lof_Db lof) !! i in
    let? ef := Employees (Lof_Db lof) !! furthest in
    let? coreDistance := store (CoreDistance cache) i (Distance ei ef) in
    Some {| Neighborhoods := neighborhoods;
            CoreDistance := coreDistance;
            LocalReachabilityDensities := LocalReachabilityDensities cache |}.

Definition computeCoreDistances (lof : Lof) (cache : LofCache) (im : InclusionMask)
    : option LofCache :=
  for_range (computeCoreDistances_body lof im)
    (seq 0 (length (CoreDistance cache))) cache.

(** The inner loop of [computeLrds]: the sum of the reachability distances. *)
Fixpoint reachability_sum (lof : Lof) (cache : LofCache) (i : nat)
    (neighborhood : list nat) (sum : F) : option F :=
  match neighborhood with
  | [] => Some sum
  | j :: more =>
      let? ej := Employees (Lof_Db lof) !! j in
      let? ei := Employees (Lof_Db lof) !! i in
      let reachabilityDistance := Distance ej ei in
      let? coreDistance := CoreDistance cache !! j in
      let reachabilityDistance :=
        if reachabilityDistance <? coreDistance then coreDistance
        else reachabilityDistance in
      reachability_sum lof cache i more (f_add sum (f_of_Z reachabilityDistance))
  end.

Definition computeLrds_body (lof : Lof) (im : InclusionMask) (i : nat)
    (cache : LofCache) : option LofCache :=
  let? included := IsIncluded im i in
  if negb included then Some cache
  else
    let? neighborhood := Neighborhoods cache !! i in
    let? sum := reachability_sum lof cache i neighborhood f_zero in
    let? lrds := store (LocalReachabilityDensities cache) i
                   (f_div (f_of_Z (Z.of_nat (length neighborhood))) sum) in
    Some {| Neighborhoods := Neighborhoods cache;
            CoreDistance := CoreDistance cache;
            LocalReachabilityDensities := lrds |}.

Definition computeLrds (lof : Lof) (cache : LofCache) (im : InclusionMask)
    : option LofCache :=
  for_range (computeLrds_body lof im)
    (seq 0 (length (LocalReachabilityDensities cache))) cache.

(** The inner loop of [computeLofs]: the sum of the neighbours' densities. *)
Fixpoint density_sum (cache : LofCache) (neighborhood : list nat) (sum : F)
    : option F :=
  match neighborhood with
  | [] => Some sum
  | j :: more =>
      let? lrd := LocalReachabilityDensities cache !! j in
      density_sum cache more (f_add sum lrd)
  end.

(** The [score] of record [i] in [computeLofs]. *)
Definition lof_score (cache : LofCache) (i : nat) : option F :=
  let? neighborhood := Neighborhoods cache !! i in
  let? sum := density_sum cache neighborhood f_zero in
  let? lrd := LocalReachabilityDensities cache !! i in
  Some (f_div sum (f_mul (f_of_Z (Z.of_nat (length neighborhood))) lrd)).

(** An [OutlierHandler] is a closure: [V] is the state it captures, and it
    returns its flag with the state it leaves. *)
Definition OutlierHandler (V : Type) := nat → F → V → bool * V.

Fixpoint computeLofs_loop {V} (lof : Lof) (cache : LofCache) (im : InclusionMask)
    (outlierHandler : OutlierHandler V) (indices : list nat) (v : V) : option V :=
  match indices with
  | [] => Some v
  | i :: more =>
      let? included := IsIncluded im i in
      if negb included then computeLofs_loop lof cache im outlierHandler more v
      else
        let? score := lof_score cache i in
        if f_ge score (Threshold lof) then
          let? _ := Employees (Lof_Db lof) !! i in
          let '(continue, v') := outlierHandler i score v in
          if negb continue then Some v'
          else computeLofs_loop lof cache im outlierHandler more v'
        else computeLofs_loop lof cache im outlierHandler more v
  end.

Definition computeLofs {V} (lof : Lof) (cache : LofCache) (im : InclusionMask)
    (outlierHandler : OutlierHandler V) (v : V) : option V :=
  computeLofs_loop lof cache im outlierHandler
    (seq 0 (length (LocalReachabilityDensities cache))) v.

Definition Lof_FindOutliers {V} (lof : Lof) (cache : LofCache) (im : InclusionMask)
    (outlierHandler : OutlierHandler V) (v : V) : option (LofCache * V) :=
  let? cache1 := computeCoreDistances lof cache im in
  let? cache2 := computeLrds lof cache1 im in
  let? v' := computeLofs lof cache2 im outlierHandler v in
  Some (cache2, v').

End Scorer.

Arguments Lof F : clear implicits.
Arguments LofCache F : clear implicits.

(** ** main.go *)

Record Context := mkContext {
  EmployersIncluded : list bool;
  JobTitlesIncluded : list bool;
  YearsIncluded : list bool
}.

Definition NewContext (db : Database) : Context :=
  {| EmployersIncluded := replicate (length (Employers db)) false;
     JobTitlesIncluded := replicate (length (JobTitles db)) false;
     YearsIncluded := replicate (length (Years db)) false |}.

(** Go's [copy(dst, src)]: the first [min (len dst) (len src)] elements. *)
Definition copy_slice {A} (dst src : list A) : list A :=
  take (length dst) src ++ drop (length src) dst.

Definition Context_Copy (ctx other : Context) : Context :=
  {| EmployersIncluded := copy_slice (EmployersIncluded ctx) (EmployersIncluded other);
     JobTitlesIncluded := copy_slice (JobTitlesIncluded ctx) (JobTitlesIncluded other);
     YearsIncluded := copy_slice (YearsIncluded ctx) (YearsIncluded other) |}.

Definition MinPopulationSize : Z := 20.

Section Wrapper.
Context {F : Type} `{FloatOps F}.

(** [FindOutliers] of main.go. The mask, the cache and the handler's captured
    state are returned as the call leaves them. *)
Definition FindOutliers {V} (db : Database) (lof : Lof F) (cache : LofCache F)
    (im : InclusionMask) (ctx : Context) (outlierHandler : OutlierHandler V) (v : V)
    : option (InclusionMask * LofCache F * V) :=
  let? inclusion := Filter db (EmployersIncluded ctx) (JobTitlesIncluded ctx)
                      (YearsIncluded ctx) in
  let? im' := Fill im inclusion in
  if Count im' <? MinPopulationSize then Some (im', cache, v)
  else
    let? (cache', v') := Lof_FindOutliers lof cache im' outlierHandler v in
    Some (im', cache', v').

End Wrapper.

(** The handler of a worker: it notes a match with the original outlier and
    appends to its outlier list, and always asks for more. *)
Definition worker_handler {F} (origOutlier : nat)
    : OutlierHandler (F:=F) (bool * list (nat * F)) :=
  λ employee score '(thisContextMatches, outlierList),
    (true, (thisContextMatches || (employee =? origOutlier)%nat,
            outlierList ++ [(employee, score)])).

(** [RecursivePermute slice handler]. The slice is a window on an array that
    the handler reads too: [write i b] stores [b] in element [i] of that
    array, the window is the [len] elements from [lo] on, and [slice[1:]] is
    the window from [lo + 1]. *)
Fixpoint RecursivePermute {S} (write : nat → bool → S → S) (lo len : nat)
    (handler : S → S) (s : S) : S :=
  match len with
  | O => handler s
  | Datatypes.S len' =>
      let s := write lo false s in
      let s := RecursivePermute write (lo + 1)%nat len' handler s in
      let s := write lo true s in
      RecursivePermute write (lo + 1)%nat len' handler s
  end.

(** The variables the enumeration of [main] works on: the baseline context,
    which the permutation overwrites in place, and what the innermost closure
    captures. *)
Record Scan := mkScan {
  ctx : Context;
  originalContext : bool;
  workChan : list Context;
  processedContexts : Z
}.

Definition write_employer (i : nat) (b : bool) (s : Scan) : Scan :=
  {| ctx := {| EmployersIncluded := <[i:=b]> (EmployersIncluded (ctx s));
               JobTitlesIncluded := JobTitlesIncluded (ctx s);
               YearsIncluded := YearsIncluded (ctx s) |};
     originalContext := originalContext s;
     workChan := workChan s;
     processedContexts := processedContexts s |}.

Definition write_jobTitle (i : nat) (b : bool) (s : Scan) : Scan :=
  {| ctx := {| EmployersIncluded := EmployersIncluded (ctx s);
               JobTitlesIncluded := <[i:=b]> (JobTitlesIncluded (ctx s));
               YearsIncluded := YearsIncluded (ctx s) |};
     originalContext := originalContext s;
     workChan := workChan s;
     processedContexts := processedContexts s |}.

Definition write_year (i : nat) (b : bool) (s : Scan) : Scan :=
  {| ctx := {| EmployersIncluded := EmployersIncluded (ctx s);
               JobTitlesIncluded := JobTitlesIncluded (ctx s);
               YearsIncluded := <[i:=b]> (YearsIncluded (ctx s)) |};
     originalContext := originalContext s;
     workChan := workChan s;
     processedContexts := processedContexts s |}.

(** The innermost closure of the enumeration. Every buffer of the reuse pool
    was made by [NewContext db]; [workChan] lists the contexts sent. *)
Definition dispatch (db : Database) (s : Scan) : Scan :=
  if originalContext s
  then {| ctx := ctx s; originalContext := false;
          workChan := workChan s; processedContexts := processedContexts s |}
  else
    let workCtx := Context_Copy (NewContext db) (ctx s) in
    {| ctx := ctx s; originalContext := false;
       workChan := workChan s ++ [workCtx];
       processedContexts := wrap 64 (processedContexts s + 1) |}.

(** The three nested [RecursivePermute] calls, for any innermost closure. *)
Definition permute_supersets (origE origJ origY : nat) (leaf : Scan → Scan)
    (s : Scan) : Scan :=
  RecursivePermute write_employer origE
    (length (EmployersIncluded (ctx s)) - origE)%nat
    (λ s, RecursivePermute write_jobTitle origJ
            (length (JobTitlesIncluded (ctx s)) - origJ)%nat
            (λ s, RecursivePermute write_year origY
                    (length (YearsIncluded (ctx s)) - origY)%nat leaf s) s) s.

(** [for i := 0; i < count; i++ { included[i] = true }] *)
Fixpoint include_prefix (included : list bool) (i count : nat) : option (list bool) :=
  match count with
  | O => Some included
  | Datatypes.S count' =>
      let? included' := store included i true in
      include_prefix included' (i + 1)%nat count'
  end.

(** The original context of [main]. *)
Definition original_context (db : Database) (origE origJ origY : nat) : option Context :=
  let c := NewContext db in
  let? e := include_prefix (EmployersIncluded c) 0%nat origE in
  let? j := include_prefix (JobTitlesIncluded c) 0%nat origJ in
  let? y := include_prefix (YearsIncluded c) 0%nat origY in
  Some {| EmployersIncluded := e; JobTitlesIncluded := j; YearsIncluded := y |}.

(** The contexts [main] sends to the workers, in the order it sends them. *)
Definition enumerate (db : Database) (origE origJ origY : nat) : option (list Context) :=
  let? c := original_context db origE origJ origY in
  let s := {| ctx := c; originalContext := true; workChan := [];
              processedContexts := 0 |} in
  Some (workChan (permute_supersets origE origJ origY (dispatch db) s)).

(** ** database.go: reading the table *)

(** A call of [ReadDatabase] returns a database, returns an error, or
    panics. *)
Inductive ReadError :=
  | header_error (err : string)
  | missing_columns
  | record_error (err : string)
  | invalid_identifier (field : string)
  | invalid_year (field : string)
  | invalid_salary (field : string).

Inductive outcome (A : Type) :=
  | Ok (a : A)
  | Failed (e : ReadError)
  | Panic.
Arguments Ok {A}.
Arguments Failed {A}.
Arguments Panic {A}.

Notation "'let!' x := m 'in' k" :=
  (match m with Ok x => k | Failed e => Failed e | Panic => Panic end)
  (at level 10, x pattern, m at level 100, k at level 200, only parsing).

(** An index expression that panics when it is out of range. *)
Definition or_panic {A} (m : option A) : outcome A :=
  match m with Some a => Ok a | None => Panic end.

(** What [csv.Reader.Read] returns before the end of the input: a record, or
    an error. The reader is Go's; with its default settings it returns a
    record whose number of fields differs from the first record's together
    with an error. *)
Inductive csv_read :=
  | csv_record (fields : list string)
  | csv_error (err : string).

(** [strconv.ParseUint(s, 10, bitSize)], which is Go's: the value of a
    non-empty string of decimal digits that fits [bitSize] bits, and an
    error ([None]) for any other string. *)
Definition digit_value (c : ascii) : option Z :=
  let n := Z.of_N (N_of_ascii c) in
  if (48 <=? n) && (n <=? 57) then Some (n - 48) else None.

Fixpoint digits_value (s : string) (acc : Z) : option Z :=
  match s with
  | EmptyString => Some acc
  | String c rest => let? d := digit_value c in digits_value rest (10 * acc + d)
  end.

Definition ParseUint (s : string) (bitSize : Z) : option Z :=
  match s with
  | EmptyString => None
  | _ => let? n := digits_value s 0 in
         if n <? 2 ^ bitSize then Some n else None
  end.

(** [strings.Replace(s, ",", "", -1)], which is Go's: [s] without its
    commas. *)
Fixpoint remove_commas (s : string) : string :=
  match s with
  | EmptyString => EmptyString
  | String c rest =>
      if Ascii.eqb c "," then remove_commas rest else String c (remove_commas rest)
  end.

(** [strings.IndexRune(s, '.')], which is Go's: the index of the first
    period, or -1. *)
Fixpoint IndexRune_period (s : string) : Z :=
  match s with
  | EmptyString => -1
  | String c rest =>
      if Ascii.eqb c "." then 0
      else let i := IndexRune_period rest in if i <? 0 then -1 else i + 1
  end.

(** The column indices that [ReadDatabase] reads off the header; -1 when a
    column was not seen. *)
Record Columns := mkColumns {
  idCol : Z;
  employerCol : Z;
  jobTitleCol : Z;
  salaryCol : Z;
  yearCol : Z
}.

Definition header_column (cols : Columns) (columnNum : nat) (columnName : string)
    : Columns :=
  let n := Z.of_nat columnNum in
  if String.eqb columnName "" then
    {| idCol := n; employerCol := employerCol cols; jobTitleCol := jobTitleCol cols;
       salaryCol := salaryCol cols; yearCol := yearCol cols |}
  else if String.eqb columnName "Employer" then
    {| idCol := idCol cols; employerCol := n; jobTitleCol := jobTitleCol cols;
       salaryCol := salaryCol cols; yearCol := yearCol cols |}
  else if String.eqb columnName "Job Title" then
    {| idCol := idCol cols; employerCol := employerCol cols; jobTitleCol := n;
       salaryCol := salaryCol cols; yearCol := yearCol cols |}
  else if String.eqb columnName "Salary Paid" then
    {| idCol := idCol cols; employerCol := employerCol cols;
       jobTitleCol := jobTitleCol cols; salaryCol := n; yearCol := yearCol cols |}
  else if String.eqb columnName "Calendar Year" then
    {| idCol := idCol cols; employerCol := employerCol cols;
       jobTitleCol := jobTitleCol cols; salaryCol := salaryCol cols; yearCol := n |}
  else cols.

(** The loop over the header. *)
Fixpoint header_columns (header : list string) (columnNum : nat) (cols : Columns)
    : Columns :=
  match header with
  | [] => cols
  | columnName :: more =>
      header_columns more (columnNum + 1)%nat (header_column cols columnNum columnName)
  end.

(** [record[col]] for a column index that is not negative. *)
Definition field (record : list string) (col : Z) : outcome string :=
  or_panic (record !! Z.to_nat col).

(** The variables of the loop over the records. *)
Record Reading := mkReading {
  reading_Years : list Z;
  employerSet : gmap string nat;
  jobTitleSet : gmap string nat;
  yearSet : gmap Z nat;
  employerEmployees : list nat;
  jobTitleEmployees : list nat;
  unfilteredEmployees : list Employee
}.

(** The number of a value in its set, entered with the next number when it
    is new, and the counters with the value's counter incremented. A counter
    counts records read, as a slice's length does. *)
Definition count_value (set : gmap string nat) (counts : list nat) (value : string)
    : outcome (nat * gmap string nat * list nat) :=
  let '(num, set, counts) :=
    match set !! value with
    | Some num => (num, set, counts)
    | None => (size set, <[value := size set]> set, counts ++ [0%nat])
    end in
  let! count := or_panic (counts !! num) in
  let! counts := or_panic (store counts num (count + 1)%nat) in
  Ok (num, set, counts).

(** The cleaning of the salary field: [Panic] is the panic of
    [salaryStr[0]] on an empty field. *)
Definition clean_salary (salaryStr : string) : outcome string :=
  match salaryStr with
  | EmptyString => Panic
  | String c rest =>
      let salaryStr := if Ascii.eqb c "$" then rest else salaryStr in
      let salaryStr := remove_commas salaryStr in
      let salaryDecimal := IndexRune_period salaryStr in
      if 0 <=? salaryDecimal then
        if salaryDecimal =? 0 then Ok "0"%string
        else Ok (substring 0 (Z.to_nat salaryDecimal) salaryStr)
      else Ok salaryStr
  end.

(** The body of the loop for one record. *)
Definition read_record (cols : Columns) (record : list string) (st : Reading)
    : outcome Reading :=
  let! employer := field record (employerCol cols) in
  let! jobTitle := field record (jobTitleCol cols) in
  let! salaryStr := field record (salaryCol cols) in
  let! idStr := field record (idCol cols) in
  match ParseUint idStr 64 with
  | None => Failed (invalid_identifier idStr)
  | Some id =>
      let! (employerNum, employerSet', employerEmployees') :=
        count_value (employerSet st) (employerEmployees st) employer in
      let! (jobTitleNum, jobTitleSet', jobTitleEmployees') :=
        count_value (jobTitleSet st) (jobTitleEmployees st) jobTitle in
      let! yearStr := field record (yearCol cols) in
      match ParseUint yearStr 16 with
      | None => Failed (invalid_year yearStr)
      | Some year =>
          let '(yearNum, yearSet', years') :=
            match yearSet st !! year with
            | Some yearNum => (yearNum, yearSet st, reading_Years st)
            | None => (length (reading_Years st),
                       <[year := length (reading_Years st)]> (yearSet st),
                       reading_Years st ++ [year])
            end in
          let! cleaned := clean_salary salaryStr in
          match ParseUint cleaned 32 with
          | None => Failed (invalid_salary salaryStr)
          | Some salary =>
              Ok {| reading_Years := years';
                    employerSet := employerSet';
                    jobTitleSet := jobTitleSet';
                    yearSet := yearSet';
                    employerEmployees := employerEmployees';
                    jobTitleEmployees := jobTitleEmployees';
                    unfilteredEmployees :=
                      unfilteredEmployees st
                        ++ [ {| Id := id; Employer := employerNum;
                                JobTitle := jobTitleNum; Year := yearNum;
                                Salary := salary |} ] |}
          end
      end
  end.

(** The loop over the records, until [io.EOF] or an error. *)
Fixpoint read_records (cols : Columns) (input : list csv_read) (st : Reading)
    : outcome Reading :=
  match input with
  | [] => Ok st
  | csv_error err :: _ => Failed (record_error err)
  | csv_record record :: more =>
      let! st' := read_record cols record st in
      read_records cols more st'
  end.

(** Go visits the entries of a map in an order that it leaves open: the
    order is a parameter, one per loop over a map. *)
Class MapRange := {
  range_employers : gmap string nat → list (string * nat);
  range_jobTitles : gmap string nat → list (string * nat);
  range_employers_perm : ∀ m, range_employers m ≡ₚ map_to_list m;
  range_jobTitles_perm : ∀ m, range_jobTitles m ≡ₚ map_to_list m
}.

(** One iteration of a loop that keeps the values with enough records: the
    value gets the next new number and is appended to the list. *)
Definition keep_value (counts : list nat) (min : nat)
    (acc : outcome (gmap nat nat * list string)) (entry : string * nat)
    : outcome (gmap nat nat * list string) :=
  let! (patches, kept) := acc in
  let! count := or_panic (counts !! entry.2) in
  if (min <=? count)%nat
  then Ok (<[entry.2 := size patches]> patches, kept ++ [entry.1])
  else Ok (patches, kept).

Definition keep_values (counts : list nat) (min : nat)
    (entries : list (string * nat)) : outcome (gmap nat nat * list string) :=
  foldl (keep_value counts min) (Ok (∅, [])) entries.

(** The loop that patches the records and keeps those whose employer and
    job title were kept. *)
Definition patch_employees (employerNumPatches jobTitleNumPatches : gmap nat nat)
    (unfiltered : list Employee) : list Employee :=
  omap (λ employee,
      match employerNumPatches !! Employer employee,
            jobTitleNumPatches !! JobTitle employee with
      | Some newEmployerIndex, Some newJobTitleIndex =>
          Some {| Id := Id employee; Employer := newEmployerIndex;
                  JobTitle := newJobTitleIndex; Year := Year employee;
                  Salary := Salary employee |}
      | _, _ => None
      end) unfiltered.

Definition ReadDatabase `{MapRange} (input : list csv_read)
    (minPerEmployer minPerJobTitle : nat) : outcome Database :=
  match input with
  | [] => Failed (header_error "EOF")
  | csv_error err :: _ => Failed (header_error err)
  | csv_record header :: records =>
      let cols := header_columns header 0
                    {| idCol := -1; employerCol := -1; jobTitleCol := -1;
                       salaryCol := -1; yearCol := -1 |} in
      if (idCol cols <? 0) || (employerCol cols <? 0) || (jobTitleCol cols <? 0)
         || (salaryCol cols <? 0) || (yearCol cols <? 0)
      then Failed missing_columns
      else
        let! st := read_records cols records
                     {| reading_Years := []; employerSet := ∅; jobTitleSet := ∅;
                        yearSet := ∅; employerEmployees := [];
                        jobTitleEmployees := []; unfilteredEmployees := [] |} in
        let! (employerNumPatches, employers) :=
          keep_values (employerEmployees st) minPerEmployer
            (range_employers (employerSet st)) in
        let! (jobTitleNumPatches, jobTitles) :=
          keep_values (jobTitleEmployees st) minPerJobTitle
            (range_jobTitles (jobTitleSet st)) in
        Ok {| Employers := employers;
              JobTitles := jobTitles;
              Years := reading_Years st;
              Employees := patch_employees employerNumPatches jobTitleNumPatches
                             (unfilteredEmployees st) |}
  end.

(** The order in which [map_to_list] lists a map. *)
#[export] Instance map_to_list_range : MapRange :=
  {| range_employers := map_to_list;
     range_jobTitles := map_to_list;
     range_employers_perm := λ m, reflexivity (map_to_list m);
     range_jobTitles_perm := λ m, reflexivity (map_to_list m) |}.

(** ** main.go: the baseline search and the workers *)

(** The handler of the baseline search of [main]: it keeps the outlier it is
    called with in [origOutlier] and [origScore], and stops the search. *)
Definition baseline_handler {F} : OutlierHandler (F:=F) (option nat * F) :=
  λ outlier score _, (false, (Some outlier, score)).

(** The baseline search of [main]: [origOutlier] (nil is [None]) and
    [origScore] after the call of [FindOutliers]. *)
Definition find_original_outlier {F} `{FloatOps F} (db : Database) (lof : Lof F)
    (ctx : Context) : option (option nat * F) :=
  let origIm := NewInclusionMask db in
  let origCache := NewThreadCache lof in
  let? (_, orig) := FindOutliers db lof origCache origIm ctx baseline_handler
                      (None, f_zero) in
  Some orig.

(** A [matchingContext] as the reporter reads it; a [matchingOutlier] is the
    pair of the record and its score. *)
Record matchingContext (F : Type) := mkMatchingContext {
  context : Context;
  popSize : Z;
  outlierList : list (nat * F)
}.
Arguments mkMatchingContext {F}.
Arguments context {F}.
Arguments popSize {F}.
Arguments outlierList {F}.

(** The storage of a worker that is reused between contexts, and the matches
    it has sent to the reporter. *)
Record Worker (F : Type) := mkWorker {
  worker_cache : LofCache F;
  worker_im : InclusionMask;
  matchingContextChan : list (matchingContext F)
}.
Arguments mkWorker {F}.
Arguments worker_cache {F}.
Arguments worker_im {F}.
Arguments matchingContextChan {F}.

Section Workers.
Context {F : Type} `{FloatOps F}.

Definition new_worker (db : Database) (lof : Lof F) : Worker F :=
  {| worker_cache := NewThreadCache lof;
     worker_im := NewInclusionMask db;
     matchingContextChan := [] |}.

(** One iteration of the loop of a worker, for the context it received.
    Every field of [match] is assigned before [match] is sent, and the
    worker waits until the reporter has printed it. *)
Definition worker_iteration (db : Database) (lof : Lof F) (origOutlier : nat)
    (workCtx : Context) (w : Worker F) : option (Worker F) :=
  let? (im', cache', (thisContextMatches, outlierList)) :=
    FindOutliers db lof (worker_cache w) (worker_im w) workCtx
      (worker_handler origOutlier) (false, []) in
  let match_ := {| context := workCtx; popSize := Count im';
                   outlierList := outlierList |} in
  Some {| worker_cache := cache';
          worker_im := im';
          matchingContextChan :=
            if thisContextMatches then matchingContextChan w ++ [match_]
            else matchingContextChan w |}.

(** The loop of a worker over the contexts it receives until the channel is
    closed. *)
Fixpoint worker_loop (db : Database) (lof : Lof F) (origOutlier : nat)
    (work : list Context) (w : Worker F) : option (Worker F) :=
  match work with
  | [] => Some w
  | workCtx :: more =>
      let? w' := worker_iteration db lof origOutlier workCtx w in
      worker_loop db lof origOutlier more w'
  end.

End Workers.

(** * The vocabulary of the statements *)

(** ** Masks *)

(** The record's bit, read without the bounds check. *)
Definition included (im : InclusionMask) (i : nat) : bool :=
  Z.testbit (default 0 (Mask im !! (i / 8)%nat)) (Z.of_nat (7 - i mod 8)).

(** The number of values [true] received from the channel. *)
Definition count_true (l : list bool) : Z :=
  Z.of_nat (length (List.filter (λ b, b) l)).

Definition in_mask_range (im : InclusionMask) (j : nat) : Prop :=
  (j / 8 < length (Mask im))%nat.

(** The records other than [i] that the mask includes. *)
Definition included_others (db : Database) (im : InclusionMask) (i : nat) : list nat :=
  filter (λ j, included im j = true ∧ j ≠ i) (seq 0 (length (Employees db))).

(** The number of records the mask includes. *)
Definition population (db : Database) (im : InclusionMask) : nat :=
  length (filter (λ i, included im i = true) (seq 0 (length (Employees db)))).

(** ** Two sorts that meet the contract of [sort.Slice] *)

(** Insertion sort: an element moves left while it is [less] than the one
    before it, so equal elements keep their order. *)
Fixpoint insert_stable (x : neighbor_distance) (l : list neighbor_distance)
    : list neighbor_distance :=
  match l with
  | [] => [x]
  | y :: l' => if distance_less y x then y :: insert_stable x l' else x :: l
  end.

Definition insertion_sort (l : list neighbor_distance) : list neighbor_distance :=
  foldr insert_stable [] l.

(** A sort that is as good for the contract: equal elements end up in the
    opposite order. *)
Fixpoint insert_after_equal (x : neighbor_distance) (l : list neighbor_distance)
    : list neighbor_distance :=
  match l with
  | [] => [x]
  | y :: l' => if distance_less x y then x :: l else y :: insert_after_equal x l'
  end.

Definition reversing_sort (l : list neighbor_distance) : list neighbor_distance :=
  foldr insert_after_equal [] l.

Definition by_distance (a b : neighbor_distance) : Prop := distance_less b a = false.

(** ** The neighbour index and its queries *)

(** The distance from record [i] to record [j], as [precomputeDistances]
    computes it for row [i]. *)
Definition dist (db : Database) (i j : nat) : Z :=
  match Employees db !! i, Employees db !! j with
  | Some ei, Some ej => Distance ei ej
  | _, _ => 0
  end.

Definition entries (db : Database) (i : nat) : list neighbor_distance :=
  (λ j, {| target := j; distance := if (i =? j)%nat then 0 else dist db i j |})
    <$> seq 0 (length (Employees db)).

Definition others (i : nat) (l : list neighbor_distance) : list nat :=
  target <$> filter (λ d, target d ≠ i) l.

Definition nearer (db : Database) (i : nat) (a b : nat) : Prop :=
  dist db i a ≤ dist db i b.

(** The index [NewKnn] builds: row [i] lists every other record once, nearest
    first. *)
Definition index_of (db : Database) (knn : Knn) : Prop :=
  Knn_Db knn = db
  ∧ length (NearestNeighbors knn) = length (Employees db)
  ∧ ∀ i, (i < length (Employees db))%nat →
      ∃ row, NearestNeighbors knn !! i = Some row
        ∧ row ≡ₚ filter (λ j, j ≠ i) (seq 0 (length (Employees db)))
        ∧ StronglySorted (nearer db i) row.

(** The records of a row that the mask includes, at most [k] of them. *)
Definition nearest (im : InclusionMask) (row : list nat) (k : nat) : list nat :=
  take k (filter (λ j, included im j = true) row).


(** ** The passes of the scorer *)

Section Passes.
Context {F : Type} `{FloatOps F}.

Definition row_of (knn : Knn) (i : nat) : list nat :=
  default [] (NearestNeighbors knn !! i).

(** The buffer [cache.Neighborhoods[i]]. *)
Definition buffer (cache : LofCache F) (i : nat) : list nat :=
  default [] (Neighborhoods cache !! i).

(** The neighbourhood the first pass finds for [i]: as many of the nearest
    included records as the buffer has slots. *)
Definition neighborhood_of (knn : Knn) (im : InclusionMask) (cache : LofCache F)
    (i : nat) : list nat :=
  nearest im (row_of knn i) (length (buffer cache i)).

Definition core_distance_of (db : Database) (i : nat) (neighborhood : list nat) : Z :=
  match last neighborhood with
  | Some furthest => dist db i furthest
  | None => 0
  end.

(** The cache after the first pass has run on the records selected by [p]. *)
Definition core_update (db : Database) (knn : Knn) (im : InclusionMask)
    (p : nat → bool) (cache : LofCache F) : LofCache F :=
  {| Neighborhoods :=
       imap (λ i old, if p i then nearest im (row_of knn i) (length old) else old)
         (Neighborhoods cache);
     CoreDistance :=
       imap (λ i old, if p i
                      then core_distance_of db i (neighborhood_of knn im cache i)
                      else old)
         (CoreDistance cache);
     LocalReachabilityDensities := LocalReachabilityDensities cache |}.

Definition f_sum (l : list F) : F := fold_left f_add l f_zero.

Definition coreDistance_of (cache : LofCache F) (j : nat) : Z :=
  default 0 (CoreDistance cache !! j).

Definition lrd_in (cache : LofCache F) (j : nat) : F :=
  default f_zero (LocalReachabilityDensities cache !! j).

(** The reachability distance of [i] from its neighbour [j], as a float. *)
Definition reachability (db : Database) (cache : LofCache F) (i j : nat) : F :=
  f_of_Z (Z.max (dist db j i) (coreDistance_of cache j)).

(** The local reachability density the second pass stores for [i]. *)
Definition lrd_of (db : Database) (cache : LofCache F) (i : nat) : F :=
  f_div (f_of_Z (Z.of_nat (length (buffer cache i))))
    (f_sum (reachability db cache i <$> buffer cache i)).

(** The cache after the second pass has run on the records selected by [p]. *)
Definition lrd_update (db : Database) (p : nat → bool) (cache : LofCache F) : LofCache F :=
  {| Neighborhoods := Neighborhoods cache;
     CoreDistance := CoreDistance cache;
     LocalReachabilityDensities :=
       imap (λ i old, if p i then lrd_of db cache i else old)
         (LocalReachabilityDensities cache) |}.

(** The score the third pass computes for [i]. *)
Definition score_of (cache : LofCache F) (i : nat) : F :=
  f_div (f_sum (lrd_in cache <$> buffer cache i))
    (f_mul (f_of_Z (Z.of_nat (length (buffer cache i)))) (lrd_in cache i)).


(** The records the third pass reports, with their scores. *)
Definition reported (lof : Lof F) (cache : LofCache F) (im : InclusionMask)
    (indices : list nat) : list (nat * F) :=
  (λ i, (i, score_of cache i))
    <$> List.filter (λ i, included im i && f_ge (score_of cache i) (Threshold lof))
          indices.

(** The calls of the handler on a list of reports: it stops after the first
    call that returns [false]. *)
Fixpoint visit {V} (outlierHandler : OutlierHandler V) (reports : list (nat * F))
    (v : V) : V :=
  match reports with
  | [] => v
  | (i, score) :: more =>
      let '(continue, v') := outlierHandler i score v in
      if continue then visit outlierHandler more v' else v'
  end.

Definition cache_sized (n : nat) (cache : LofCache F) : Prop :=
  length (Neighborhoods cache) = n
  ∧ length (CoreDistance cache) = n
  ∧ length (LocalReachabilityDensities cache) = n.

(** The buffers have a slot, and every included record has an included
    neighbour. *)
Definition ready (db : Database) (knn : Knn) (im : InclusionMask)
    (cache0 : LofCache F) : Prop :=
  ∀ i, (i < length (Employees db))%nat → included im i = true →
    (1 ≤ length (buffer cache0 i))%nat ∧ neighborhood_of knn im cache0 i ≠ [].

(** Every neighbour stored for an included record is a record. *)
Definition neighbors_valid (db : Database) (im : InclusionMask)
    (cache : LofCache F) : Prop :=
  ∀ i, (i < length (Employees db))%nat → included im i = true →
    Forall (λ j, (j < length (Employees db))%nat) (buffer cache i).

(** The cache the first two passes leave. *)
Definition scored (db : Database) (knn : Knn) (im : InclusionMask)
    (cache0 : LofCache F) : LofCache F :=
  lrd_update db (included im) (core_update db knn im (included im) cache0).

End Passes.

(** The records below [m] that [p] selects: those a pass has handled when it
    reaches [m]. *)
Definition below (p : nat → bool) (m : nat) (i : nat) : bool := p i && (i <? m)%nat.



(** The handler that keeps every report. *)
Definition collect {F} : OutlierHandler (F:=F) (list (nat * F)) :=
  λ employee score outliers, (true, outliers ++ [(employee, score)]).

(** ** The enumeration of the supersets *)

(** All assignments of [m] booleans, in the order of the recursion:
    [false] before [true], the first value varying slowest. *)
Fixpoint assignments (m : nat) : list (list bool) :=
  match m with
  | O => [[]]
  | S m' => (cons false <$> assignments m') ++ (cons true <$> assignments m')
  end.

(** The innermost closure runs on a state whose context is [c]. *)
Definition with_ctx (c : Context) (s : Scan) : Scan :=
  {| ctx := c; originalContext := originalContext s; workChan := workChan s;
     processedContexts := processedContexts s |}.

(** The innermost closure [leaf] called on each context of a list in turn. *)
Definition run_leaves (leaf : Scan → Scan) (cs : list Context) (s : Scan) : Scan :=
  fold_left (λ s c, leaf (with_ctx c s)) cs s.

Definition set_employers (l : list bool) (c : Context) : Context :=
  {| EmployersIncluded := l; JobTitlesIncluded := JobTitlesIncluded c;
     YearsIncluded := YearsIncluded c |}.
Definition set_jobTitles (l : list bool) (c : Context) : Context :=
  {| EmployersIncluded := EmployersIncluded c; JobTitlesIncluded := l;
     YearsIncluded := YearsIncluded c |}.
Definition set_years (l : list bool) (c : Context) : Context :=
  {| EmployersIncluded := EmployersIncluded c;
     JobTitlesIncluded := JobTitlesIncluded c; YearsIncluded := l |}.

(** The leaves below one level of the recursion: for every assignment [a] of
    the window, in turn, the leaves [inner (pre ++ a)] of the levels below. *)
Definition level_leaves (inner : list bool → list Context) (pre : list bool)
    (len : nat) : list Context :=
  concat ((λ a, inner (pre ++ a)) <$> assignments len).

(** The list [l] is [pre] followed by [m] more values. *)
Definition has_prefix (pre : list bool) (m : nat) (l : list bool) : Prop :=
  ∃ w, l = pre ++ w ∧ length w = m.

(** The closures handed to the outer two [RecursivePermute] calls. *)
Definition years_level (leaf : Scan → Scan) (origY : nat) (s : Scan) : Scan :=
  RecursivePermute write_year origY
    (length (YearsIncluded (ctx s)) - origY)%nat leaf s.

Definition jobTitles_level (leaf : Scan → Scan) (origJ origY : nat) (s : Scan)
    : Scan :=
  RecursivePermute write_jobTitle origJ
    (length (JobTitlesIncluded (ctx s)) - origJ)%nat (years_level leaf origY) s.

(** The superset context of an assignment of the flippable values: the
    employers' values first, then the job titles', then the years'. The first
    [origE], [origJ] and [origY] values of the dimensions stay included. *)
Definition context_of (origE origJ origY mE mJ : nat) (a : list bool) : Context :=
  {| EmployersIncluded := replicate origE true ++ take mE a;
     JobTitlesIncluded := replicate origJ true ++ take mJ (drop mE a);
     YearsIncluded := replicate origY true ++ drop (mE + mJ) a |}.

Definition superset_contexts (origE origJ origY mE mJ mY : nat) : list Context :=
  context_of origE origJ origY mE mJ <$> assignments (mE + (mJ + mY)).

(** ** Concrete inputs *)

(** A database of records that differ in their salary only. *)
Definition salaries_db (salaries : list Z) : Database :=
  {| Employers := []; JobTitles := []; Years := [];
     Employees := (λ s, {| Id := 0; Employer := 0; JobTitle := 0; Year := 0;
                           Salary := s |}) <$> salaries |}.

(** Four records with salaries 35, 13, 31 and 36: no two records are at the
    same distance from a third. *)
Definition db4 : Database := salaries_db [35; 13; 31; 36].

Definition knn4 : Knn :=
  {| Knn_Db := db4;
     NearestNeighbors := [[3; 2; 1]; [2; 0; 3]; [0; 3; 1]; [0; 2; 1]]%nat |}.

(** The mask of [db4] with all four records, and the one with records 0 and 1. *)
Definition mask4_all : InclusionMask := {| Mask := [240]; Count := 4 |}.
Definition mask4_01 : InclusionMask := {| Mask := [192]; Count := 2 |}.


(** Four records with salaries 6, 1, 3 and 7. *)
Definition db6 : Database := salaries_db [6; 1; 3; 7].

Definition knn6 : Knn :=
  {| Knn_Db := db6;
     NearestNeighbors := [[3; 2; 1]; [2; 0; 3]; [1; 0; 3]; [0; 2; 1]]%nat |}.

(** Three records of two employers, one job title and one year. *)
Definition db_small : Database :=
  {| Employers := ["A"; "B"]%string;
     JobTitles := ["clerk"]%string;
     Years := [2020];
     Employees :=
       [ {| Id := 1; Employer := 0; JobTitle := 0; Year := 0; Salary := 50000 |};
         {| Id := 2; Employer := 1; JobTitle := 0; Year := 0; Salary := 61000 |};
         {| Id := 3; Employer := 0; JobTitle := 0; Year := 0; Salary := 75000 |} ] |}.

Definition knn_small : Knn :=
  {| Knn_Db := db_small; NearestNeighbors := [[1; 2]; [0; 2]; [1; 0]]%nat |}.

Definition lof_small : Lof float := NewLof db_small knn_small 20 1.5%float.

(** The context of employer A and the context of employer B. *)
Definition ctx_A : Context :=
  {| EmployersIncluded := [true; false]; JobTitlesIncluded := [true];
     YearsIncluded := [true] |}.
Definition ctx_B : Context :=
  {| EmployersIncluded := [false; true]; JobTitlesIncluded := [true];
     YearsIncluded := [true] |}.

Definition lof4 : Lof float := NewLof db4 knn4 2 1.5%float.

(** ** Records, contexts and populations *)

(** A [uint32] value. *)
Definition uint32 (x : Z) : Prop := 0 ≤ x < 2 ^ 32.

(** The flag of a record under three inclusion slices, read without the
    bounds checks. *)
Definition selects (validEmployers validJobTitles validYears : list bool)
    (e : Employee) : bool :=
  default false (validEmployers !! Employer e)
  && default false (validJobTitles !! JobTitle e)
  && default false (validYears !! Year e).

(** Every attribute index of every record is within the three slices. *)
Definition well_indexed (db : Database) (nE nJ nY : nat) : Prop :=
  Forall (λ e, (Employer e < nE)%nat ∧ (JobTitle e < nJ)%nat ∧ (Year e < nY)%nat)
    (Employees db).

(** The operand of [a && b && c] that [Filter] reaches for a record is out
    of range. *)
Definition reaches_out_of_range (validEmployers validJobTitles validYears : list bool)
    (e : Employee) : Prop :=
  validEmployers !! Employer e = None
  ∨ (validEmployers !! Employer e = Some true
     ∧ (validJobTitles !! JobTitle e = None
        ∨ (validJobTitles !! JobTitle e = Some true
           ∧ validYears !! Year e = None))).

(** No two records are at the same distance from a third: in particular no
    two records have the same salary. *)
Definition tie_free (db : Database) : Prop :=
  ∀ i j k, (i < length (Employees db))%nat → (j < length (Employees db))%nat →
    (k < length (Employees db))%nat → j ≠ k → dist db i j ≠ dist db i k.

(** The records a context selects. *)
Definition ctx_selects (ctx : Context) (e : Employee) : bool :=
  selects (EmployersIncluded ctx) (JobTitlesIncluded ctx) (YearsIncluded ctx) e.

Definition context_population (db : Database) (ctx : Context) : nat :=
  length (filter (λ e, ctx_selects ctx e = true) (Employees db)).

(** The slices of the context have the lengths [NewContext] gives them. *)
Definition context_for (db : Database) (ctx : Context) : Prop :=
  length (EmployersIncluded ctx) = length (Employers db)
  ∧ length (JobTitlesIncluded ctx) = length (JobTitles db)
  ∧ length (YearsIncluded ctx) = length (Years db).

(** The attribute indices of the records refer to the attribute lists. *)
Definition well_formed (db : Database) : Prop :=
  well_indexed db (length (Employers db)) (length (JobTitles db))
    (length (Years db)).

(** Every record that [c] selects, [c'] selects too. *)
Definition selects_more (db : Database) (c c' : Context) : Prop :=
  ∀ e, e ∈ Employees db → ctx_selects c e = true → ctx_selects c' e = true.

(** The sum of the populations of a list of contexts. *)
Definition total_population (db : Database) (work : list Context) : Z :=
  foldr (λ c t, Z.of_nat (context_population db c) + t) 0 work.

(** What a worker keeps true of its storage. *)
Definition worker_ready {F : Type} (db : Database) (w : Worker F) : Prop :=
  cache_sized (length (Employees db)) (worker_cache w)
  ∧ Forall (λ b, (1 ≤ length b)%nat) (Neighborhoods (worker_cache w))
  ∧ length (Mask (worker_im w)) = ((length (Employees db) + 7) / 8)%nat
  ∧ 0 ≤ Count (worker_im w).

(** ** More concrete inputs *)

(** Twenty-one records of employer A, twenty with salaries from 50000 to
    52261 and one with 90000, and two records of employer B. *)
Definition db23 : Database :=
  {| Employers := ["A"; "B"]%string;
     JobTitles := ["clerk"]%string;
     Years := [2020];
     Employees :=
       imap (λ i s, {| Id := Z.of_nat i;
                       Employer := if (i <? 21)%nat then 0%nat else 1%nat;
                       JobTitle := 0; Year := 0; Salary := s |})
         (((λ i, 50000 + 100 * Z.of_nat i + Z.of_nat (i * i)) <$> seq 0 20)
            ++ [90000; 51000; 52000]) |}.

(** Its index, with the rows sorted by insertion. *)
Definition knn23 : Knn :=
  {| Knn_Db := db23;
     NearestNeighbors :=
       (λ i, others i (insertion_sort (entries db23 i))) <$> seq 0 23 |}.

Definition lof23 : Lof float := NewLof db23 knn23 3 1.5%float.

(** The context of both employers. *)
Definition ctx_AB : Context :=
  {| EmployersIncluded := [true; true]; JobTitlesIncluded := [true];
     YearsIncluded := [true] |}.

(** A cache of [db4] with two slots per record that holds the values of
    some earlier run. *)
Definition stale_cache4 : LofCache float :=
  {| Neighborhoods := [[3; 3]; [0; 0]; [1; 1]; [2; 2]]%nat;
     CoreDistance := [7; 7; 7; 7];
     LocalReachabilityDensities := [2; 2; 2; 2]%float |}.

(** ** The table that [ReadDatabase] reads *)

(** What the loop reads off a record. *)
Record Row := mkRow {
  row_id : Z;
  row_employer : string;
  row_jobTitle : string;
  row_year : Z;
  row_salary : Z
}.

(** The checks of the loop body on a record, in the order of the code: the
    row it reads, the error it returns, or its panic. *)
Definition classify_row (cols : Columns) (record : list string) : outcome Row :=
  let! employer := field record (employerCol cols) in
  let! jobTitle := field record (jobTitleCol cols) in
  let! salaryStr := field record (salaryCol cols) in
  let! idStr := field record (idCol cols) in
  match ParseUint idStr 64 with
  | None => Failed (invalid_identifier idStr)
  | Some id =>
      let! yearStr := field record (yearCol cols) in
      match ParseUint yearStr 16 with
      | None => Failed (invalid_year yearStr)
      | Some year =>
          let! cleaned := clean_salary salaryStr in
          match ParseUint cleaned 32 with
          | None => Failed (invalid_salary salaryStr)
          | Some salary =>
              Ok {| row_id := id; row_employer := employer;
                    row_jobTitle := jobTitle; row_year := year;
                    row_salary := salary |}
          end
      end
  end.

(** The rows up to the end of the input, or the first error or panic. *)
Fixpoint classify_rows (cols : Columns) (input : list csv_read)
    : outcome (list Row) :=
  match input with
  | [] => Ok []
  | csv_error err :: _ => Failed (record_error err)
  | csv_record record :: more =>
      let! row := classify_row cols record in
      let! rows := classify_rows cols more in
      Ok (row :: rows)
  end.

(** The values of a list in the order of their first occurrence. *)
Definition first_seen {A} `{EqDecision A} (l : list A) : list A :=
  foldl (λ seen x, if decide (x ∈ seen) then seen else seen ++ [x]) [] l.

Definition count_of {A} `{EqDecision A} (l : list A) (x : A) : nat :=
  length (filter (x =.) l).

(** The map gives every value of [seen] its position in [seen]. *)
Definition numbered {K} `{Countable K} (set : gmap K nat) (seen : list K) : Prop :=
  size set = length seen ∧ ∀ k n, set !! k = Some n ↔ seen !! n = Some k.

(** A record of the database stands for a row of the table: its attribute
    indices name the row's values in the attribute lists. *)
Definition stands_for (employers jobTitles : list string) (years : list Z)
    (e : Employee) (r : Row) : Prop :=
  Id e = row_id r
  ∧ employers !! Employer e = Some (row_employer r)
  ∧ jobTitles !! JobTitle e = Some (row_jobTitle r)
  ∧ years !! Year e = Some (row_year r)
  ∧ Salary e = row_salary r.

(** The variables of the loop after it has read [rows]. *)
Definition reading_of (st : Reading) (rows : list Row) : Prop :=
  numbered (employerSet st) (first_seen (row_employer <$> rows))
  ∧ employerEmployees st
    = count_of (row_employer <$> rows) <$> first_seen (row_employer <$> rows)
  ∧ numbered (jobTitleSet st) (first_seen (row_jobTitle <$> rows))
  ∧ jobTitleEmployees st
    = count_of (row_jobTitle <$> rows) <$> first_seen (row_jobTitle <$> rows)
  ∧ numbered (yearSet st) (first_seen (row_year <$> rows))
  ∧ reading_Years st = first_seen (row_year <$> rows)
  ∧ Forall2 (stands_for (first_seen (row_employer <$> rows))
               (first_seen (row_jobTitle <$> rows))
               (first_seen (row_year <$> rows)))
      (unfilteredEmployees st) rows.

(** The value has the minimum number of rows. *)
Definition enough (min : nat) (values : list string) (value : string) : Prop :=
  (min ≤ count_of values value)%nat.

#[export] Instance enough_dec (min : nat) (values : list string) (value : string)
    : Decision (enough min values value) :=
  decide (min ≤ count_of values value)%nat.

(** The rows whose employer and job title both have enough rows. *)
Definition kept_rows (minPerEmployer minPerJobTitle : nat) (rows : list Row)
    : list Row :=
  filter (λ r, enough minPerEmployer (row_employer <$> rows) (row_employer r)
               ∧ enough minPerJobTitle (row_jobTitle <$> rows) (row_jobTitle r))
    rows.

(** The columns that the header gives. *)
Definition columns_of (header : list string) : Columns :=
  header_columns header 0
    {| idCol := -1; employerCol := -1; jobTitleCol := -1; salaryCol := -1;
       yearCol := -1 |}.

Definition columns_found (cols : Columns) : Prop :=
  0 ≤ idCol cols ∧ 0 ≤ employerCol cols ∧ 0 ≤ jobTitleCol cols
  ∧ 0 ≤ salaryCol cols ∧ 0 ≤ yearCol cols.

(** The database is the table of [rows] restricted to the values with enough
    rows: the attribute lists in some order, the records in the order of the
    rows. *)
Definition database_of (minPerEmployer minPerJobTitle : nat) (rows : list Row)
    (db : Database) : Prop :=
  Employers db
    ≡ₚ filter (enough minPerEmployer (row_employer <$> rows))
         (first_seen (row_employer <$> rows))
  ∧ JobTitles db
    ≡ₚ filter (enough minPerJobTitle (row_jobTitle <$> rows))
         (first_seen (row_jobTitle <$> rows))
  ∧ Years db = first_seen (row_year <$> rows)
  ∧ Forall2 (stands_for (Employers db) (JobTitles db) (Years db))
      (Employees db) (kept_rows minPerEmployer minPerJobTitle rows).

(** Two databases hold the same table: the same records in the same order,
    each with the same attribute values under the databases' own numbering
    of the values. *)
Definition same_table (db1 db2 : Database) : Prop :=
  Employers db1 ≡ₚ Employers db2
  ∧ JobTitles db1 ≡ₚ JobTitles db2
  ∧ Years db1 = Years db2
  ∧ Forall2 (λ e1 e2,
        Id e1 = Id e2
        ∧ is_Some (Employers db1 !! Employer e1)
        ∧ Employers db1 !! Employer e1 = Employers db2 !! Employer e2
        ∧ is_Some (JobTitles db1 !! JobTitle e1)
        ∧ JobTitles db1 !! JobTitle e1 = JobTitles db2 !! JobTitle e2
        ∧ Year e1 = Year e2
        ∧ Salary e1 = Salary e2)
      (Employees db1) (Employees db2).

(** The names of the five columns that [ReadDatabase] looks for. *)
Definition column_names : list string :=
  [""; "Employer"; "Job Title"; "Salary Paid"; "Calendar Year"]%string.

(** The index kept for a column name. *)
Definition column (cols : Columns) (name : string) : Z :=
  if String.eqb name "" then idCol cols
  else if String.eqb name "Employer" then employerCol cols
  else if String.eqb name "Job Title" then jobTitleCol cols
  else if String.eqb name "Salary Paid" then salaryCol cols
  else if String.eqb name "Calendar Year" then yearCol cols
  else -1.

(** The record has a field in every column of the header, and its salary
    field is not empty. *)
Definition plain_record (header : list string) (read : csv_read) : Prop :=
  match read with
  | csv_record record =>
      length record = length header
      ∧ record !! Z.to_nat (salaryCol (columns_of header)) ≠ Some ""%string
  | csv_error _ => True
  end.

(** A salary field: an optional dollar sign, digits with commas anywhere,
    and an optional fraction after a period. *)
Definition salary_field (dollar : bool) (amount : string) (fraction : option string)
    : string :=
  String.append (if dollar then "$" else "")
    (String.append amount
       (match fraction with
        | Some f => String "." f
        | None => ""
        end))%string.

(** A table of four records under a header of six columns. *)
Definition sample_header : list string :=
  [""; "Sector"; "Employer"; "Job Title"; "Salary Paid"; "Calendar Year"]%string.

Definition sample_records : list csv_read :=
  [ csv_record [ "1"; "Municipal"; "City"; "Clerk"; "$101,250.50"; "2015" ];
    csv_record [ "2"; "Municipal"; "City"; "Clerk"; "99,000"; "2016" ];
    csv_record [ "3"; "Energy"; "Hydro"; "Clerk"; ".75"; "2015" ];
    csv_record [ "4"; "Municipal"; "City"; "Planner"; "120000"; "2015" ] ]%string.

Definition sample_rows : list Row :=
  [ {| row_id := 1; row_employer := "City"; row_jobTitle := "Clerk";
       row_year := 2015; row_salary := 101250 |};
    {| row_id := 2; row_employer := "City"; row_jobTitle := "Clerk";
       row_year := 2016; row_salary := 99000 |};
    {| row_id := 3; row_employer := "Hydro"; row_jobTitle := "Clerk";
       row_year := 2015; row_salary := 0 |};
    {| row_id := 4; row_employer := "City"; row_jobTitle := "Planner";
       row_year := 2015; row_salary := 120000 |} ]%string.

(** The record of an employee whose salary field is empty. *)
Definition sample_empty_salary : list string :=
  [ "5"; "Energy"; "Hydro"; "Clerk"; ""; "2016" ]%string.

(** What [ReadDatabase] makes of the sample table with a minimum of two
    records per employer and one per job title. *)
Definition sample_database : Database :=
  {| Employers := ["City"]%string;
     JobTitles := ["Clerk"; "Planner"]%string;
     Years := [2015; 2016];
     Employees :=
       [ {| Id := 1; Employer := 0; JobTitle := 0; Year := 0; Salary := 101250 |};
         {| Id := 2; Employer := 0; JobTitle := 0; Year := 1; Salary := 99000 |};
         {| Id := 4; Employer := 0; JobTitle := 1; Year := 0; Salary := 120000 |} ]
  |}.

(** * Properties *)

(** Division and remainder by a constant, for [lia]. *)
Ltac Zify.zify_post_hook ::= Z.div_mod_to_equations.

(** ** Lists *)

Lemma list_fmap_ext_elem {A B} (f g : A → B) (l : list A) :
  (∀ x, x ∈ l → f x = g x) → f <$> l = g <$> l.
Proof.
  intros Hfg. apply list_fmap_ext. intros i x Hx.
  by eapply Hfg, list_elem_of_lookup_2.
Qed.

(** ** Bits of a mask byte *)

Lemma bit_constant (k : nat) :
  (k ≤ 7)%nat → wrap 8 (Z.shiftl 1 (Z.of_nat k)) = 2 ^ Z.of_nat k.
Proof.
  intros Hk. unfold wrap. rewrite Z.shiftl_1_l.
  apply Z.mod_small. split; [apply Z.pow_nonneg; lia|].
  apply Z.pow_lt_mono_r; lia.
Qed.

Lemma land_pow2_testbit (a k : Z) :
  0 ≤ k → negb (Z.land a (2 ^ k) =? 0) = Z.testbit a k.
Proof.
  intros Hk. destruct (Z.testbit a k) eqn:Hbit.
  - destruct (Z.eqb_spec (Z.land a (2 ^ k)) 0) as [H0|]; [|done].
    assert (Z.testbit (Z.land a (2 ^ k)) k = true) as Hl.
    { rewrite Z.land_spec, Hbit, Z.pow2_bits_true; [done|lia]. }
    rewrite H0, Z.bits_0 in Hl. done.
  - assert (Z.land a (2 ^ k) = 0) as ->; [|done].
    apply Z.bits_inj'. intros j Hj. rewrite Z.land_spec, Z.bits_0.
    destruct (Z.eq_dec j k) as [->|Hne].
    + by rewrite Hbit.
    + rewrite Z.pow2_bits_false by lia. apply andb_false_r.
Qed.

Lemma lor_pow2_testbit (a k j : Z) :
  0 ≤ k → 0 ≤ j → Z.testbit (Z.lor a (2 ^ k)) j = Z.testbit a j || (j =? k).
Proof.
  intros Hk Hj. rewrite Z.lor_spec. f_equal.
  destruct (Z.eqb_spec j k) as [->|Hne].
  - apply Z.pow2_bits_true; lia.
  - apply Z.pow2_bits_false; lia.
Qed.

Lemma IsIncluded_included (im : InclusionMask) (i : nat) :
  (i / 8 < length (Mask im))%nat → IsIncluded im i = Some (included im i).
Proof.
  intros Hi. unfold IsIncluded, included.
  destruct (lookup_lt_is_Some_2 (Mask im) (i / 8)%nat Hi) as [byte ->]. simpl.
  assert (7 - i mod 8 ≤ 7)%nat by lia.
  rewrite bit_constant by done. f_equal. apply land_pow2_testbit. lia.
Qed.

Lemma store_Some {A} (s : list A) (i : nat) (x : A) :
  (i < length s)%nat → store s i x = Some (<[i:=x]> s).
Proof. intros Hi. unfold store. by rewrite decide_True. Qed.

Lemma store_inv {A} (s s' : list A) (i : nat) (x : A) :
  store s i x = Some s' → (i < length s)%nat ∧ s' = <[i:=x]> s.
Proof. unfold store. case_decide; naive_solver. Qed.

(** ** [Fill] *)

Lemma wrap_add_l (w a b : Z) : wrap w (wrap w a + b) = wrap w (a + b).
Proof.
  unfold wrap. destruct (Z.eq_dec (2 ^ w) 0) as [Hz|Hz].
  - rewrite Hz. by rewrite !Z.mod_0_r.
  - by apply Z.add_mod_idemp_l.
Qed.

Lemma wrap_small (w a : Z) : 0 ≤ a < 2 ^ w → wrap w a = a.
Proof. apply Z.mod_small. Qed.

Lemma count_true_cons (b : bool) (l : list bool) :
  count_true (b :: l) = (if b then 1 else 0) + count_true l.
Proof.
  unfold count_true. destruct b; cbn; lia.
Qed.

Lemma wrap_range (w a : Z) : 0 ≤ w → 0 ≤ wrap w a < 2 ^ w.
Proof. intros Hw. apply Z.mod_pos_bound. by apply Z.pow_pos_nonneg. Qed.

Lemma count_true_bounds (l : list bool) : 0 ≤ count_true l ≤ Z.of_nat (length l).
Proof.
  unfold count_true. split; [lia|].
  apply inj_le, List.filter_length_le.
Qed.

(** What one iteration does to the byte it works on and to the others. *)
Lemma Fill_step_spec (include : bool) (b bit : nat) (im : InclusionMask) :
  (bit < 8)%nat →
  (b < length (Mask im))%nat →
  ∃ im',
    Fill_step include b bit im = Some im'
    ∧ length (Mask im') = length (Mask im)
    ∧ Count im' = (if include then wrap 64 (Count im + 1) else Count im)
    ∧ (∀ b', b' ≠ b → Mask im' !! b' = Mask im !! b')
    ∧ (∀ k, 0 ≤ k →
        Z.testbit (default 0 (Mask im' !! b)) k =
          if k =? Z.of_nat (7 - bit)
          then include || (if (bit =? 0)%nat then false
                           else Z.testbit (default 0 (Mask im !! b)) k)
          else if (bit =? 0)%nat then false
               else Z.testbit (default 0 (Mask im !! b)) k).
Proof.
  intros Hbit Hb. unfold Fill_step.
  assert (7 - bit ≤ 7)%nat as Hk by lia.
  destruct (Nat.eqb_spec bit 0) as [->|Hne].
  - rewrite store_Some by done. cbn [Mask Count].
    rewrite list_lookup_insert_eq by done.
    destruct include.
    + rewrite store_Some by (by rewrite length_insert).
      eexists. split; [done|]. cbn [Mask Count].
      rewrite !length_insert. split; [done|]. split; [done|]. split.
      * intros b' Hb'. by rewrite !list_lookup_insert_ne.
      * intros k Hk0. rewrite list_lookup_insert_eq by (by rewrite length_insert).
        cbn [default from_option id]. rewrite bit_constant by done.
        rewrite lor_pow2_testbit by lia. rewrite Z.bits_0.
        by destruct (k =? _).
    + eexists. split; [done|]. cbn [Mask Count].
      rewrite length_insert. split; [done|]. split; [done|]. split.
      * intros b' Hb'. by rewrite list_lookup_insert_ne.
      * intros k Hk0. rewrite list_lookup_insert_eq by done.
        cbn [default from_option id]. rewrite Z.bits_0. by destruct (k =? _).
  - destruct (lookup_lt_is_Some_2 (Mask im) b Hb) as [old Hold].
    destruct include.
    + rewrite Hold, store_Some by done.
      eexists. split; [done|]. cbn [Mask Count].
      rewrite length_insert. split; [done|]. split; [done|]. split.
      * intros b' Hb'. by rewrite list_lookup_insert_ne.
      * intros k Hk0. rewrite list_lookup_insert_eq by done.
        cbn [default from_option id]. rewrite bit_constant by done.
        rewrite lor_pow2_testbit by lia.
        destruct (k =? _); [apply orb_comm|apply orb_false_r].
    + eexists. split; [done|]. split; [done|]. split; [done|]. split; [done|].
      intros k Hk0. by destruct (k =? _).
Qed.

(** The loop invariant of [Fill]: [8 * b + bit] values were received, and the
    bits of byte [b] that were not written yet are clear. *)
Lemma Fill_loop_spec (inclusion : list bool) :
  ∀ (b bit : nat) (im : InclusionMask),
    (bit < 8)%nat →
    ((8 * b + bit + length inclusion + 7) / 8 ≤ length (Mask im))%nat →
    (bit ≠ 0%nat → ∀ k : nat, (k < 8 - bit)%nat →
       Z.testbit (default 0 (Mask im !! b)) (Z.of_nat k) = false) →
    0 ≤ Count im < 2 ^ 64 →
    ∃ im',
      Fill_loop inclusion b bit im = Some im'
      ∧ length (Mask im') = length (Mask im)
      ∧ Count im' = wrap 64 (Count im + count_true inclusion)
      ∧ (∀ r, (r < 8 * b + bit)%nat → included im' r = included im r)
      ∧ (∀ r x, inclusion !! r = Some x → included im' (8 * b + bit + r) = x).
Proof.
  induction inclusion as [|include more IH];
    intros b bit im Hbit Hlen Hclear Hcount.
  - exists im. cbn. rewrite Z.add_0_r, wrap_small by done. repeat split; done.
  - cbn [Fill_loop length] in *.
    assert (b < length (Mask im))%nat as Hb by lia.
    destruct (Fill_step_spec include b bit im Hbit Hb)
      as (im1 & -> & Hlen1 & Hcount1 & Hother & Hbyte).
    assert (∀ r, (r < 8 * b + bit)%nat → included im1 r = included im r) as Hold.
    { intros r Hr. unfold included.
      destruct (Nat.eq_dec (r / 8)%nat b) as [Hrb|Hrb].
      - rewrite Hrb, Hbyte by lia.
        assert ((Z.of_nat (7 - r mod 8) =? Z.of_nat (7 - bit)) = false) as ->
          by (apply Z.eqb_neq; lia).
        destruct (Nat.eqb_spec bit 0); [lia|done].
      - by rewrite Hother. }
    assert (included im1 (8 * b + bit) = include) as Hnew.
    { unfold included.
      assert ((8 * b + bit) / 8 = b)%nat as -> by lia.
      assert ((8 * b + bit) mod 8 = bit)%nat as -> by lia.
      rewrite Hbyte, Z.eqb_refl by lia.
      destruct (Nat.eqb_spec bit 0); [apply orb_false_r|].
      rewrite Hclear by (done || lia). apply orb_false_r. }
    assert (∃ b' bit', (if (7 <? bit + 1)%nat
                        then Fill_loop more (b + 1) 0 im1
                        else Fill_loop more b (bit + 1) im1)
                       = Fill_loop more b' bit' im1
                       ∧ (8 * b' + bit' = 8 * b + bit + 1)%nat ∧ (bit' < 8)%nat
                       ∧ (bit' ≠ 0%nat → b' = b ∧ bit' = (bit + 1)%nat))
      as (b' & bit' & -> & Hpos & Hbit' & Hsame).
    { destruct (Nat.ltb_spec 7 (bit + 1)).
      - exists (b + 1)%nat, 0%nat. repeat split; lia.
      - exists b, (bit + 1)%nat. repeat split; lia. }
    destruct (IH b' bit' im1) as (im' & Hrun & Hlen' & Hcount' & Hpre & Hpost).
    { done. }
    { rewrite Hlen1. lia. }
    { intros Hne k Hk. destruct (Hsame Hne) as [-> ->].
      rewrite Hbyte by lia.
      assert ((Z.of_nat k =? Z.of_nat (7 - bit)) = false) as ->
        by (apply Z.eqb_neq; lia).
      destruct (Nat.eqb_spec bit 0); [done|]. apply Hclear; [done|lia]. }
    { rewrite Hcount1. destruct include; [by apply wrap_range|done]. }
    exists im'. split; [done|]. split; [congruence|].
    rewrite count_true_cons. split; [|split].
    + rewrite Hcount', Hcount1. destruct include.
      * rewrite wrap_add_l. f_equal. lia.
      * f_equal.
    + intros r Hr. rewrite Hpre by lia. by apply Hold.
    + intros [|r] x Hx.
      * injection Hx as <-. rewrite Nat.add_0_r, Hpre by lia. done.
      * cbn in Hx. replace (8 * b + bit + S r)%nat with (8 * b' + bit' + r)%nat by lia.
        by apply Hpost.
Qed.

(** What [Fill] leaves in a mask of the size [NewInclusionMask] allocates,
    whatever the mask held before: the bits are those received, and the
    count is the old count plus the number of [true] received. *)
Lemma Fill_spec (im : InclusionMask) (inclusion : list bool) :
  ((length inclusion + 7) / 8 ≤ length (Mask im))%nat →
  0 ≤ Count im < 2 ^ 64 →
  ∃ im',
    Fill im inclusion = Some im'
    ∧ length (Mask im') = length (Mask im)
    ∧ Count im' = wrap 64 (Count im + count_true inclusion)
    ∧ (∀ r x, inclusion !! r = Some x → IsIncluded im' r = Some x).
Proof.
  intros Hlen Hcount.
  destruct (Fill_loop_spec inclusion 0 0 im) as (im' & Hrun & Hlen' & Hc & _ & Hbits);
    [lia|lia|done|done|].
  exists im'. split; [done|]. split; [done|]. split; [done|].
  intros r x Hx. rewrite IsIncluded_included.
  - f_equal. by apply (Hbits r x).
  - apply lookup_lt_Some in Hx. lia.
Qed.

(** ** What [Fill] does with the stream of [Filter] *)

Lemma count_true_filter (g : nat → bool) (l : list bool) :
  ∀ a,
    (∀ r x, l !! r = Some x → g (a + r)%nat = x) →
    length (List.filter (λ b, b) l)
    = length (filter (λ i, g i = true) (seq a (length l))).
Proof.
  induction l as [|x l IH]; intros a Hg; [done|].
  pose proof (Hg 0%nat x eq_refl) as Hx. rewrite Nat.add_0_r in Hx.
  assert (length (List.filter (λ b, b) l)
          = length (filter (λ i, g i = true) (seq (S a) (length l)))) as Hrest.
  { apply IH. intros r y Hy. rewrite <- (Hg (S r) y Hy). f_equal. lia. }
  cbn [length seq List.filter]. rewrite filter_cons, Hx.
  destruct x.
  - rewrite decide_True by done. cbn [length]. by rewrite Hrest.
  - by rewrite decide_False.
Qed.

(** Whatever the mask held, after [Fill] has read the stream of [Filter] the
    bit of a record says whether its employer, job title and year are
    included; [Count] has grown by the number of included records. *)
Lemma Fill_after_Filter (db : Database) (im : InclusionMask)
    (validEmployers validJobTitles validYears : list bool) (inclusion : list bool) :
  Filter db validEmployers validJobTitles validYears = Some inclusion →
  ((length (Employees db) + 7) / 8 ≤ length (Mask im))%nat →
  0 ≤ Count im < 2 ^ 64 →
  ∃ im',
    Fill im inclusion = Some im'
    ∧ (∀ r e, Employees db !! r = Some e →
         IsIncluded im' r
         = Filter_valid validEmployers validJobTitles validYears e)
    ∧ Count im' = wrap 64 (Count im + Z.of_nat (population db im')).
Proof.
  intros Hfilter Hlen Hcount. apply mapM_Some_1 in Hfilter.
  pose proof (Forall2_length _ _ _ Hfilter) as Hn.
  destruct (Fill_spec im inclusion) as (im' & Hfill & Hlen' & Hc & Hbits);
    [by rewrite <- Hn|done|].
  exists im'. split; [done|]. split.
  - intros r e He.
    destruct (Forall2_lookup_l _ _ _ _ _ Hfilter He) as (b & Hb & ->).
    by apply Hbits.
  - rewrite Hc. do 2 f_equal. unfold count_true, population. f_equal.
    rewrite Hn. apply (count_true_filter (included im') inclusion 0).
    intros r x Hx. cbn. apply Hbits in Hx as Hinc.
    rewrite IsIncluded_included in Hinc; [by injection Hinc|].
    apply lookup_lt_Some in Hx. lia.
Qed.

(** ** Two implementations of [sort.Slice]'s contract *)

Lemma by_distance_le (a b : neighbor_distance) :
  by_distance a b ↔ distance a ≤ distance b.
Proof. unfold by_distance, distance_less. rewrite Z.ltb_ge. done. Qed.

Lemma insert_stable_perm (x : neighbor_distance) (l : list neighbor_distance) :
  Permutation (insert_stable x l) (x :: l).
Proof.
  induction l as [|y l IH]; cbn; [done|].
  destruct (distance_less y x); [|done].
  rewrite IH. apply perm_swap.
Qed.

Lemma insert_after_equal_perm (x : neighbor_distance) (l : list neighbor_distance) :
  Permutation (insert_after_equal x l) (x :: l).
Proof.
  induction l as [|y l IH]; cbn; [done|].
  destruct (distance_less x y); [done|].
  rewrite IH. apply perm_swap.
Qed.

Lemma insert_stable_sorted (x : neighbor_distance) (l : list neighbor_distance) :
  StronglySorted by_distance l → StronglySorted by_distance (insert_stable x l).
Proof.
  induction 1 as [|y l Hs IH Hall]; cbn.
  - repeat constructor.
  - destruct (distance_less y x) eqn:Hyx.
    + constructor; [done|].
      rewrite Forall_forall. intros z Hz.
      apply list_elem_of_In, (Permutation_in _ (insert_stable_perm x l)) in Hz.
      destruct Hz as [<-|Hz].
      * apply by_distance_le. unfold distance_less in Hyx. lia.
      * rewrite Forall_forall in Hall. by apply Hall, list_elem_of_In.
    + constructor; [by constructor|].
      constructor; [done|].
      eapply Forall_impl; [exact Hall|]. intros z Hz.
      apply by_distance_le. apply by_distance_le in Hz.
      unfold distance_less in Hyx. lia.
Qed.

Lemma insert_after_equal_sorted (x : neighbor_distance) (l : list neighbor_distance) :
  StronglySorted by_distance l → StronglySorted by_distance (insert_after_equal x l).
Proof.
  induction 1 as [|y l Hs IH Hall]; cbn.
  - repeat constructor.
  - destruct (distance_less x y) eqn:Hxy.
    + constructor; [by constructor|].
      constructor.
      * apply by_distance_le. unfold distance_less in Hxy. lia.
      * eapply Forall_impl; [exact Hall|]. intros z Hz.
        apply by_distance_le. apply by_distance_le in Hz.
        unfold distance_less in Hxy. lia.
    + constructor; [done|].
      rewrite Forall_forall. intros z Hz.
      apply list_elem_of_In, (Permutation_in _ (insert_after_equal_perm x l)) in Hz.
      destruct Hz as [<-|Hz].
      * done.
      * rewrite Forall_forall in Hall. by apply Hall, list_elem_of_In.
Qed.

#[export] Program Instance insertion_sort_Slice : SortSlice :=
  {| sort_Slice := insertion_sort |}.
Next Obligation.
  intros l. induction l as [|x l IH]; cbn; [done|].
  rewrite insert_stable_perm. by constructor.
Qed.
Next Obligation.
  intros l. induction l as [|x l IH]; cbn; [constructor|].
  by apply insert_stable_sorted.
Qed.

Program Definition reversing_sort_Slice : SortSlice :=
  {| sort_Slice := reversing_sort |}.
Next Obligation.
  intros l. induction l as [|x l IH]; cbn; [done|].
  rewrite insert_after_equal_perm. by constructor.
Qed.
Next Obligation.
  intros l. induction l as [|x l IH]; cbn; [constructor|].
  by apply insert_after_equal_sorted.
Qed.

(** ** The neighbour index *)

Lemma mapM_total {A B} (f : A → option B) (g : A → B) (l : list A) :
  (∀ x, x ∈ l → f x = Some (g x)) → mapM f l = Some (g <$> l).
Proof.
  intros Hf. apply mapM_Some. induction l as [|x l IH]; cbn; constructor.
  - apply Hf. by left.
  - apply IH. intros y Hy. apply Hf. by right.
Qed.

Lemma distances_from_entries (db : Database) (i : nat) :
  (i < length (Employees db))%nat → distances_from db i = Some (entries db i).
Proof.
  intros Hi. apply mapM_total. intros j Hj.
  apply elem_of_seq in Hj. unfold dist.
  destruct (i =? j)%nat; [done|].
  destruct (lookup_lt_is_Some_2 (Employees db) i Hi) as [ei ->].
  destruct (lookup_lt_is_Some_2 (Employees db) j) as [ej ->]; [lia|done].
Qed.

Lemma copy_neighbors_spec (i : nat) (distances : list neighbor_distance) :
  ∀ (next : nat) (row : list nat),
    (next + length (others i distances) ≤ length row)%nat →
    copy_neighbors i distances next row =
      Some (take next row ++ others i distances
              ++ drop (next + length (others i distances)) row).
Proof.
  unfold others.
  induction distances as [|d ds IH]; intros next row Hlen; cbn [copy_neighbors].
  - cbn. by rewrite Nat.add_0_r, take_drop.
  - rewrite filter_cons. destruct (Nat.eqb_spec (target d) i) as [Heq|Hne].
    + rewrite decide_False by naive_solver.
      rewrite filter_cons, decide_False in Hlen by naive_solver. by apply IH.
    + rewrite decide_True by done.
      rewrite filter_cons, decide_True in Hlen by done. cbn in Hlen |- *.
      rewrite store_Some by lia. rewrite IH by (rewrite length_insert; lia).
      f_equal. replace (next + 1)%nat with (S next) by lia.
      rewrite (take_S_r _ _ (target d)) by (apply list_lookup_insert_eq; lia).
      rewrite take_insert_ge by lia.
      rewrite drop_insert_lt by lia. rewrite <- app_assoc. cbn.
      by rewrite Nat.add_succ_r.
Qed.

Lemma length_filter_seq_ne (n i : nat) :
  length (filter (λ j, j ≠ i) (seq 0 n)) = if decide (i < n)%nat then (n - 1)%nat else n.
Proof.
  induction n as [|n IH]; [done|].
  rewrite seq_S, filter_app, length_app, IH. cbn [Nat.add].
  rewrite filter_cons, filter_nil.
  repeat case_decide; cbn [length]; lia.
Qed.

Lemma filter_fmap_target (P : nat → Prop) `{∀ j, Decision (P j)}
    (l : list neighbor_distance) :
  filter P (target <$> l) = target <$> filter (λ d, P (target d)) l.
Proof.
  induction l as [|d l IH]; [done|].
  rewrite fmap_cons, !filter_cons.
  destruct (decide (P (target d))); [rewrite fmap_cons|]; by rewrite IH.
Qed.

Lemma target_entries (db : Database) (i : nat) :
  target <$> entries db i = seq 0 (length (Employees db)).
Proof.
  unfold entries. rewrite <- list_fmap_compose.
  rewrite <- (list_fmap_id (seq _ _)) at 2. by apply list_fmap_ext.
Qed.

Section Index.
Context `{SortSlice}.

Lemma others_sorted_perm (db : Database) (i : nat) :
  others i (sort_Slice (entries db i))
    ≡ₚ filter (λ j, j ≠ i) (seq 0 (length (Employees db))).
Proof.
  assert (∀ l, others i l = filter (λ j, j ≠ i) (target <$> l)) as ->
    by (intros l; symmetry; apply filter_fmap_target).
  by rewrite (sort_Slice_perm (entries db i)), target_entries.
Qed.

Lemma neighbor_row_spec (db : Database) (i : nat) :
  (i < length (Employees db))%nat →
  neighbor_row db i = Some (others i (sort_Slice (entries db i))).
Proof.
  intros Hi. unfold neighbor_row. rewrite distances_from_entries by done.
  assert (length (others i (sort_Slice (entries db i)))
          = (length (Employees db) - 1)%nat) as Hlen.
  { rewrite others_sorted_perm, length_filter_seq_ne. by rewrite decide_True. }
  rewrite copy_neighbors_spec by (rewrite length_replicate; lia).
  rewrite Hlen. cbn [take]. rewrite drop_ge by (rewrite length_replicate; lia).
  by rewrite app_nil_r.
Qed.

Lemma precomputeDistances_spec (db : Database) :
  precomputeDistances db =
    Some ((λ i, others i (sort_Slice (entries db i)))
            <$> seq 0 (length (Employees db))).
Proof.
  apply mapM_total. intros i Hi. apply elem_of_seq in Hi.
  apply neighbor_row_spec. lia.
Qed.

End Index.

Lemma StronglySorted_sublist {A} (R : A → A → Prop) (l1 l2 : list A) :
  l1 `sublist_of` l2 → StronglySorted R l2 → StronglySorted R l1.
Proof.
  induction 1 as [|x l1 l2 Hsub IH|x l1 l2 Hsub IH]; intros Hs.
  - constructor.
  - apply StronglySorted_cons in Hs as [Hall Hs].
    apply StronglySorted_cons. split; [|by apply IH].
    rewrite Forall_forall in Hall |- *. intros y Hy.
    apply Hall. by eapply elem_of_sublist.
  - apply StronglySorted_cons in Hs as [_ Hs]. by apply IH.
Qed.

Lemma StronglySorted_fmap_inv {A B} (R : B → B → Prop) (f : A → B) (l : list A) :
  StronglySorted (λ a b, R (f a) (f b)) l → StronglySorted R (f <$> l).
Proof.
  induction 1 as [|x l Hs IH Hall]; cbn; constructor; [done|].
  by apply Forall_fmap.
Qed.

Lemma StronglySorted_impl_elem {A} (R R' : A → A → Prop) (l : list A) :
  (∀ a b, a ∈ l → b ∈ l → R a b → R' a b) →
  StronglySorted R l → StronglySorted R' l.
Proof.
  intros Himpl Hs. induction Hs as [|x l Hs IH Hall]; constructor.
  - apply IH. intros a b Ha Hb. apply Himpl; by right.
  - rewrite Forall_forall in Hall |- *. intros y Hy.
    apply Himpl; [by left|by right|by apply Hall].
Qed.

Lemma others_sorted `{SortSlice} (db : Database) (i : nat) :
  StronglySorted (nearer db i) (others i (sort_Slice (entries db i))).
Proof.
  unfold others. apply StronglySorted_fmap_inv.
  eapply StronglySorted_impl_elem;
    [|eapply StronglySorted_sublist;
      [apply sublist_filter|apply (sort_Slice_sorted (entries db i))]].
  intros a b Ha Hb Hab. unfold nearer.
  assert (∀ d, d ∈ filter (λ d, target d ≠ i) (sort_Slice (entries db i)) →
               distance d = dist db i (target d)) as Hd.
  { intros d Hin. apply list_elem_of_filter in Hin as [Hne Hin].
    rewrite (sort_Slice_perm (entries db i)) in Hin.
    apply list_elem_of_fmap in Hin as (j & -> & _). cbn in *.
    destruct (Nat.eqb_spec i j); [congruence|done]. }
  rewrite <- !Hd by done. by apply by_distance_le.
Qed.

Lemma NewKnn_index `{SortSlice} (db : Database) :
  ∃ knn, NewKnn db = Some knn ∧ index_of db knn.
Proof.
  unfold NewKnn. rewrite precomputeDistances_spec. eexists. split; [done|].
  split; [done|]. cbn. split; [by rewrite length_fmap, length_seq|].
  intros i Hi. eexists. split.
  - rewrite list_lookup_fmap, lookup_seq_lt by done. done.
  - split; [apply others_sorted_perm|apply others_sorted].
Qed.

(** ** [KNearest] *)

Lemma KNearest_loop_spec (im : InclusionMask) (row : list nat) :
  ∀ (out : list nat) (validNeighbors : nat),
    Forall (in_mask_range im) row →
    (validNeighbors < length out)%nat →
    let found := nearest im row (length out - validNeighbors) in
    KNearest_loop im row out validNeighbors =
      Some (take validNeighbors out ++ found
              ++ drop (validNeighbors + length found) out,
            (validNeighbors + length found)%nat).
Proof.
  unfold nearest.
  induction row as [|j row IH]; intros out v Hrange Hv; cbn [KNearest_loop].
  - rewrite filter_nil, take_nil. cbn. by rewrite Nat.add_0_r, take_drop.
  - apply Forall_cons in Hrange as [Hj Hrange].
    rewrite IsIncluded_included by done. rewrite filter_cons.
    destruct (included im j) eqn:Hinc; cbn [negb].
    + rewrite decide_True by done. rewrite store_Some by done.
      destruct (length out - v)%nat as [|k] eqn:Hk; [lia|]. cbn [take length].
      destruct (Nat.leb_spec (length out) (v + 1)) as [Hfull|Hmore].
      * assert (k = 0)%nat as -> by lia. rewrite take_0. cbn.
        rewrite insert_take_drop by done.
        by replace (v + 1)%nat with (S v) by lia.
      * rewrite IH; [|done|rewrite length_insert; lia].
        rewrite length_insert. replace (length out - (v + 1))%nat with k by lia.
        replace (v + 1)%nat with (S v) by lia.
        rewrite (take_S_r _ _ j) by (by apply list_lookup_insert_eq).
        rewrite take_insert_ge, drop_insert_lt by lia.
        rewrite <- app_assoc. cbn.
        by rewrite !Nat.add_succ_r.
    + rewrite decide_False by done. by apply IH.
Qed.

(** With an empty buffer the first included neighbour is written out of
    range. *)
Lemma KNearest_loop_empty (im : InclusionMask) (row : list nat) :
  Forall (in_mask_range im) row →
  KNearest_loop im row [] 0 =
    if decide (filter (λ j, included im j = true) row = []) then Some ([], 0%nat)
    else None.
Proof.
  induction row as [|j row IH]; intros Hrange; cbn [KNearest_loop]; [done|].
  apply Forall_cons in Hrange as [Hj Hrange].
  rewrite IsIncluded_included by done. rewrite filter_cons.
  destruct (included im j) eqn:Hinc; cbn [negb].
  - rewrite (decide_True (P:=true = true)) by done. unfold store. cbn [length].
    rewrite (decide_False (P:=(0 < 0)%nat)) by lia. by rewrite decide_False.
  - rewrite (decide_False (P:=false = true)) by done. by apply IH.
Qed.

Lemma index_row_range (db : Database) (i : nat) (row : list nat) (im : InclusionMask) :
  ((length (Employees db) + 7) / 8 ≤ length (Mask im))%nat →
  row ≡ₚ filter (λ j, j ≠ i) (seq 0 (length (Employees db))) →
  Forall (λ j, (j < length (Employees db))%nat ∧ j ≠ i ∧ in_mask_range im j) row.
Proof.
  intros Hlen Hperm. rewrite Forall_forall. intros j Hj.
  rewrite Hperm in Hj. apply list_elem_of_filter in Hj as [Hne Hj].
  apply elem_of_seq in Hj. unfold in_mask_range. repeat split; [lia|done|lia].
Qed.

Lemma nearest_in_row (db : Database) (im : InclusionMask) (i k : nat) (row : list nat) :
  ((length (Employees db) + 7) / 8 ≤ length (Mask im))%nat →
  row ≡ₚ filter (λ j, j ≠ i) (seq 0 (length (Employees db))) →
  StronglySorted (nearer db i) row →
  (∀ j, j ∈ nearest im row k →
     (j < length (Employees db))%nat ∧ j ≠ i ∧ IsIncluded im j = Some true)
  ∧ StronglySorted (nearer db i) (nearest im row k)
  ∧ NoDup (nearest im row k)
  ∧ length (nearest im row k) = (k `min` length (included_others db im i))%nat.
Proof.
  intros Hlen Hperm Hsorted.
  pose proof (index_row_range db i row im Hlen Hperm) as Hrange.
  assert (nearest im row k `sublist_of` row) as Hsub.
  { unfold nearest. etrans; [apply sublist_take|apply sublist_filter]. }
  split; [|split; [|split]].
  - intros j Hj. rewrite Forall_forall in Hrange.
    destruct (Hrange j) as (Hn & Hne & Hr); [by eapply elem_of_sublist|].
    split; [done|]. split; [done|]. rewrite IsIncluded_included by done.
    unfold nearest in Hj. apply elem_of_take in Hj as (p & Hp & _).
    apply list_elem_of_lookup_2, list_elem_of_filter in Hp as [-> _]. done.
  - by apply (StronglySorted_sublist _ _ row).
  - eapply sublist_NoDup; [|exact Hsub]. rewrite Hperm.
    apply NoDup_filter, NoDup_seq.
  - unfold nearest, included_others. rewrite length_take. f_equal.
    rewrite Hperm, list_filter_filter. done.
Qed.

(** C5, as amended: for a buffer with at least one slot, [KNearest] returns
    [count ≤ len(out)] records in the first [count] slots of [out]: all of
    them included by the mask and other than [i], nearest to [i] first, no
    record twice; there are fewer than [len(out)] of them only when the mask
    includes fewer than [len(out)] records other than [i]. *)
Theorem KNearest_spec `{SortSlice} (db : Database) (knn : Knn) (im : InclusionMask)
    (i : nat) (out : list nat) :
  NewKnn db = Some knn →
  length (Mask im) = ((length (Employees db) + 7) / 8)%nat →
  (i < length (Employees db))%nat →
  (1 ≤ length out)%nat →
  ∃ out' count,
    KNearest knn im i out = Some (out', count)
    ∧ length out' = length out
    ∧ (count ≤ length out)%nat
    ∧ (∀ j, j ∈ take count out' → IsIncluded im j = Some true ∧ j ≠ i)
    ∧ StronglySorted (nearer db i) (take count out')
    ∧ NoDup (take count out')
    ∧ count = (length out `min` length (included_others db im i))%nat
    ∧ ((count < length out)%nat →
       (length (included_others db im i) < length out)%nat).
Proof.
  intros Hknn Hmask Hi Hout.
  destruct (NewKnn_index db) as (knn' & Hknn' & _ & _ & Hrows).
  rewrite Hknn in Hknn'. injection Hknn' as <-.
  destruct (Hrows i Hi) as (row & Hrow & Hperm & Hsorted).
  assert ((length (Employees db) + 7) / 8 ≤ length (Mask im))%nat as Hlen by lia.
  pose proof (index_row_range db i row im Hlen Hperm) as Hrange.
  destruct (nearest_in_row db im i (length out) row Hlen Hperm Hsorted)
    as (Hin & Hsort & Hnodup & Hcount).
  unfold KNearest. rewrite Hrow.
  rewrite KNearest_loop_spec;
    [|eapply Forall_impl; [exact Hrange|by intros j (_ & _ & Hj)]|lia].
  cbn [take Nat.add]. rewrite Nat.sub_0_r.
  set (found := nearest im row (length out)) in *.
  assert (length found ≤ length out)%nat as Hle by lia.
  eexists _, _. split; [done|].
  rewrite take_0, app_nil_l, take_app_length.
  split; [rewrite length_app, length_drop; lia|].
  split; [done|]. split; [intros j Hj; by destruct (Hin j Hj) as (_ & ? & ?)|].
  split; [done|]. split; [done|]. split; [done|]. lia.
Qed.


(** ** The index on concrete inputs *)

Lemma NewKnn_db4 : NewKnn db4 = Some knn4.
Proof. reflexivity. Qed.

Lemma KNearest_spec_witness :
  ∃ out' count,
    KNearest knn4 mask4_all 0 [0; 0]%nat = Some (out', count)
    ∧ length out' = 2%nat
    ∧ (count ≤ 2)%nat
    ∧ (∀ j, j ∈ take count out' → IsIncluded mask4_all j = Some true ∧ j ≠ 0%nat)
    ∧ StronglySorted (nearer db4 0) (take count out')
    ∧ NoDup (take count out')
    ∧ count = (2 `min` length (included_others db4 mask4_all 0))%nat
    ∧ ((count < 2)%nat → (length (included_others db4 mask4_all 0) < 2)%nat).
Proof.
  apply (KNearest_spec db4 knn4 mask4_all 0 [0; 0]%nat);
    [reflexivity|reflexivity|vm_compute; lia|vm_compute; lia].
Defined.

(** Without ties the contract of [sort.Slice] fixes the result: every sort
    builds the same index as insertion sort. *)
Lemma NoDup_fmap_elem_inj {A B} (f : A → B) (l : list A) (x y : A) :
  NoDup (f <$> l) → x ∈ l → y ∈ l → f x = f y → x = y.
Proof.
  induction l as [|a l IH]; intros Hnd Hx Hy Hxy; [by apply elem_of_nil in Hx|].
  rewrite fmap_cons in Hnd. apply NoDup_cons in Hnd as [Ha Hnd].
  apply elem_of_cons in Hx as [->|Hx], Hy as [->|Hy].
  - done.
  - destruct Ha. rewrite Hxy. by apply list_elem_of_fmap_2.
  - destruct Ha. rewrite <- Hxy. by apply list_elem_of_fmap_2.
  - by apply IH.
Qed.

Lemma sort_Slice_tie_free `{SortSlice} (l : list neighbor_distance) :
  NoDup (distance <$> l) → sort_Slice l = insertion_sort l.
Proof.
  intros Hnd. apply (StronglySorted_unique_strong by_distance).
  - intros x1 x2 Hx1 Hx2 H12 H21.
    rewrite (sort_Slice_perm l) in Hx1.
    rewrite (@sort_Slice_perm insertion_sort_Slice l) in Hx2.
    apply by_distance_le in H12, H21.
    apply (NoDup_fmap_elem_inj distance l); [done..|lia].
  - apply sort_Slice_sorted.
  - apply (@sort_Slice_sorted insertion_sort_Slice).
  - rewrite (sort_Slice_perm l).
    symmetry. apply (@sort_Slice_perm insertion_sort_Slice).
Qed.

Lemma NewKnn_tie_free `{SortSlice} (db : Database) :
  (∀ i, (i < length (Employees db))%nat → NoDup (distance <$> entries db i)) →
  NewKnn db = @NewKnn insertion_sort_Slice db.
Proof.
  intros Hfree. unfold NewKnn.
  rewrite precomputeDistances_spec, (@precomputeDistances_spec insertion_sort_Slice).
  do 2 f_equal. apply list_fmap_ext_elem. intros i Hi%elem_of_seq.
  cbn. rewrite sort_Slice_tie_free; [done|]. apply Hfree. lia.
Qed.

Lemma NewKnn_db4_any_sort `{SortSlice} : NewKnn db4 = Some knn4.
Proof.
  rewrite NewKnn_tie_free; [reflexivity|]. intros i Hi.
  do 4 (destruct i as [|i];
        [refine (bool_decide_unpack _ _); vm_compute; exact I|]).
  vm_compute in Hi. lia.
Qed.

Lemma NewKnn_db6_any_sort `{SortSlice} : NewKnn db6 = Some knn6.
Proof.
  rewrite NewKnn_tie_free; [reflexivity|]. intros i Hi.
  do 4 (destruct i as [|i];
        [refine (bool_decide_unpack _ _); vm_compute; exact I|]).
  vm_compute in Hi. lia.
Qed.

(** C5 as stated fails for a buffer without a slot: the first included
    neighbour is written to [out[0]], which is out of range. *)
Lemma KNearest_empty_buffer_panics :
  NewKnn db4 = Some knn4
  ∧ IsIncluded mask4_all 3 = Some true
  ∧ KNearest knn4 mask4_all 0 [] = None.
Proof. repeat split; reflexivity. Qed.


(** ** The three passes of the scorer *)

(** A loop over a range keeps an invariant [P i] of the state before
    iteration [i]. *)
Lemma for_range_invariant {S} (P : nat → S → Prop) (body : nat → S → option S)
    (len : nat) :
  ∀ (a : nat) (s : S),
    P a s →
    (∀ i s, (a ≤ i < a + len)%nat → P i s →
       ∃ s', body i s = Some s' ∧ P (Datatypes.S i) s') →
    ∃ s', for_range body (seq a len) s = Some s' ∧ P (a + len)%nat s'.
Proof.
  induction len as [|len IH]; intros a s Hs Hbody; cbn [seq for_range].
  - exists s. by rewrite Nat.add_0_r.
  - destruct (Hbody a s) as (s1 & -> & Hs1); [lia|done|].
    destruct (IH (Datatypes.S a) s1 Hs1) as (s' & Hrun & Hs').
    { intros i s2 Hi. apply Hbody. lia. }
    exists s'. split; [done|]. by replace (a + Datatypes.S len)%nat
      with (Datatypes.S a + len)%nat by lia.
Qed.

Lemma imap_below_skip {A} (g : nat → A → A) (p : nat → bool) (m : nat) (l : list A) :
  p m = false →
  imap (λ i old, if below p m i then g i old else old) l
  = imap (λ i old, if below p (S m) i then g i old else old) l.
Proof.
  intros Hp. apply imap_ext. intros i x _. unfold below.
  destruct (Nat.eq_dec i m) as [->|Hne]; [by rewrite Hp|].
  replace (i <? S m)%nat with (i <? m)%nat; [done|].
  destruct (Nat.ltb_spec i m), (Nat.ltb_spec i (S m)); (done || lia).
Qed.

Lemma imap_below_step {A} (g : nat → A → A) (p : nat → bool) (m : nat) (l : list A)
    (x : A) :
  p m = true →
  l !! m = Some x →
  <[m:=g m x]> (imap (λ i old, if below p m i then g i old else old) l)
  = imap (λ i old, if below p (S m) i then g i old else old) l.
Proof.
  intros Hp Hx. apply list_eq. intros i.
  destruct (Nat.eq_dec i m) as [->|Hne].
  - rewrite list_lookup_insert_eq
      by (rewrite length_imap; by eapply lookup_lt_Some).
    rewrite list_lookup_imap, Hx. cbn. unfold below. rewrite Hp.
    by destruct (Nat.ltb_spec m (S m)); [|lia].
  - rewrite list_lookup_insert_ne by done. rewrite !list_lookup_imap.
    destruct (l !! i) as [y|]; [|done]. cbn. unfold below.
    replace (i <? S m)%nat with (i <? m)%nat; [done|].
    destruct (Nat.ltb_spec i m), (Nat.ltb_spec i (S m)); (done || lia).
Qed.

Lemma imap_below_0 {A} (g : nat → A → A) (p : nat → bool) (l : list A) :
  imap (λ i old, if below p 0 i then g i old else old) l = l.
Proof.
  apply list_eq. intros i. rewrite list_lookup_imap.
  destruct (l !! i); [|done]. cbn. unfold below. by rewrite andb_false_r.
Qed.

Lemma imap_below_all {A} (g : nat → A → A) (p : nat → bool) (l : list A) :
  imap (λ i old, if below p (length l) i then g i old else old) l
  = imap (λ i old, if p i then g i old else old) l.
Proof.
  apply imap_ext. intros i x Hi. unfold below.
  apply lookup_lt_Some in Hi.
  destruct (Nat.ltb_spec i (length l)); [|lia]. by rewrite andb_true_r.
Qed.

Lemma imap_lookup_below_self {A} (g : nat → A → A) (p : nat → bool) (m : nat)
    (l : list A) :
  imap (λ i old, if below p m i then g i old else old) l !! m = l !! m.
Proof.
  rewrite list_lookup_imap. destruct (l !! m); [|done]. cbn. unfold below.
  rewrite Nat.ltb_irrefl. by rewrite andb_false_r.
Qed.

Section PassProofs.
Context {F : Type} `{FloatOps F}.
Variables (db : Database) (knn : Knn) (lof : Lof F) (im : InclusionMask).
Hypothesis Hindex : index_of db knn.
Hypothesis Hdb : Lof_Db lof = db.
Hypothesis Hknn : Neighbors lof = knn.
Hypothesis Hmask : ((length (Employees db) + 7) / 8 ≤ length (Mask im))%nat.

Lemma row_of_index (i : nat) :
  (i < length (Employees db))%nat →
  NearestNeighbors knn !! i = Some (row_of knn i)
  ∧ row_of knn i ≡ₚ filter (λ j, j ≠ i) (seq 0 (length (Employees db)))
  ∧ StronglySorted (nearer db i) (row_of knn i).
Proof.
  intros Hi. destruct Hindex as (_ & _ & Hrows).
  destruct (Hrows i Hi) as (row & Hrow & Hperm & Hsorted).
  unfold row_of. rewrite Hrow. done.
Qed.

Lemma included_in_range (i : nat) :
  (i < length (Employees db))%nat → IsIncluded im i = Some (included im i).
Proof. intros Hi. apply IsIncluded_included. lia. Qed.

Lemma KNearest_nearest (i : nat) (out : list nat) :
  (i < length (Employees db))%nat →
  (1 ≤ length out)%nat →
  let found := nearest im (row_of knn i) (length out) in
  KNearest knn im i out = Some (found ++ drop (length found) out, length found).
Proof.
  intros Hi Hout. destruct (row_of_index i Hi) as (Hrow & Hperm & Hsorted).
  unfold KNearest. rewrite Hrow.
  rewrite KNearest_loop_spec; [|by eapply Forall_impl;
    [apply (index_row_range db i _ im Hmask Hperm)|intros j (_ & _ & Hj)]|lia].
  cbn zeta. by rewrite take_0, Nat.sub_0_r.
Qed.

Lemma nearest_below_n (i k j : nat) :
  (i < length (Employees db))%nat →
  j ∈ nearest im (row_of knn i) k →
  (j < length (Employees db))%nat ∧ j ≠ i ∧ included im j = true.
Proof.
  intros Hi Hj. destruct (row_of_index i Hi) as (Hrow & Hperm & Hsorted).
  destruct (nearest_in_row db im i k _ Hmask Hperm Hsorted) as (Hin & _).
  destruct (Hin j Hj) as (Hn & Hne & Hinc). split; [done|]. split; [done|].
  rewrite included_in_range in Hinc by done. congruence.
Qed.

(** Iteration [m] of the first pass. *)
Lemma computeCoreDistances_body_spec (cache0 : LofCache F) (m : nat) :
  cache_sized (length (Employees db)) cache0 →
  (m < length (Employees db))%nat →
  (included im m = true →
     (1 ≤ length (buffer cache0 m))%nat ∧ neighborhood_of knn im cache0 m ≠ []) →
  computeCoreDistances_body lof im m
    (core_update db knn im (below (included im) m) cache0)
  = Some (core_update db knn im (below (included im) (S m)) cache0).
Proof.
  intros (Hn1 & Hn2 & Hn3) Hm Hready. unfold computeCoreDistances_body.
  rewrite included_in_range by done.
  destruct (included im m) eqn:Hinc; cbn [negb].
  - destruct Hready as [Hslot Hfound]; [done|].
    unfold neighborhood_of, buffer in Hslot, Hfound.
    destruct (lookup_lt_is_Some_2 (Neighborhoods cache0) m) as [old Hold]; [lia|].
    destruct (lookup_lt_is_Some_2 (CoreDistance cache0) m) as [oldc Holdc]; [lia|].
    rewrite Hold in Hslot, Hfound. cbn in Hslot, Hfound.
    cbn [core_update Neighborhoods CoreDistance LocalReachabilityDensities].
    rewrite imap_lookup_below_self, Hold, Hknn.
    rewrite KNearest_nearest by done. cbn zeta.
    set (found := nearest im (row_of knn m) (length old)) in *.
    rewrite take_app_length.
    rewrite store_Some by (rewrite length_imap; lia).
    destruct (Nat.eqb_spec (length found) 0) as [Hz|Hnz];
      [by apply nil_length_inv in Hz|].
    replace (length found - 1)%nat with (pred (length found)) by lia.
    rewrite <- last_lookup.
    destruct (last found) as [furthest|] eqn:Hlast;
      [|by apply last_None in Hlast].
    assert (furthest ∈ found) as Hin by (by apply last_Some_elem_of).
    apply nearest_below_n in Hin as (Hf & _); [|done].
    rewrite Hdb.
    destruct (lookup_lt_is_Some_2 (Employees db) m Hm) as [em Hem].
    destruct (lookup_lt_is_Some_2 (Employees db) furthest Hf) as [ef Hef].
    rewrite Hem, Hef. rewrite store_Some by (rewrite length_imap; lia).
    f_equal. unfold core_update. f_equal.
    + by apply (imap_below_step (λ i old, nearest im (row_of knn i) (length old))).
    + rewrite <- (imap_below_step
        (λ i _, core_distance_of db i (neighborhood_of knn im cache0 i))
        _ _ _ oldc) by done.
      f_equal. unfold core_distance_of, neighborhood_of, buffer.
      rewrite Hold. cbn [default from_option id]. fold found.
      rewrite Hlast. unfold dist.
      by rewrite Hem, Hef.
  - f_equal. unfold core_update. f_equal; by apply imap_below_skip.
Qed.

Lemma core_update_0 (cache0 : LofCache F) :
  core_update db knn im (below (included im) 0) cache0 = cache0.
Proof.
  destruct cache0 as [nbh cd lrd]. unfold core_update. cbn.
  f_equal; apply imap_below_0.
Qed.

Lemma core_update_all (cache0 : LofCache F) :
  cache_sized (length (Employees db)) cache0 →
  core_update db knn im (below (included im) (length (Employees db))) cache0
  = core_update db knn im (included im) cache0.
Proof.
  intros (Hn1 & Hn2 & Hn3).
  pose proof (imap_below_all (λ i old, nearest im (row_of knn i) (length old))
                (included im) (Neighborhoods cache0)) as E1.
  pose proof (imap_below_all
                (λ i _, core_distance_of db i (neighborhood_of knn im cache0 i))
                (included im) (CoreDistance cache0)) as E2.
  rewrite Hn1 in E1. rewrite Hn2 in E2. unfold core_update. by rewrite E1, E2.
Qed.

Lemma computeCoreDistances_spec (cache0 : LofCache F) :
  cache_sized (length (Employees db)) cache0 →
  ready db knn im cache0 →
  computeCoreDistances lof cache0 im
  = Some (core_update db knn im (included im) cache0).
Proof.
  intros Hsized Hready. unfold computeCoreDistances.
  destruct Hsized as (Hn1 & Hn2 & Hn3). rewrite Hn2.
  destruct (for_range_invariant
    (λ m c, c = core_update db knn im (below (included im) m) cache0)
    (computeCoreDistances_body lof im) (length (Employees db)) 0 cache0)
    as (c & -> & ->).
  - by rewrite core_update_0.
  - intros m c Hm ->. eexists. split; [|done].
    apply computeCoreDistances_body_spec; [done|lia|]. apply Hready. lia.
  - by rewrite core_update_all.
Qed.

Lemma reachability_sum_spec (cache : LofCache F) (i : nat) (neighborhood : list nat) :
  ∀ sum,
    (i < length (Employees db))%nat →
    length (CoreDistance cache) = length (Employees db) →
    Forall (λ j, (j < length (Employees db))%nat) neighborhood →
    reachability_sum lof cache i neighborhood sum
    = Some (fold_left f_add (reachability db cache i <$> neighborhood) sum).
Proof.
  clear Hindex Hknn Hmask.
  induction neighborhood as [|j more IH]; intros sum Hi Hcd Hall; [done|].
  apply Forall_cons in Hall as [Hj Hall]. cbn [reachability_sum]. rewrite Hdb.
  destruct (lookup_lt_is_Some_2 (Employees db) i Hi) as [ei Hei].
  destruct (lookup_lt_is_Some_2 (Employees db) j Hj) as [ej Hej].
  destruct (lookup_lt_is_Some_2 (CoreDistance cache) j) as [cd Hcdj]; [lia|].
  rewrite Hei, Hej, Hcdj. rewrite IH by done. cbn. do 3 f_equal.
  unfold reachability, coreDistance_of, dist. rewrite Hei, Hej, Hcdj. cbn.
  f_equal. destruct (Z.ltb_spec (Distance ej ei) cd); lia.
Qed.

(** Iteration [m] of the second pass. *)
Lemma computeLrds_body_spec (cache1 : LofCache F) (m : nat) :
  cache_sized (length (Employees db)) cache1 →
  neighbors_valid db im cache1 →
  (m < length (Employees db))%nat →
  computeLrds_body lof im m (lrd_update db (below (included im) m) cache1)
  = Some (lrd_update db (below (included im) (S m)) cache1).
Proof.
  intros (Hn1 & Hn2 & Hn3) Hvalid Hm. unfold computeLrds_body.
  rewrite included_in_range by done.
  destruct (included im m) eqn:Hinc; cbn [negb].
  - destruct (lookup_lt_is_Some_2 (Neighborhoods cache1) m) as [nbh Hnbh]; [lia|].
    destruct (lookup_lt_is_Some_2 (LocalReachabilityDensities cache1) m)
      as [old Hold]; [lia|].
    specialize (Hvalid m Hm Hinc). unfold buffer in Hvalid.
    rewrite Hnbh in Hvalid. cbn in Hvalid.
    cbn [lrd_update Neighborhoods CoreDistance LocalReachabilityDensities].
    rewrite Hnbh. rewrite reachability_sum_spec by done.
    rewrite store_Some by (rewrite length_imap; lia).
    f_equal. unfold lrd_update. f_equal.
    rewrite <- (imap_below_step (λ i _, lrd_of db cache1 i) _ _ _ old) by done.
    f_equal. unfold lrd_of, buffer, f_sum. by rewrite Hnbh.
  - f_equal. unfold lrd_update. f_equal. by apply imap_below_skip.
Qed.

Lemma computeLrds_spec (cache1 : LofCache F) :
  cache_sized (length (Employees db)) cache1 →
  neighbors_valid db im cache1 →
  computeLrds lof cache1 im = Some (lrd_update db (included im) cache1).
Proof.
  intros Hsized Hvalid. unfold computeLrds.
  pose proof Hsized as (Hn1 & Hn2 & Hn3). rewrite Hn3.
  destruct (for_range_invariant
    (λ m c, c = lrd_update db (below (included im) m) cache1)
    (computeLrds_body lof im) (length (Employees db)) 0 cache1)
    as (c & -> & ->).
  - destruct cache1 as [nbh cd lrd]. unfold lrd_update. cbn.
    f_equal. symmetry. apply imap_below_0.
  - intros m c Hm ->. eexists. split; [|done].
    apply computeLrds_body_spec; [done|done|lia].
  - f_equal. unfold lrd_update. f_equal.
    pose proof (imap_below_all (λ i _, lrd_of db cache1 i) (included im)
                  (LocalReachabilityDensities cache1)) as E.
    by rewrite Hn3 in E.
Qed.

Lemma density_sum_spec (cache : LofCache F) (neighborhood : list nat) :
  ∀ sum,
    Forall (λ j, (j < length (LocalReachabilityDensities cache))%nat) neighborhood →
    density_sum cache neighborhood sum
    = Some (fold_left f_add (lrd_in cache <$> neighborhood) sum).
Proof.
  induction neighborhood as [|j more IH]; intros sum Hall; [done|].
  apply Forall_cons in Hall as [Hj Hall]. cbn [density_sum].
  destruct (lookup_lt_is_Some_2 _ j Hj) as [lrd Hlrd].
  assert (lrd_in cache j = lrd) as Hin by (unfold lrd_in; by rewrite Hlrd).
  rewrite Hlrd, IH by done. rewrite fmap_cons. cbn [fold_left]. by rewrite Hin.
Qed.

Lemma lof_score_spec (cache : LofCache F) (i : nat) :
  cache_sized (length (Employees db)) cache →
  (i < length (Employees db))%nat →
  Forall (λ j, (j < length (Employees db))%nat) (buffer cache i) →
  lof_score cache i = Some (score_of cache i).
Proof.
  clear Hindex Hdb Hknn Hmask. intros (Hn1 & Hn2 & Hn3) Hi Hall. unfold lof_score, score_of.
  unfold buffer in *.
  destruct (lookup_lt_is_Some_2 (Neighborhoods cache) i) as [nbh Hnbh]; [lia|].
  rewrite Hnbh in *. cbn in Hall. cbn [default from_option id].
  rewrite density_sum_spec by (by rewrite Hn3).
  destruct (lookup_lt_is_Some_2 (LocalReachabilityDensities cache) i)
    as [lrd Hlrd]; [lia|].
  assert (lrd_in cache i = lrd) as Hin by (unfold lrd_in; by rewrite Hlrd).
  by rewrite Hlrd, Hin.
Qed.

(** The third pass calls the handler on the reported records in turn, and
    stops when the handler says so. *)
Lemma computeLofs_loop_spec {V} (cache : LofCache F)
    (outlierHandler : OutlierHandler V) (indices : list nat) :
  ∀ v,
    cache_sized (length (Employees db)) cache →
    neighbors_valid db im cache →
    Forall (λ i, (i < length (Employees db))%nat) indices →
    computeLofs_loop lof cache im outlierHandler indices v
    = Some (visit outlierHandler (reported lof cache im indices) v).
Proof.
  induction indices as [|i more IH]; intros v Hsized Hvalid Hall; [done|].
  apply Forall_cons in Hall as [Hi Hall]. cbn [computeLofs_loop].
  rewrite included_in_range by done. unfold reported. cbn [List.filter].
  destruct (included im i) eqn:Hinc; cbn [negb andb].
  - rewrite lof_score_spec by (done || by apply Hvalid).
    destruct (f_ge (score_of cache i) (Threshold lof)).
    + rewrite Hdb.
      destruct (lookup_lt_is_Some_2 (Employees db) i Hi) as [ei ->].
      cbn [fmap list_fmap visit].
      destruct (outlierHandler i (score_of cache i) v) as [[|] v']; cbn [negb].
      * by apply IH.
      * done.
    + by apply IH.
  - by apply IH.
Qed.

Lemma core_update_sized (p : nat → bool) (cache0 : LofCache F) (n : nat) :
  cache_sized n cache0 → cache_sized n (core_update db knn im p cache0).
Proof.
  intros (Hn1 & Hn2 & Hn3). unfold cache_sized, core_update. cbn.
  by rewrite !length_imap.
Qed.

Lemma lrd_update_sized (p : nat → bool) (cache1 : LofCache F) (n : nat) :
  cache_sized n cache1 → cache_sized n (lrd_update db p cache1).
Proof.
  intros (Hn1 & Hn2 & Hn3). unfold cache_sized, lrd_update. cbn.
  by rewrite !length_imap.
Qed.

Lemma buffer_core_update (cache0 : LofCache F) (i : nat) :
  (i < length (Neighborhoods cache0))%nat →
  buffer (core_update db knn im (included im) cache0) i
  = if included im i then neighborhood_of knn im cache0 i else buffer cache0 i.
Proof.
  intros Hi. unfold buffer, neighborhood_of, buffer, core_update. cbn.
  rewrite list_lookup_imap.
  destruct (lookup_lt_is_Some_2 (Neighborhoods cache0) i Hi) as [old ->].
  cbn. by destruct (included im i).
Qed.

Lemma core_update_valid (cache0 : LofCache F) :
  cache_sized (length (Employees db)) cache0 →
  neighbors_valid db im (core_update db knn im (included im) cache0).
Proof.
  intros (Hn1 & Hn2 & Hn3) i Hi Hinc.
  rewrite buffer_core_update, Hinc by lia.
  rewrite Forall_forall. intros j Hj.
  by apply nearest_below_n in Hj as (? & _).
Qed.

Lemma Lof_FindOutliers_spec {V} (cache0 : LofCache F)
    (outlierHandler : OutlierHandler V) (v : V) :
  cache_sized (length (Employees db)) cache0 →
  ready db knn im cache0 →
  Lof_FindOutliers lof cache0 im outlierHandler v
  = Some (scored db knn im cache0,
          visit outlierHandler
            (reported lof (scored db knn im cache0) im (seq 0 (length (Employees db)))) v).
Proof.
  intros Hsized Hready. unfold Lof_FindOutliers, scored.
  rewrite computeCoreDistances_spec by done.
  pose proof (core_update_sized (included im) _ _ Hsized) as Hsized1.
  pose proof (core_update_valid _ Hsized) as Hvalid1.
  rewrite computeLrds_spec by done.
  pose proof (lrd_update_sized (included im) _ _ Hsized1) as Hsized2.
  unfold computeLofs. destruct Hsized2 as (Hm1 & Hm2 & Hm3). rewrite Hm3.
  rewrite computeLofs_loop_spec; [done|done|done|].
  rewrite Forall_forall. intros i Hi. apply elem_of_seq in Hi. lia.
Qed.

End PassProofs.

(** ** The claims about the scorer *)

Lemma population_split (im : InclusionMask) (i n : nat) :
  length (filter (λ j, included im j = true) (seq 0 n))
  = (length (filter (λ j, included im j = true ∧ j ≠ i) (seq 0 n))
     + if decide ((i < n)%nat ∧ included im i = true) then 1 else 0)%nat.
Proof.
  induction n as [|n IH].
  - cbn. case_decide; [lia|done].
  - rewrite seq_S, !filter_app, !length_app, IH. cbn [Nat.add].
    rewrite !filter_cons, !filter_nil.
    destruct (decide (n = i)) as [->|Hne];
      repeat case_decide; cbn [length]; lia || (exfalso; intuition lia).
Qed.

Lemma included_others_population (db : Database) (im : InclusionMask) (i : nat) :
  (i < length (Employees db))%nat →
  included im i = true →
  S (length (included_others db im i)) = population db im.
Proof.
  intros Hi Hinc. unfold population, included_others.
  rewrite (population_split im i). rewrite decide_True by done. lia.
Qed.

Section ScorerClaims.
Context `{SortSlice} {F : Type} `{FloatOps F}.
Variables (db : Database) (knn : Knn) (k : nat) (threshold : F).
Variables (cache : LofCache F) (im : InclusionMask).
Hypothesis Hknn : NewKnn db = Some knn.
Hypothesis Hsized : cache_sized (length (Employees db)) cache.
Hypothesis Hslots : Forall (λ b, (1 ≤ length b)%nat) (Neighborhoods cache).
Hypothesis Hmask : length (Mask im) = ((length (Employees db) + 7) / 8)%nat.
Hypothesis Hpop : (2 ≤ population db im)%nat.

Lemma knn_index : index_of db knn.
Proof.
  destruct (NewKnn_index db) as (knn' & Hknn' & Hindex).
  rewrite Hknn in Hknn'. by injection Hknn' as <-.
Qed.

Lemma mask_covers : ((length (Employees db) + 7) / 8 ≤ length (Mask im))%nat.
Proof. by rewrite Hmask. Qed.

Lemma buffer_slot (i : nat) :
  (i < length (Employees db))%nat → (1 ≤ length (buffer cache i))%nat.
Proof using Hsized Hslots.
  intros Hi. destruct Hsized as (Hn1 & _). unfold buffer.
  destruct (lookup_lt_is_Some_2 (Neighborhoods cache) i) as [b Hb];
    [by rewrite Hn1|].
  rewrite Hb. cbn. by apply (Forall_lookup_1 _ _ _ _ Hslots Hb).
Qed.

Lemma neighborhood_length (i : nat) :
  (i < length (Employees db))%nat →
  included im i = true →
  length (neighborhood_of knn im cache i)
  = (length (buffer cache i) `min` (population db im - 1))%nat.
Proof using Hknn Hmask.
  intros Hi Hinc. unfold neighborhood_of.
  destruct (row_of_index db knn knn_index i Hi) as (_ & Hperm & Hsorted).
  destruct (nearest_in_row db im i (length (buffer cache i)) _ mask_covers
              Hperm Hsorted) as (_ & _ & _ & ->).
  rewrite <- (included_others_population db im i) by done. f_equal.
  cbn. by rewrite Nat.sub_0_r.
Qed.

Lemma cache_ready : ready db knn im cache.
Proof.
  intros i Hi Hinc. split; [by apply buffer_slot|].
  intros Hnil. apply (f_equal length) in Hnil.
  rewrite neighborhood_length in Hnil by done.
  pose proof (buffer_slot i Hi). cbn [length] in Hnil. lia.
Qed.

End ScorerClaims.

Lemma NewThreadCache_sized {F : Type} `{FloatOps F} (lof : Lof F) :
  cache_sized (length (Employees (Lof_Db lof))) (NewThreadCache lof)
  ∧ Forall (λ b, length b = K lof) (Neighborhoods (NewThreadCache lof)).
Proof.
  unfold cache_sized, NewThreadCache. cbn. rewrite !length_replicate.
  repeat split. apply Forall_replicate. by rewrite length_replicate.
Qed.

(** C7: on a mask whose [Count] is the number of records it includes and is
    at least 2, with a cache whose buffers have a slot (a fresh cache for
    [K ≥ 1], or one that earlier runs left), [Lof.FindOutliers] does not
    panic; every included record gets at least one neighbour, and the
    buffers keep a slot for the next run. *)
Theorem Lof_FindOutliers_no_panic `{SortSlice} {F : Type} `{FloatOps F} {V : Type}
    (db : Database) (knn : Knn) (k : nat) (threshold : F)
    (cache : LofCache F) (im : InclusionMask)
    (outlierHandler : OutlierHandler V) (v : V) :
  NewKnn db = Some knn →
  cache_sized (length (Employees db)) cache →
  Forall (λ b, (1 ≤ length b)%nat) (Neighborhoods cache) →
  length (Mask im) = ((length (Employees db) + 7) / 8)%nat →
  Count im = Z.of_nat (population db im) →
  2 ≤ Count im →
  ∃ cache' v',
    Lof_FindOutliers (NewLof db knn k threshold) cache im outlierHandler v
    = Some (cache', v')
    ∧ cache_sized (length (Employees db)) cache'
    ∧ Forall (λ b, (1 ≤ length b)%nat) (Neighborhoods cache')
    ∧ ∀ i, (i < length (Employees db))%nat → included im i = true →
        buffer cache' i = neighborhood_of knn im cache i
        ∧ (1 ≤ length (buffer cache' i) ≤ length (buffer cache i))%nat.
Proof.
  intros Hknn Hsized Hslots Hmask Hcount Htwo.
  assert (2 ≤ population db im)%nat as Hpop by lia.
  pose proof (knn_index db knn Hknn) as Hindex.
  pose proof (mask_covers db im Hmask) as Hcovers.
  pose proof (cache_ready db knn cache im Hknn Hsized Hslots Hmask Hpop) as Hready.
  rewrite (Lof_FindOutliers_spec db knn (NewLof db knn k threshold) im
             Hindex eq_refl eq_refl Hcovers cache outlierHandler v Hsized Hready).
  eexists _, _. split; [done|].
  assert (∀ i, (i < length (Employees db))%nat → included im i = true →
            buffer (scored db knn im cache) i = neighborhood_of knn im cache i
            ∧ (1 ≤ length (buffer (scored db knn im cache) i)
               ≤ length (buffer cache i))%nat) as Hbuf.
  { intros i Hi Hinc. pose proof Hsized as (Hn1 & _).
    assert (buffer (scored db knn im cache) i = neighborhood_of knn im cache i)
      as ->.
    { unfold scored.
      change (buffer (lrd_update db (included im) ?c) i) with (buffer c i).
      by rewrite buffer_core_update, Hinc by lia. }
    split; [done|].
    rewrite (neighborhood_length db knn cache im Hknn Hmask i Hi Hinc).
    pose proof (buffer_slot db cache Hsized Hslots i Hi). lia. }
  split; [|split; [|done]].
  - unfold scored. by apply lrd_update_sized, core_update_sized.
  - pose proof Hsized as (Hn1 & _). apply Forall_lookup_2. intros i b Hb.
    assert (i < length (Employees db))%nat as Hi.
    { apply lookup_lt_Some in Hb. unfold scored in Hb. cbn in Hb.
      rewrite length_imap in Hb. lia. }
    destruct (included im i) eqn:Hinc.
    + destruct (Hbuf i Hi Hinc) as [_ Hlen]. unfold buffer in Hlen at 1.
      rewrite Hb in Hlen. cbn in Hlen. lia.
    + unfold scored in Hb. cbn in Hb. rewrite list_lookup_imap in Hb.
      destruct (Neighborhoods cache !! i) as [old|] eqn:Hold; [|done].
      cbn in Hb. rewrite Hinc in Hb. injection Hb as <-.
      by apply (Forall_lookup_1 _ _ _ _ Hslots Hold).
Qed.

(** ** The third pass and its visitor *)





(** ** Witnesses on [db4] *)

Lemma Lof_FindOutliers_no_panic_witness :
  ∃ cache' v',
    Lof_FindOutliers lof4 (NewThreadCache lof4) mask4_all collect []
    = Some (cache', v')
    ∧ cache_sized 4 cache'
    ∧ Forall (λ b, (1 ≤ length b)%nat) (Neighborhoods cache')
    ∧ ∀ i, (i < 4)%nat → included mask4_all i = true →
        buffer cache' i = neighborhood_of knn4 mask4_all (NewThreadCache lof4) i
        ∧ (1 ≤ length (buffer cache' i)
           ≤ length (buffer (NewThreadCache lof4) i))%nat.
Proof.
  apply (Lof_FindOutliers_no_panic db4 knn4 2 1.5%float (NewThreadCache lof4)
           mask4_all collect []).
  - reflexivity.
  - repeat split.
  - repeat constructor.
  - reflexivity.
  - reflexivity.
  - vm_compute. discriminate.
Defined.


(** ** The densities and the score *)



Lemma NewKnn_db6 : NewKnn db6 = Some knn6.
Proof. reflexivity. Qed.



(** ** Reuse of the scorer's cache *)

(** C2 fails: the first pass shortens [Neighborhoods[i]] to the neighbours it
    found and no later run restores the [K] slots. After a run on the mask of
    records 0 and 1, whose buffers are left with one slot, the run on the
    mask of all four records reports records 0 and 1; with a fresh cache it
    reports record 1 only, and with another score. *)
Theorem Lof_FindOutliers_reused_cache_differs :
  ∃ cache1 reused fresh,
    Lof_FindOutliers lof4 (NewThreadCache lof4) mask4_01 collect []
    = Some (cache1, [])
    ∧ length <$> Neighborhoods cache1 = [1; 1; 2; 2]%nat
    ∧ snd <$> Lof_FindOutliers lof4 cache1 mask4_all collect [] = Some reused
    ∧ snd <$> Lof_FindOutliers lof4 (NewThreadCache lof4) mask4_all collect []
      = Some fresh
    ∧ reused.*1 = [0; 1]%nat
    ∧ fresh.*1 = [1]%nat
    ∧ reused ≠ fresh.
Proof.
  eexists _, _, _. split; [vm_compute; reflexivity|].
  split; [reflexivity|]. split; [vm_compute; reflexivity|].
  split; [vm_compute; reflexivity|]. split; [reflexivity|].
  split; [reflexivity|]. intros Heq. apply (f_equal length) in Heq. done.
Qed.

(** ** What a reused cache carries over *)

Section Residue.
Context `{SortSlice} {F : Type} `{FloatOps F}.
Variables (db : Database) (knn : Knn) (im : InclusionMask).
Variables (c c' : LofCache F).
Hypothesis Hknn : NewKnn db = Some knn.
Hypothesis Hmask : length (Mask im) = ((length (Employees db) + 7) / 8)%nat.
Hypothesis Hsized : cache_sized (length (Employees db)) c.
Hypothesis Hsized' : cache_sized (length (Employees db)) c'.
Hypothesis Hlengths : length <$> Neighborhoods c = length <$> Neighborhoods c'.

Lemma same_neighborhood (i : nat) :
  neighborhood_of knn im c i = neighborhood_of knn im c' i.
Proof using Hlengths.
  unfold neighborhood_of, buffer. f_equal.
  apply (f_equal (λ l, l !! i)) in Hlengths.
  rewrite !list_lookup_fmap in Hlengths.
  destruct (Neighborhoods c !! i), (Neighborhoods c' !! i); cbn in *;
    congruence.
Qed.

Lemma same_buffer (i : nat) :
  (i < length (Employees db))%nat → included im i = true →
  buffer (scored db knn im c) i = buffer (scored db knn im c') i
  ∧ Forall (λ j, (j < length (Employees db))%nat ∧ included im j = true)
      (buffer (scored db knn im c) i).
Proof using Hknn Hmask Hsized Hsized' Hlengths.
  intros Hi Hinc. destruct Hsized as (Hn & _), Hsized' as (Hn' & _).
  unfold scored.
  change (buffer (lrd_update db (included im) ?x) i) with (buffer x i).
  rewrite !buffer_core_update, Hinc by lia. split; [apply same_neighborhood|].
  rewrite Forall_forall. intros j Hj.
  apply (nearest_below_n db knn im (knn_index db knn Hknn)
           (mask_covers db im Hmask)) in Hj as (? & _ & ?); done.
Qed.

Lemma same_core_distance (i : nat) :
  (i < length (Employees db))%nat → included im i = true →
  coreDistance_of (core_update db knn im (included im) c) i
  = coreDistance_of (core_update db knn im (included im) c') i.
Proof using Hsized Hsized' Hlengths.
  intros Hi Hinc. destruct Hsized as (_ & Hn & _), Hsized' as (_ & Hn' & _).
  unfold coreDistance_of, core_update. cbn. rewrite !list_lookup_imap.
  destruct (lookup_lt_is_Some_2 (CoreDistance c) i) as [x ->];
    [by rewrite Hn|].
  destruct (lookup_lt_is_Some_2 (CoreDistance c') i) as [x' ->];
    [by rewrite Hn'|].
  cbn. by rewrite Hinc, same_neighborhood.
Qed.

Lemma same_lrd (i : nat) :
  (i < length (Employees db))%nat → included im i = true →
  lrd_in (scored db knn im c) i = lrd_in (scored db knn im c') i.
Proof using Hknn Hmask Hsized Hsized' Hlengths.
  intros Hi Hinc. destruct (same_buffer i Hi Hinc) as [Hbuf Hall].
  pose proof Hsized as (_ & _ & Hn). pose proof Hsized' as (_ & _ & Hn').
  unfold lrd_in, scored, lrd_update. cbn. rewrite !list_lookup_imap.
  destruct (lookup_lt_is_Some_2 (LocalReachabilityDensities c) i) as [x Hx];
    [by rewrite Hn|].
  destruct (lookup_lt_is_Some_2 (LocalReachabilityDensities c') i) as [x' Hx'];
    [by rewrite Hn'|].
  cbn in Hx, Hx' |- *. rewrite Hx, Hx'. cbn. rewrite Hinc. unfold lrd_of.
  change (buffer (core_update db knn im (included im) ?x) i)
    with (buffer (scored db knn im x) i).
  rewrite <- Hbuf. do 2 f_equal. apply list_fmap_ext_elem. intros j Hj.
  rewrite Forall_forall in Hall. destruct (Hall j Hj) as [Hjn Hjinc].
  unfold reachability. by rewrite same_core_distance.
Qed.

Lemma same_score (i : nat) :
  (i < length (Employees db))%nat → included im i = true →
  score_of (scored db knn im c) i = score_of (scored db knn im c') i.
Proof using Hknn Hmask Hsized Hsized' Hlengths.
  intros Hi Hinc. destruct (same_buffer i Hi Hinc) as [Hbuf Hall].
  unfold score_of. rewrite <- Hbuf, <- (same_lrd i) by done. do 2 f_equal.
  apply list_fmap_ext_elem. intros j Hj.
  rewrite Forall_forall in Hall. destruct (Hall j Hj) as [Hjn Hjinc].
  by apply same_lrd.
Qed.

Lemma same_reports (lof : Lof F) :
  reported lof (scored db knn im c) im (seq 0 (length (Employees db)))
  = reported lof (scored db knn im c') im (seq 0 (length (Employees db))).
Proof using Hknn Hmask Hsized Hsized' Hlengths.
  unfold reported.
  rewrite (List.filter_ext_in _
    (λ i, included im i && f_ge (score_of (scored db knn im c') i) (Threshold lof))).
  - apply list_fmap_ext_elem. intros i Hi.
    apply list_elem_of_In, filter_In in Hi as [Hi Hp].
    apply in_seq in Hi. apply andb_true_iff in Hp as [Hinc _].
    f_equal. apply same_score; [lia|done].
  - intros i Hi. apply in_seq in Hi.
    destruct (included im i) eqn:Hinc; [|done]. cbn.
    by rewrite same_score by (lia || done).
Qed.

End Residue.

(** Of what an earlier run leaves in the cache, only the lengths of the
    buffers reach the visitor: two caches with buffers of the same lengths
    give the same calls. In particular a cache whose buffers still have their
    [K] slots behaves as a fresh one. *)
Theorem Lof_FindOutliers_cache_lengths `{SortSlice} {F V : Type} `{FloatOps F}
    (db : Database) (knn : Knn) (k : nat) (threshold : F)
    (c c' : LofCache F) (im : InclusionMask)
    (outlierHandler : OutlierHandler V) (v : V) :
  NewKnn db = Some knn →
  length (Mask im) = ((length (Employees db) + 7) / 8)%nat →
  (2 ≤ population db im)%nat →
  cache_sized (length (Employees db)) c →
  cache_sized (length (Employees db)) c' →
  Forall (λ b, (1 ≤ length b)%nat) (Neighborhoods c) →
  length <$> Neighborhoods c = length <$> Neighborhoods c' →
  snd <$> Lof_FindOutliers (NewLof db knn k threshold) c im outlierHandler v
  = snd <$> Lof_FindOutliers (NewLof db knn k threshold) c' im outlierHandler v.
Proof.
  intros Hknn Hmask Hpop Hsized Hsized' Hslots Hlengths.
  assert (Forall (λ b, (1 ≤ length b)%nat) (Neighborhoods c')) as Hslots'.
  { apply Forall_fmap in Hslots. apply Forall_fmap.
    by rewrite <- Hlengths. }
  pose proof (knn_index db knn Hknn) as Hindex.
  pose proof (mask_covers db im Hmask) as Hcovers.
  rewrite !(Lof_FindOutliers_spec db knn (NewLof db knn k threshold) im
              Hindex eq_refl eq_refl Hcovers)
    by (done || by apply cache_ready).
  cbn. by rewrite (same_reports db knn im c c').
Qed.

(** ** The wrapper and the worker's mask *)

Lemma NewKnn_db_small : NewKnn db_small = Some knn_small.
Proof. reflexivity. Qed.



(** C1 fails on the count: [Fill] rebuilds the bits but adds to [Count]
    without clearing it. A worker that evaluates [ctx_A] and then [ctx_B]
    with its one mask ends with the bits of [ctx_B], which includes one
    record, and with [Count = 3]. *)
Theorem FindOutliers_reused_mask_Count :
  ∃ im1 im2,
    FindOutliers db_small lof_small (NewThreadCache lof_small)
      (NewInclusionMask db_small) ctx_A (worker_handler 0) (false, [])
    = Some (im1, NewThreadCache lof_small, (false, []))
    ∧ Count im1 = 2
    ∧ FindOutliers db_small lof_small (NewThreadCache lof_small)
        im1 ctx_B (worker_handler 0) (false, [])
      = Some (im2, NewThreadCache lof_small, (false, []))
    ∧ IsIncluded im2 <$> [0; 1; 2]%nat = [Some false; Some true; Some false]
    ∧ population db_small im2 = 1%nat
    ∧ Count im2 = 3.
Proof. eexists _, _. repeat split; reflexivity. Qed.

(** ** The enumeration of the supersets *)

Lemma assignments_length (m : nat) : length (assignments m) = (2 ^ m)%nat.
Proof.
  induction m as [|m IH]; [done|].
  cbn [assignments]. rewrite length_app, !length_fmap, IH. cbn. lia.
Qed.

Lemma assignments_elem (m : nat) (a : list bool) :
  a ∈ assignments m ↔ length a = m.
Proof.
  revert a. induction m as [|m IH]; intros a; cbn [assignments].
  - rewrite list_elem_of_singleton. split; [by intros ->|].
    by intros ->%nil_length_inv.
  - rewrite elem_of_app, !list_elem_of_fmap. split.
    + intros [(a' & -> & Ha)|(a' & -> & Ha)]; apply IH in Ha; cbn; lia.
    + destruct a as [|[|] a']; [done|..]; intros [= Ha]; apply IH in Ha.
      * right. by exists a'.
      * left. by exists a'.
Qed.

Lemma assignments_NoDup (m : nat) : NoDup (assignments m).
Proof.
  induction m as [|m IH]; cbn [assignments].
  - apply NoDup_singleton.
  - apply NoDup_app. split; [|split].
    + apply NoDup_fmap_2; [|done]. by intros ?? [=].
    + intros a (a1 & -> & _)%list_elem_of_fmap (a2 & [=] & _)%list_elem_of_fmap.
    + apply NoDup_fmap_2; [|done]. by intros ?? [=].
Qed.

Lemma assignments_first (m : nat) :
  head (assignments m) = Some (replicate m false).
Proof.
  induction m as [|m IH]; [done|]. cbn [assignments replicate].
  destruct (assignments m) as [|a l]; [done|]. cbn in *. congruence.
Qed.

Lemma assignments_last (m : nat) :
  ∃ l, assignments m = l ++ [replicate m true].
Proof.
  induction m as [|m (l & IH)]; [by exists []|].
  cbn [assignments replicate].
  exists ((cons false <$> assignments m) ++ (cons true <$> l)).
  rewrite IH at 2. rewrite (fmap_app (cons true)). cbn.
  by rewrite app_assoc.
Qed.

Lemma fmap_concat_fmap {A B C} (f : B → C) (g : A → list B) (l : list A) :
  f <$> concat (g <$> l) = concat ((λ a, f <$> g a) <$> l).
Proof.
  induction l as [|a l IH]; [done|]. cbn. by rewrite fmap_app, IH.
Qed.

(** The assignments of [m1 + m2] values are those of the first [m1], each
    followed by every assignment of the last [m2] in turn. *)
Lemma assignments_add (m1 m2 : nat) :
  assignments (m1 + m2)
  = concat ((λ a1, (a1 ++.) <$> assignments m2) <$> assignments m1).
Proof.
  induction m1 as [|m1 IH]; cbn [assignments Nat.add].
  - cbn. rewrite app_nil_r. by rewrite list_fmap_id.
  - rewrite IH, fmap_app, concat_app, !fmap_concat_fmap.
    rewrite <- !list_fmap_compose. f_equal.
    + f_equal. apply list_fmap_ext. intros _ a _. cbn.
      rewrite <- list_fmap_compose. by apply list_fmap_ext.
    + f_equal. apply list_fmap_ext. intros _ a _. cbn.
      rewrite <- list_fmap_compose. by apply list_fmap_ext.
Qed.

Lemma with_ctx_ctx (s : Scan) : with_ctx (ctx s) s = s.
Proof. by destruct s. Qed.

Lemma run_leaves_app (leaf : Scan → Scan) (cs1 cs2 : list Context) (s : Scan) :
  run_leaves leaf (cs1 ++ cs2) s = run_leaves leaf cs2 (run_leaves leaf cs1 s).
Proof. apply fold_left_app. Qed.

Lemma run_leaves_absorb (leaf : Scan → Scan) (cs : list Context) (c : Context)
    (s : Scan) :
  cs ≠ [] → run_leaves leaf cs (with_ctx c s) = run_leaves leaf cs s.
Proof. by destruct cs. Qed.

Lemma run_leaves_ctx (leaf : Scan → Scan) (cs : list Context) (s : Scan) :
  (∀ s, ctx (leaf s) = ctx s) →
  ctx (run_leaves leaf cs s) = default (ctx s) (last cs).
Proof.
  intros Hleaf. revert s. induction cs as [|c cs IH] using rev_ind; intros s.
  - done.
  - rewrite run_leaves_app, last_snoc. cbn. by rewrite Hleaf.
Qed.

Section Enumeration.
Variable leaf : Scan → Scan.
Hypothesis leaf_ctx : ∀ s, ctx (leaf s) = ctx s.

Section Level.
Variable write : nat → bool → Scan → Scan.
Variable getX : Context → list bool.
Variable setX : list bool → Context → Context.
Hypothesis write_spec : ∀ i b s,
  write i b s = with_ctx (setX (<[i:=b]> (getX (ctx s))) (ctx s)) s.
Hypothesis getX_setX : ∀ l c, getX (setX l c) = l.
Variable Good : Context → Prop.
Variable inner : list bool → list Context.
Variable handler : Scan → Scan.
Hypothesis Good_setX : ∀ l c, Good c → Good (setX l c).
Hypothesis handler_spec : ∀ s,
  Good (ctx s) → handler s = run_leaves leaf (inner (getX (ctx s))) s.
Hypothesis inner_last : ∀ l, ∃ c, last (inner l) = Some c ∧ Good c ∧ getX c = l.

Lemma level_leaves_S (pre : list bool) (len : nat) :
  level_leaves inner pre (S len)
  = level_leaves inner (pre ++ [false]) len
    ++ level_leaves inner (pre ++ [true]) len.
Proof.
  unfold level_leaves. cbn [assignments].
  rewrite fmap_app, concat_app, <- !list_fmap_compose.
  f_equal; f_equal; apply list_fmap_ext; intros _ a _; cbn;
    by rewrite <- app_assoc.
Qed.

Lemma level_leaves_last (pre : list bool) (len : nat) :
  ∃ c, last (level_leaves inner pre len) = Some c
    ∧ Good c ∧ getX c = pre ++ replicate len true.
Proof using inner_last.
  destruct (assignments_last len) as (l & Hl). unfold level_leaves.
  rewrite Hl, fmap_app, concat_app. cbn. rewrite app_nil_r.
  destruct (inner_last (pre ++ replicate len true)) as (c & Hc & Hgood & Hget).
  exists c. split; [|done]. by rewrite last_app, Hc.
Qed.

Lemma level_leaves_nonempty (pre : list bool) (len : nat) :
  level_leaves inner pre len ≠ [].
Proof using inner_last.
  destruct (level_leaves_last pre len) as (c & Hc & _).
  intros Hnil. by rewrite Hnil in Hc.
Qed.

Lemma RecursivePermute_leaves (len : nat) :
  ∀ (pre w : list bool) (s : Scan),
    Good (ctx s) →
    getX (ctx s) = pre ++ w →
    length w = len →
    RecursivePermute write (length pre) len handler s
    = run_leaves leaf (level_leaves inner pre len) s.
Proof using All.
  induction len as [|len IH]; intros pre w s Hgood Hget Hlen.
  - destruct w; [|done]. cbn [RecursivePermute].
    rewrite handler_spec, Hget by done. unfold level_leaves. cbn.
    by rewrite !app_nil_r.
  - destruct w as [|x w]; [done|]. injection Hlen as Hlen.
    cbn [RecursivePermute]. rewrite level_leaves_S, run_leaves_app.
    assert (∀ (b : bool) (t : Scan) (y : bool) (u : list bool),
              Good (ctx t) → getX (ctx t) = pre ++ y :: u → length u = len →
              RecursivePermute write (length pre + 1) len handler
                (write (length pre) b t)
              = run_leaves leaf (level_leaves inner (pre ++ [b]) len) t)
      as Hhalf.
    { intros b t y u Hgoodt Hgett Hlenu. rewrite write_spec, Hgett.
      rewrite insert_app_r_alt, Nat.sub_diag by lia. cbn [insert list_insert].
      replace (length pre + 1)%nat with (length (pre ++ [b]))
        by (rewrite length_app; cbn; lia).
      rewrite (IH (pre ++ [b]) u);
        [|by apply Good_setX|by cbn; rewrite getX_setX, <- app_assoc|done].
      apply run_leaves_absorb, level_leaves_nonempty. }
    rewrite (Hhalf false s x w) by done.
    set (s2 := run_leaves leaf (level_leaves inner (pre ++ [false]) len) s).
    destruct (level_leaves_last (pre ++ [false]) len)
      as (c2 & Hlast & Hgood2 & Hget2).
    assert (ctx s2 = c2) as Hctx2
      by (unfold s2; by rewrite run_leaves_ctx, Hlast).
    apply (Hhalf true s2 false (replicate len true)).
    + by rewrite Hctx2.
    + by rewrite Hctx2, Hget2, <- app_assoc.
    + by rewrite length_replicate.
Qed.

End Level.

Lemma permute_years (e j pre w : list bool) (s : Scan) :
  EmployersIncluded (ctx s) = e →
  JobTitlesIncluded (ctx s) = j →
  YearsIncluded (ctx s) = pre ++ w →
  RecursivePermute write_year (length pre) (length w) leaf s
  = run_leaves leaf (level_leaves (λ y, [mkContext e j y]) pre (length w)) s.
Proof using leaf_ctx.
  intros He Hj Hy.
  apply (RecursivePermute_leaves write_year YearsIncluded set_years
           (λ _ _ _, eq_refl) (λ _ _, eq_refl)
           (λ c, EmployersIncluded c = e ∧ JobTitlesIncluded c = j)
           (λ y, [mkContext e j y]) leaf) with (w := w); try done.
  - intros t [Ht1 Ht2]. cbn. destruct t as [[te tj ty] ? ? ?].
    cbn in *. by subst.
  - intros l. by eexists.
Qed.

Lemma permute_jobTitles (e preY : list bool) (mY : nat) (pre w : list bool)
    (s : Scan) :
  EmployersIncluded (ctx s) = e →
  has_prefix preY mY (YearsIncluded (ctx s)) →
  JobTitlesIncluded (ctx s) = pre ++ w →
  RecursivePermute write_jobTitle (length pre) (length w)
    (years_level leaf (length preY)) s
  = run_leaves leaf
      (level_leaves (λ j, level_leaves (λ y, [mkContext e j y]) preY mY)
         pre (length w)) s.
Proof using leaf_ctx.
  intros He Hy Hj.
  apply (RecursivePermute_leaves write_jobTitle JobTitlesIncluded set_jobTitles
           (λ _ _ _, eq_refl) (λ _ _, eq_refl)
           (λ c, EmployersIncluded c = e ∧ has_prefix preY mY (YearsIncluded c))
           (λ j, level_leaves (λ y, [mkContext e j y]) preY mY)
           (years_level leaf (length preY))) with (w := w); try done.
  - intros t [Ht (wY & HY & HlenY)]. unfold years_level.
    rewrite HY, length_app, HlenY.
    replace (length preY + mY - length preY)%nat with (length wY) by lia.
    rewrite <- HlenY. by apply permute_years.
  - intros l.
    destruct (level_leaves_last YearsIncluded
                (λ c, EmployersIncluded c = e ∧ JobTitlesIncluded c = l)
                (λ y, [mkContext e l y])) with (pre := preY) (len := mY)
      as (c & Hc & [Hce Hcj] & Hcy); [intros y; by eexists|].
    exists c. split; [done|]. split; [|done]. split; [done|].
    exists (replicate mY true). split; [done|apply length_replicate].
Qed.

Lemma permute_employers (preJ preY : list bool) (mJ mY : nat) (pre w : list bool)
    (s : Scan) :
  has_prefix preJ mJ (JobTitlesIncluded (ctx s)) →
  has_prefix preY mY (YearsIncluded (ctx s)) →
  EmployersIncluded (ctx s) = pre ++ w →
  RecursivePermute write_employer (length pre) (length w)
    (jobTitles_level leaf (length preJ) (length preY)) s
  = run_leaves leaf
      (level_leaves
         (λ e, level_leaves
                 (λ j, level_leaves (λ y, [mkContext e j y]) preY mY) preJ mJ)
         pre (length w)) s.
Proof using leaf_ctx.
  intros Hj Hy He.
  apply (RecursivePermute_leaves write_employer EmployersIncluded set_employers
           (λ _ _ _, eq_refl) (λ _ _, eq_refl)
           (λ c, has_prefix preJ mJ (JobTitlesIncluded c)
                 ∧ has_prefix preY mY (YearsIncluded c))
           (λ e, level_leaves
                   (λ j, level_leaves (λ y, [mkContext e j y]) preY mY) preJ mJ)
           (jobTitles_level leaf (length preJ) (length preY))) with (w := w);
    try done.
  - intros t [(wJ & HJ & HlenJ) Ht]. unfold jobTitles_level.
    rewrite HJ, length_app, HlenJ.
    replace (length preJ + mJ - length preJ)%nat with (length wJ) by lia.
    rewrite <- HlenJ. by apply permute_jobTitles.
  - intros l.
    destruct (level_leaves_last JobTitlesIncluded
                (λ c, EmployersIncluded c = l
                      ∧ has_prefix preY mY (YearsIncluded c))
                (λ j, level_leaves (λ y, [mkContext l j y]) preY mY))
      with (pre := preJ) (len := mJ)
      as (c & Hc & [Hce Hcy] & Hcj).
    { intros j.
      destruct (level_leaves_last YearsIncluded
                  (λ c, EmployersIncluded c = l ∧ JobTitlesIncluded c = j)
                  (λ y, [mkContext l j y])) with (pre := preY) (len := mY)
        as (c & Hc & [Hce Hcj] & Hcy); [intros y; by eexists|].
      exists c. split; [done|]. split; [|done]. split; [done|].
      exists (replicate mY true). split; [done|apply length_replicate]. }
    exists c. split; [done|]. split; [|done]. split; [|done].
    exists (replicate mJ true). split; [done|apply length_replicate].
Qed.

End Enumeration.

Lemma concat_singletons {A B} (h : A → B) (l : list A) :
  concat ((λ a, [h a]) <$> l) = h <$> l.
Proof. induction l as [|a l IH]; [done|]. cbn. by rewrite IH. Qed.

Lemma nested_leaves_contexts (origE origJ origY mE mJ mY : nat) :
  level_leaves
    (λ e, level_leaves
            (λ j, level_leaves (λ y, [mkContext e j y]) (replicate origY true) mY)
            (replicate origJ true) mJ)
    (replicate origE true) mE
  = superset_contexts origE origJ origY mE mJ mY.
Proof.
  unfold superset_contexts, level_leaves.
  rewrite (assignments_add mE), (assignments_add mJ).
  rewrite fmap_concat_fmap. f_equal. apply list_fmap_ext_elem.
  intros aE HaE%assignments_elem.
  rewrite <- list_fmap_compose, fmap_concat_fmap. f_equal.
  apply list_fmap_ext_elem. intros aJ HaJ%assignments_elem.
  rewrite concat_singletons, <- list_fmap_compose.
  apply list_fmap_ext_elem. intros aY _. cbn. unfold context_of.
  rewrite take_app_length', drop_app_length' by done.
  rewrite take_app_length' by done.
  rewrite app_assoc, drop_app_length' by (rewrite length_app; lia). done.
Qed.

Lemma include_prefix_spec (count : nat) :
  ∀ (included : list bool) (i : nat),
    (i + count ≤ length included)%nat →
    include_prefix included i count
    = Some (take i included ++ replicate count true ++ drop (i + count) included).
Proof.
  induction count as [|count IH]; intros l i Hlen; cbn [include_prefix].
  - cbn. by rewrite Nat.add_0_r, take_drop.
  - rewrite store_Some by lia. rewrite IH by (rewrite length_insert; lia).
    f_equal. replace (i + 1)%nat with (S i) by lia.
    rewrite (take_S_r _ _ true) by (apply list_lookup_insert_eq; lia).
    rewrite take_insert_ge, drop_insert_lt by lia.
    rewrite <- app_assoc. cbn. by rewrite Nat.add_succ_r.
Qed.

Lemma original_context_spec (db : Database) (origE origJ origY : nat) :
  (origE ≤ length (Employers db))%nat →
  (origJ ≤ length (JobTitles db))%nat →
  (origY ≤ length (Years db))%nat →
  original_context db origE origJ origY
  = Some {| EmployersIncluded :=
              replicate origE true
                ++ replicate (length (Employers db) - origE) false;
            JobTitlesIncluded :=
              replicate origJ true
                ++ replicate (length (JobTitles db) - origJ) false;
            YearsIncluded :=
              replicate origY true
                ++ replicate (length (Years db) - origY) false |}.
Proof.
  intros HE HJ HY. unfold original_context, NewContext. cbn.
  rewrite !include_prefix_spec by (rewrite length_replicate; lia).
  cbn. by rewrite !drop_replicate.
Qed.

Lemma copy_slice_same_length {A} (dst src : list A) :
  length dst = length src → copy_slice dst src = src.
Proof.
  intros Hlen. unfold copy_slice.
  rewrite Hlen, firstn_all, drop_ge by lia. apply app_nil_r.
Qed.

(** What the innermost closure of [main] sends: every context but the one
    it meets first. *)
Lemma run_dispatch (db : Database) (cs : list Context) :
  ∀ s, originalContext s = false →
    workChan (run_leaves (dispatch db) cs s)
    = workChan s ++ (Context_Copy (NewContext db) <$> cs).
Proof.
  induction cs as [|c cs IH]; intros s Hs.
  - cbn. by rewrite app_nil_r.
  - change (run_leaves (dispatch db) (c :: cs) s)
      with (run_leaves (dispatch db) cs (dispatch db (with_ctx c s))).
    rewrite IH by (unfold dispatch; cbn; by rewrite Hs).
    unfold dispatch. cbn. rewrite Hs. cbn. by rewrite <- app_assoc.
Qed.

Lemma run_dispatch_first (db : Database) (cs : list Context) (s : Scan) :
  originalContext s = true →
  workChan (run_leaves (dispatch db) cs s)
  = workChan s ++ (Context_Copy (NewContext db) <$> tail cs).
Proof.
  intros Hs. destruct cs as [|c cs].
  - cbn. by rewrite app_nil_r.
  - change (run_leaves (dispatch db) (c :: cs) s)
      with (run_leaves (dispatch db) cs (dispatch db (with_ctx c s))).
    rewrite run_dispatch by (unfold dispatch; cbn; by rewrite Hs).
    unfold dispatch. cbn. by rewrite Hs.
Qed.

Lemma context_of_inj (origE origJ origY mE mJ : nat) (a a' : list bool) :
  context_of origE origJ origY mE mJ a = context_of origE origJ origY mE mJ a' →
  a = a'.
Proof.
  unfold context_of. intros [= HE HJ HY].
  apply app_inv_head in HE, HJ, HY.
  rewrite <- (take_drop mE a), <- (take_drop mE a'), HE. f_equal.
  rewrite <- (take_drop mJ (drop mE a)), <- (take_drop mJ (drop mE a')), HJ.
  f_equal. by rewrite !drop_drop.
Qed.

Lemma context_of_app (origE origJ origY : nat) (aE aJ aY : list bool) :
  context_of origE origJ origY (length aE) (length aJ) (aE ++ aJ ++ aY)
  = {| EmployersIncluded := replicate origE true ++ aE;
       JobTitlesIncluded := replicate origJ true ++ aJ;
       YearsIncluded := replicate origY true ++ aY |}.
Proof.
  unfold context_of. rewrite take_app_length, drop_app_length, take_app_length.
  by rewrite app_assoc, drop_app_length' by (by rewrite length_app).
Qed.

(** C4: the three nested [RecursivePermute] calls run the innermost closure
    once on each of the [2^m] assignments of the [m] flippable values, in
    the order [false] before [true] with the employers' values outermost,
    then the job titles', then the years'. The contexts are distinct and
    cover every assignment, each keeps the baseline's values included, the
    first one is the baseline, and [main] sends all of them but the first. *)
Theorem permute_supersets_enumerates (db : Database) (origE origJ origY : nat) :
  (origE ≤ length (Employers db))%nat →
  (origJ ≤ length (JobTitles db))%nat →
  (origY ≤ length (Years db))%nat →
  let mE := (length (Employers db) - origE)%nat in
  let mJ := (length (JobTitles db) - origJ)%nat in
  let mY := (length (Years db) - origY)%nat in
  let contexts := superset_contexts origE origJ origY mE mJ mY in
  ∃ baseline,
    original_context db origE origJ origY = Some baseline
    ∧ (∀ (leaf : Scan → Scan) (s : Scan),
         (∀ s, ctx (leaf s) = ctx s) →
         ctx s = baseline →
         permute_supersets origE origJ origY leaf s = run_leaves leaf contexts s)
    ∧ length contexts = (2 ^ (mE + (mJ + mY)))%nat
    ∧ NoDup contexts
    ∧ (∀ c, c ∈ contexts ↔
         ∃ aE aJ aY, length aE = mE ∧ length aJ = mJ ∧ length aY = mY
           ∧ c = {| EmployersIncluded := replicate origE true ++ aE;
                    JobTitlesIncluded := replicate origJ true ++ aJ;
                    YearsIncluded := replicate origY true ++ aY |})
    ∧ head contexts = Some baseline
    ∧ enumerate db origE origJ origY = Some (tail contexts).
Proof.
  intros HE HJ HY mE mJ mY contexts.
  eexists. split; [by apply original_context_spec|].
  assert (∀ c, c ∈ contexts ↔
            ∃ aE aJ aY, length aE = mE ∧ length aJ = mJ ∧ length aY = mY
              ∧ c = {| EmployersIncluded := replicate origE true ++ aE;
                       JobTitlesIncluded := replicate origJ true ++ aJ;
                       YearsIncluded := replicate origY true ++ aY |}) as Hin.
  { intros c. unfold contexts, superset_contexts. rewrite list_elem_of_fmap.
    split.
    - intros (a & -> & Ha%assignments_elem).
      exists (take mE a), (take mJ (drop mE a)), (drop (mE + mJ) a).
      rewrite !length_take, !length_drop. repeat split; lia.
    - intros (aE & aJ & aY & HaE & HaJ & HaY & ->).
      exists (aE ++ aJ ++ aY). split.
      + by rewrite <- HaE, <- HaJ, context_of_app.
      + apply assignments_elem. rewrite !length_app. lia. }
  assert (∀ (leaf : Scan → Scan) (s : Scan),
            (∀ s, ctx (leaf s) = ctx s) →
            ctx s = {| EmployersIncluded := replicate origE true ++ replicate mE false;
                       JobTitlesIncluded := replicate origJ true ++ replicate mJ false;
                       YearsIncluded := replicate origY true ++ replicate mY false |} →
            permute_supersets origE origJ origY leaf s
            = run_leaves leaf contexts s) as Hrun.
  { intros leaf s Hleaf Hs. unfold contexts.
    rewrite <- nested_leaves_contexts.
    pose proof (permute_employers leaf Hleaf (replicate origJ true)
                  (replicate origY true) mJ mY (replicate origE true)
                  (replicate mE false) s) as Hperm.
    rewrite !length_replicate in Hperm. rewrite <- Hperm.
    - unfold permute_supersets. rewrite Hs. cbn.
      rewrite length_app, !length_replicate.
      by replace (origE + mE - origE)%nat with mE by lia.
    - rewrite Hs. eexists. split; [done|apply length_replicate].
    - rewrite Hs. eexists. split; [done|apply length_replicate].
    - by rewrite Hs. }
  split; [exact Hrun|].
  split; [unfold contexts, superset_contexts;
          by rewrite length_fmap, assignments_length|].
  split; [|split; [exact Hin|split]].
  - apply NoDup_fmap_2_strong; [|apply assignments_NoDup].
    intros a a' _ _. apply context_of_inj.
  - unfold contexts, superset_contexts.
    destruct (assignments (mE + (mJ + mY))) as [|a l] eqn:Hl;
      pose proof (assignments_first (mE + (mJ + mY))) as Hfirst;
      rewrite Hl in Hfirst; [done|]. cbn in Hfirst |- *.
    injection Hfirst as ->. f_equal. unfold context_of.
    rewrite take_replicate, !drop_replicate, take_replicate.
    f_equal; f_equal; f_equal; lia.
  - unfold enumerate. rewrite original_context_spec by done.
    rewrite Hrun;
      [|intros t; unfold dispatch; by destruct (originalContext t)|done].
    rewrite run_dispatch_first by done. cbn. f_equal.
    rewrite <- (list_fmap_id (tail contexts)) at 2.
    apply list_fmap_ext_elem. intros c Hc.
    assert (c ∈ contexts) as Hc'.
    { destruct contexts; [done|]. by right. }
    apply Hin in Hc' as (aE & aJ & aY & HaE & HaJ & HaY & ->).
    unfold Context_Copy, NewContext.
    cbn [EmployersIncluded JobTitlesIncluded YearsIncluded].
    rewrite !copy_slice_same_length
      by (rewrite length_app, !length_replicate; lia). done.
Qed.

Lemma permute_supersets_enumerates_witness :
  enumerate db_small 1 1 1
  = Some [ {| EmployersIncluded := [true; true]; JobTitlesIncluded := [true];
              YearsIncluded := [true] |} ].
Proof.
  destruct (permute_supersets_enumerates db_small 1 1 1)
    as (baseline & _ & _ & _ & _ & _ & _ & Henum);
    [vm_compute; lia|vm_compute; lia|vm_compute; lia|].
  exact Henum.
Defined.

(** * Further properties of the code *)

(** ** [Distance] and [Filter] *)

(** X1: For records whose salaries are uint32 values, Distance is the absolute
    difference of the two salaries and is itself a uint32; it is symmetric, it
    is 0 exactly when the salaries are equal, and it satisfies the triangle
    inequality. *)
Theorem Distance_metric (a b c : Employee) :
  uint32 (Salary a) → uint32 (Salary b) → uint32 (Salary c) →
  Distance a b = Z.abs (Salary a - Salary b)
  ∧ uint32 (Distance a b)
  ∧ Distance a b = Distance b a
  ∧ (Distance a b = 0 ↔ Salary a = Salary b)
  ∧ Distance a c ≤ Distance a b + Distance b c.
Proof.
  unfold uint32. intros Ha Hb Hc.
  assert (∀ x y, 0 ≤ Salary x < 2 ^ 32 → 0 ≤ Salary y < 2 ^ 32 →
            Distance x y = Z.abs (Salary x - Salary y)) as Habs.
  { intros x y Hx Hy. unfold Distance.
    destruct (Z.ltb_spec (Salary x) (Salary y)); rewrite wrap_small; lia. }
  rewrite !Habs by done. repeat split; lia.
Qed.

Lemma Distance_metric_witness :
  let a := {| Id := 1; Employer := 0; JobTitle := 0; Year := 0; Salary := 50000 |} in
  let b := {| Id := 2; Employer := 1; JobTitle := 0; Year := 0; Salary := 61000 |} in
  Distance a b = 11000 ∧ Distance b a = 11000.
Proof.
  intros a b.
  destruct (Distance_metric a b a) as (Hab & _ & Hsym & _);
    [unfold uint32; cbn; lia..|].
  split; [exact Hab|]. rewrite <- Hsym. exact Hab.
Defined.

Lemma Filter_valid_selects (vE vJ vY : list bool) (e : Employee) :
  (Employer e < length vE)%nat → (JobTitle e < length vJ)%nat →
  (Year e < length vY)%nat →
  Filter_valid vE vJ vY e = Some (selects vE vJ vY e).
Proof.
  intros HE HJ HY. unfold Filter_valid, selects, and_then.
  destruct (lookup_lt_is_Some_2 vE _ HE) as [x ->].
  destruct (lookup_lt_is_Some_2 vJ _ HJ) as [y ->].
  destruct (lookup_lt_is_Some_2 vY _ HY) as [z ->].
  by destruct x, y, z.
Qed.

Lemma Filter_selects (db : Database) (vE vJ vY : list bool) :
  well_indexed db (length vE) (length vJ) (length vY) →
  Filter db vE vJ vY = Some (selects vE vJ vY <$> Employees db).
Proof.
  intros Hwf. apply mapM_total. intros e He.
  unfold well_indexed in Hwf. rewrite Forall_forall in Hwf.
  destruct (Hwf e He) as (HE & HJ & HY). by apply Filter_valid_selects.
Qed.

(** X2: When the employer, job title and year index of every record is within
    the three inclusion slices, Filter does not panic and sends one flag per
    record, in the order of the records: the conjunction of the three slice
    entries at the record's indices. *)
Theorem Filter_total (db : Database) (vE vJ vY : list bool) :
  well_indexed db (length vE) (length vJ) (length vY) →
  ∃ inclusion,
    Filter db vE vJ vY = Some inclusion
    ∧ length inclusion = length (Employees db)
    ∧ ∀ r e, Employees db !! r = Some e →
        inclusion !! r
        = Some (default false (vE !! Employer e)
                && default false (vJ !! JobTitle e)
                && default false (vY !! Year e)).
Proof.
  intros Hwf. eexists. split; [by apply Filter_selects|].
  split; [by rewrite length_fmap|].
  intros r e He. by rewrite list_lookup_fmap, He.
Qed.

(** X3: Filter panics exactly when, for some record, an index that the
    short-circuit conjunction reaches is out of range: the employer index, or
    the job title index when the employer is valid, or the year index when
    employer and job title are valid. An index behind a false operand is not
    read. *)
Theorem Filter_panics_iff (db : Database) (vE vJ vY : list bool) :
  Filter db vE vJ vY = None
  ↔ Exists (reaches_out_of_range vE vJ vY) (Employees db).
Proof.
  unfold Filter. rewrite Exists_exists. split.
  - intros Hnone.
    destruct (decide (Forall (λ e, is_Some (Filter_valid vE vJ vY e)) (Employees db)))
      as [Hall|Hex].
    + apply mapM_is_Some_2 in Hall. rewrite Hnone in Hall. by destruct Hall.
    + apply not_Forall_Exists in Hex; [|intros e; apply _].
      apply Exists_exists in Hex as (e & He & Hbad). exists e. split; [done|].
      unfold reaches_out_of_range. cbn in Hbad.
      unfold Filter_valid, and_then in Hbad.
      destruct (vE !! Employer e) as [[|]|]; [|by destruct Hbad|by left].
      right. split; [done|].
      destruct (vJ !! JobTitle e) as [[|]|]; [|by destruct Hbad|by left].
      right. split; [done|].
      destruct (vY !! Year e); [by destruct Hbad|done].
  - intros (e & He & Hbad).
    destruct (mapM (Filter_valid vE vJ vY) (Employees db)) as [l|] eqn:Hl; [|done].
    apply mapM_Some_1 in Hl.
    apply list_elem_of_lookup in He as [r Hr].
    destruct (Forall2_lookup_l _ _ _ _ _ Hl Hr) as (x & _ & Hx).
    unfold Filter_valid, and_then, reaches_out_of_range in *.
    destruct Hbad as [H1|[H1 [H2|[H2 H3]]]];
      rewrite ?H1, ?H2, ?H3 in Hx; done.
Qed.

(** ** [Fill] and [IsIncluded] *)

(** The position of the loop of [Fill] after one more value. *)
Lemma Fill_loop_next (more : list bool) (b bit : nat) (im1 : InclusionMask) :
  (bit < 8)%nat →
  ∃ b' bit', (if (7 <? bit + 1)%nat
              then Fill_loop more (b + 1) 0 im1
              else Fill_loop more b (bit + 1) im1)
             = Fill_loop more b' bit' im1
             ∧ (8 * b' + bit' = 8 * b + bit + 1)%nat ∧ (bit' < 8)%nat
             ∧ (bit' ≠ 0%nat → b' = b ∧ bit' = (bit + 1)%nat).
Proof.
  intros Hbit. destruct (Nat.ltb_spec 7 (bit + 1)).
  - exists (b + 1)%nat, 0%nat. repeat split; lia.
  - exists b, (bit + 1)%nat. repeat split; lia.
Qed.

(** What [Fill] leaves beyond the values it received: the rest of the last
    byte it wrote is clear, and the bytes after it are as they were. *)
Lemma Fill_loop_beyond (inclusion : list bool) :
  ∀ (b bit : nat) (im im' : InclusionMask),
    (bit < 8)%nat →
    (8 * b + bit + length inclusion ≤ 8 * length (Mask im))%nat →
    (bit ≠ 0%nat → ∀ k : nat, (k < 8 - bit)%nat →
       Z.testbit (default 0 (Mask im !! b)) (Z.of_nat k) = false) →
    Fill_loop inclusion b bit im = Some im' →
    ∀ r, (8 * b + bit + length inclusion ≤ r)%nat →
      included im' r
      = if (r <? 8 * ((8 * b + bit + length inclusion + 7) / 8))%nat then false
        else included im r.
Proof.
  induction inclusion as [|include more IH];
    intros b bit im im' Hbit Hlen Hclear Hrun r Hr.
  - cbn in Hrun. injection Hrun as <-. cbn [length] in *.
    destruct (Nat.ltb_spec r (8 * ((8 * b + bit + 0 + 7) / 8))) as [Hpad|]; [|done].
    assert (bit ≠ 0)%nat as Hne by lia.
    unfold included. assert (r / 8 = b)%nat as -> by lia.
    apply Hclear; [done|lia].
  - cbn [Fill_loop length] in *.
    assert (b < length (Mask im))%nat as Hb by lia.
    destruct (Fill_step_spec include b bit im Hbit Hb)
      as (im1 & Hstep & Hlen1 & _ & Hother & Hbyte).
    rewrite Hstep in Hrun.
    destruct (Fill_loop_next more b bit im1 Hbit)
      as (b' & bit' & Heq & Hpos & Hbit' & Hsame).
    rewrite Heq in Hrun.
    rewrite (IH b' bit' im1 im' Hbit'); [| |
      |exact Hrun|lia].
    + replace (8 * b' + bit' + length more)%nat
        with (8 * b + bit + S (length more))%nat by lia.
      destruct (Nat.ltb_spec r (8 * ((8 * b + bit + S (length more) + 7) / 8)));
        [done|].
      unfold included. rewrite Hother by lia. done.
    + rewrite Hlen1. lia.
    + intros Hne k Hk. destruct (Hsame Hne) as [-> ->].
      rewrite Hbyte by lia.
      assert ((Z.of_nat k =? Z.of_nat (7 - bit)) = false) as ->
        by (apply Z.eqb_neq; lia).
      destruct (Nat.eqb_spec bit 0); [done|]. apply Hclear; [done|lia].
Qed.

(** X4: When the mask has at least as many bits as values are received and
    Count is a uint64, Fill does not panic and keeps the number of mask bytes;
    afterwards IsIncluded(r) is the r-th value received for r below their
    number, false for the padding bits up to the end of the last byte written,
    and what it was before the call beyond that byte. *)
Theorem Fill_IsIncluded (im : InclusionMask) (inclusion : list bool) :
  (length inclusion ≤ 8 * length (Mask im))%nat →
  0 ≤ Count im < 2 ^ 64 →
  ∃ im',
    Fill im inclusion = Some im'
    ∧ length (Mask im') = length (Mask im)
    ∧ ∀ r, IsIncluded im' r
           = if (r <? length inclusion)%nat then inclusion !! r
             else if (r <? 8 * ((length inclusion + 7) / 8))%nat then Some false
             else IsIncluded im r.
Proof.
  intros Hlen Hcount.
  destruct (Fill_spec im inclusion) as (im' & Hfill & Hlen' & _ & Hbits);
    [lia|done|].
  exists im'. split; [done|]. split; [done|]. intros r.
  destruct (Nat.ltb_spec r (length inclusion)) as [Hr|Hr].
  - destruct (lookup_lt_is_Some_2 inclusion r Hr) as [x Hx].
    rewrite Hx. by apply Hbits.
  - assert (included im' r
            = if (r <? 8 * ((length inclusion + 7) / 8))%nat then false
              else included im r) as Hbeyond.
    { rewrite (Fill_loop_beyond inclusion 0 0 im im'); [done|lia|lia| |done|lia].
      intros Hne. by destruct Hne. }
    destruct (Nat.ltb_spec r (8 * ((length inclusion + 7) / 8))) as [Hpad|Hpad].
    + rewrite IsIncluded_included by lia. by rewrite Hbeyond.
    + destruct (decide (r / 8 < length (Mask im))%nat) as [Hin|Hout].
      * rewrite !IsIncluded_included by lia. by rewrite Hbeyond.
      * unfold IsIncluded. rewrite !lookup_ge_None_2 by lia. done.
Qed.

Lemma Fill_loop_app (l1 l2 : list bool) :
  ∀ (b bit : nat) (im : InclusionMask),
    (bit < 8)%nat →
    Fill_loop (l1 ++ l2) b bit im
    = let? im1 := Fill_loop l1 b bit im in
      Fill_loop l2 ((8 * b + bit + length l1) / 8)%nat
        ((8 * b + bit + length l1) mod 8)%nat im1.
Proof.
  induction l1 as [|x l1 IH]; intros b bit im Hbit.
  - cbn [app Fill_loop length]. f_equal; lia.
  - cbn [app Fill_loop length].
    destruct (Fill_step x b bit im) as [im1|]; [|done].
    destruct (Nat.ltb_spec 7 (bit + 1)).
    + rewrite IH by lia. destruct (Fill_loop l1 (b + 1) 0 im1); [|done].
      f_equal; lia.
    + rewrite IH by lia. destruct (Fill_loop l1 b (bit + 1) im1); [|done].
      f_equal; lia.
Qed.

(** X5: With Count a uint64, Fill panics exactly when it receives more values
    than the mask has bits, eight per mask byte. *)
Theorem Fill_panics_iff (im : InclusionMask) (inclusion : list bool) :
  0 ≤ Count im < 2 ^ 64 →
  Fill im inclusion = None ↔ (8 * length (Mask im) < length inclusion)%nat.
Proof.
  intros Hcount. split.
  - intros Hnone.
    destruct (Nat.lt_ge_cases (8 * length (Mask im)) (length inclusion))
      as [|Hle]; [done|].
    destruct (Fill_spec im inclusion) as (im' & Hfill & _); [lia|done|].
    congruence.
  - intros Hlong. unfold Fill.
    rewrite <- (take_drop (8 * length (Mask im)) inclusion).
    rewrite Fill_loop_app by lia.
    destruct (Fill_loop (take _ inclusion) 0 0 im) as [im1|] eqn:Hrun; [|done].
    assert (length (Mask im1) = length (Mask im)) as Hlen1.
    { destruct (Fill_spec im (take (8 * length (Mask im)) inclusion))
        as (im' & Hfill & Hlen' & _); [rewrite length_take; lia|done|].
      unfold Fill in Hfill. congruence. }
    assert (length (take (8 * length (Mask im)) inclusion)
            = (8 * length (Mask im))%nat) as -> by (rewrite length_take; lia).
    replace ((8 * 0 + 0 + 8 * length (Mask im)) / 8)%nat
      with (length (Mask im1)) by lia.
    replace ((8 * 0 + 0 + 8 * length (Mask im)) mod 8)%nat with 0%nat by lia.
    destruct (drop (8 * length (Mask im)) inclusion) as [|x rest] eqn:Hdrop.
    { apply (f_equal length) in Hdrop. rewrite length_drop in Hdrop.
      cbn in Hdrop. lia. }
    cbn [Fill_loop]. unfold Fill_step. cbn [Nat.eqb].
    unfold store. rewrite decide_False by lia. done.
Qed.

(** ** More on [KNearest] *)

(** X6: On the index that NewKnn builds, with a mask of at least one bit per
    record, a record i in range and a buffer of at least one slot, KNearest
    does not panic, leaves the buffer beyond the returned count as it was, and
    every neighbour it returns is at most as far from i as any included record
    other than i that it does not return. *)
Theorem KNearest_nearest_first `{SortSlice} (db : Database) (knn : Knn)
    (im : InclusionMask) (i : nat) (out : list nat) :
  NewKnn db = Some knn →
  ((length (Employees db) + 7) / 8 ≤ length (Mask im))%nat →
  (i < length (Employees db))%nat →
  (1 ≤ length out)%nat →
  ∃ out' count,
    KNearest knn im i out = Some (out', count)
    ∧ drop count out' = drop count out
    ∧ ∀ near far,
        near ∈ take count out' →
        (far < length (Employees db))%nat → far ≠ i →
        IsIncluded im far = Some true → far ∉ take count out' →
        dist db i near ≤ dist db i far.
Proof.
  intros Hknn Hmask Hi Hout.
  pose proof (knn_index db knn Hknn) as Hindex.
  rewrite (KNearest_nearest db knn im Hindex Hmask i out Hi Hout). cbn zeta.
  set (found := nearest im (row_of knn i) (length out)).
  eexists _, _. split; [done|].
  rewrite take_app_length, drop_app_length. split; [done|].
  intros near far Hnear Hfar Hne Hinc Hnot.
  destruct (row_of_index db knn Hindex i Hi) as (_ & Hperm & Hsorted).
  rewrite (included_in_range db im Hmask far Hfar) in Hinc.
  injection Hinc as Hinc.
  set (f := filter (λ j, included im j = true) (row_of knn i)) in *.
  assert (far ∈ f) as Hf.
  { apply list_elem_of_filter. split; [done|]. rewrite Hperm.
    apply list_elem_of_filter. split; [done|]. apply elem_of_seq. lia. }
  assert (StronglySorted (nearer db i) f) as Hfs.
  { eapply StronglySorted_sublist; [apply sublist_filter|done]. }
  unfold found, nearest in Hnear, Hnot. fold f in Hnear, Hnot.
  rewrite <- (take_drop (length out) f) in Hf, Hfs.
  apply elem_of_app in Hf as [Hf|Hf]; [done|].
  apply (StronglySorted_app_1_elem_of _ _ _ _ _ Hfs Hnear Hf).
Qed.

(** X7: On the index that NewKnn builds, with a mask of at least one bit per
    record and a record in range, the neighbours that KNearest returns into a
    shorter buffer (of at least one slot) are the first of those it returns
    into a longer buffer: asking for fewer neighbours gives a prefix of the
    answer for more. *)
Theorem KNearest_prefix `{SortSlice} (db : Database) (knn : Knn)
    (im : InclusionMask) (i : nat) (out1 out2 : list nat) :
  NewKnn db = Some knn →
  ((length (Employees db) + 7) / 8 ≤ length (Mask im))%nat →
  (i < length (Employees db))%nat →
  (1 ≤ length out1 ≤ length out2)%nat →
  ∃ out1' count1 out2' count2,
    KNearest knn im i out1 = Some (out1', count1)
    ∧ KNearest knn im i out2 = Some (out2', count2)
    ∧ take count1 out1' = take (length out1) (take count2 out2').
Proof.
  intros Hknn Hmask Hi Hout.
  pose proof (knn_index db knn Hknn) as Hindex.
  rewrite !(KNearest_nearest db knn im Hindex Hmask i) by (done || lia).
  cbn zeta. eexists _, _, _, _. split; [done|]. split; [done|].
  rewrite !take_app_length. unfold nearest. rewrite take_take.
  f_equal. lia.
Qed.

(** ** The index does not depend on the sort when there are no ties *)

Lemma dist_self (db : Database) (i : nat) : dist db i i = 0.
Proof.
  unfold dist. destruct (Employees db !! i) as [e|]; [|done].
  unfold Distance. rewrite Z.ltb_irrefl, Z.sub_diag. done.
Qed.

Lemma tie_free_entries (db : Database) (i : nat) :
  tie_free db → (i < length (Employees db))%nat →
  NoDup (distance <$> entries db i).
Proof.
  intros Hfree Hi. unfold entries. rewrite <- list_fmap_compose.
  apply NoDup_fmap_2_strong; [|apply NoDup_seq].
  intros j k Hj Hk Heq. apply elem_of_seq in Hj, Hk. cbn in Heq.
  destruct (decide (j = k)) as [|Hne]; [done|]. exfalso.
  apply (Hfree i j k); [lia..|done|].
  destruct (Nat.eqb_spec i j) as [<-|], (Nat.eqb_spec i k) as [<-|];
    rewrite ?dist_self; congruence.
Qed.

(** X8: When no two records are at the same distance from a third record, the
    neighbour index that NewKnn builds is the same for every sort that meets
    the contract of sort.Slice. *)
Theorem NewKnn_sort_independent (S1 S2 : SortSlice) (db : Database) :
  tie_free db → @NewKnn S1 db = @NewKnn S2 db.
Proof.
  intros Hfree.
  rewrite (@NewKnn_tie_free S1), (@NewKnn_tie_free S2);
    [done|intros i Hi; by apply tie_free_entries..].
Qed.

Lemma tie_free_db4 : tie_free db4.
Proof.
  intros i j k Hi Hj Hk Hne. cbn in Hi, Hj, Hk.
  do 4 (destruct i as [|i]; [
    do 4 (destruct j as [|j]; [
      do 4 (destruct k as [|k]; [by (done || vm_compute)|]); lia|]); lia|]).
  lia.
Qed.

Lemma NewKnn_sort_independent_witness :
  @NewKnn insertion_sort_Slice db4 = @NewKnn reversing_sort_Slice db4.
Proof. apply NewKnn_sort_independent, tie_free_db4. Defined.

(** ** The scorer on a mask with no record or one record *)

Lemma for_range_app {S} (body : nat → S → option S) (l1 l2 : list nat) (s : S) :
  for_range body (l1 ++ l2) s
  = let? s1 := for_range body l1 s in for_range body l2 s1.
Proof.
  revert s. induction l1 as [|i l1 IH]; intros s; [done|].
  cbn [app for_range]. destruct (body i s); [apply IH|done].
Qed.

Lemma for_range_skip {S} (body : nat → S → option S) (l : list nat) (s : S) :
  (∀ i, i ∈ l → body i s = Some s) → for_range body l s = Some s.
Proof.
  induction l as [|i l IH]; intros Hbody; [done|].
  cbn [for_range]. rewrite Hbody by (by left).
  apply IH. intros j Hj. apply Hbody. by right.
Qed.

Lemma population_0_excluded (db : Database) (im : InclusionMask) (i : nat) :
  population db im = 0%nat → (i < length (Employees db))%nat →
  included im i = false.
Proof.
  unfold population. intros Hpop Hi. apply nil_length_inv in Hpop.
  destruct (included im i) eqn:Hinc; [|done].
  assert (i ∈ filter (λ i, included im i = true) (seq 0 (length (Employees db))))
    as Hin by (apply list_elem_of_filter; split; [done|apply elem_of_seq; lia]).
  rewrite Hpop in Hin. by apply elem_of_nil in Hin.
Qed.

(** The only record of a mask that includes one record. *)
Lemma population_1_single (db : Database) (im : InclusionMask) :
  population db im = 1%nat →
  ∃ m, (m < length (Employees db))%nat ∧ included im m = true
       ∧ ∀ j, (j < length (Employees db))%nat → j ≠ m → included im j = false.
Proof.
  unfold population. intros Hpop.
  destruct (filter _ _) as [|m [|m' l]] eqn:Hf; try done.
  assert (∀ j, j ∈ filter (λ i, included im i = true)
                     (seq 0 (length (Employees db))) ↔ j = m) as Hin.
  { intros j. rewrite Hf. rewrite list_elem_of_singleton. done. }
  exists m. pose proof (proj2 (Hin m) eq_refl) as Hm.
  apply list_elem_of_filter in Hm as [Hinc Hm]. apply elem_of_seq in Hm.
  split; [lia|]. split; [done|].
  intros j Hj Hne. destruct (included im j) eqn:Hincj; [|done].
  destruct Hne. apply Hin. apply list_elem_of_filter.
  split; [done|apply elem_of_seq; lia].
Qed.

Lemma KNearest_loop_none (im : InclusionMask) (row out : list nat) (v : nat) :
  Forall (in_mask_range im) row →
  Forall (λ j, included im j = false) row →
  KNearest_loop im row out v = Some (out, v).
Proof.
  induction row as [|j row IH]; intros Hrange Hnone; [done|].
  apply Forall_cons in Hrange as [Hj Hrange].
  apply Forall_cons in Hnone as [Hjn Hnone].
  cbn [KNearest_loop]. rewrite IsIncluded_included, Hjn by done. cbn.
  by apply IH.
Qed.

Section Edges.
Context {F : Type} `{FloatOps F} {V : Type}.

(** The three passes skip the records that the mask excludes. *)
Lemma Lof_FindOutliers_skips (lof : Lof F) (cache : LofCache F)
    (im : InclusionMask) (outlierHandler : OutlierHandler V) (v : V) (n : nat) :
  cache_sized n cache →
  (∀ i, (i < n)%nat → IsIncluded im i = Some false) →
  Lof_FindOutliers lof cache im outlierHandler v = Some (cache, v).
Proof.
  intros (Hn1 & Hn2 & Hn3) Hskip.
  unfold Lof_FindOutliers, computeCoreDistances, computeLrds, computeLofs.
  rewrite for_range_skip.
  2:{ intros i Hi. apply elem_of_seq in Hi. unfold computeCoreDistances_body.
      rewrite Hskip by lia. done. }
  rewrite for_range_skip.
  2:{ intros i Hi. apply elem_of_seq in Hi. unfold computeLrds_body.
      rewrite Hskip by lia. done. }
  assert (∀ l, Forall (λ i, (i < n)%nat) l →
            computeLofs_loop lof cache im outlierHandler l v = Some v) as Hloop.
  { induction l as [|i l IH]; intros Hall; [done|].
    apply Forall_cons in Hall as [Hi Hall]. cbn [computeLofs_loop].
    rewrite Hskip by done. cbn. by apply IH. }
  rewrite Hloop; [done|].
  rewrite Forall_forall. intros i Hi. apply elem_of_seq in Hi. lia.
Qed.

(** X9: When the mask includes no record (the cache slices having one entry
    per record and the mask one bit per record or more), Lof.FindOutliers does
    not panic, leaves the cache exactly as it was and does not call the
    handler. *)
Theorem Lof_FindOutliers_empty_mask (lof : Lof F) (cache : LofCache F)
    (im : InclusionMask) (outlierHandler : OutlierHandler V) (v : V) :
  let n := length (Employees (Lof_Db lof)) in
  cache_sized n cache →
  ((n + 7) / 8 ≤ length (Mask im))%nat →
  population (Lof_Db lof) im = 0%nat →
  Lof_FindOutliers lof cache im outlierHandler v = Some (cache, v).
Proof.
  intros n Hsized Hmask Hpop.
  apply (Lof_FindOutliers_skips lof cache im outlierHandler v n Hsized).
  intros i Hi. rewrite IsIncluded_included by (unfold n in *; lia).
  f_equal. by apply (population_0_excluded (Lof_Db lof)).
Qed.

End Edges.

(** The first pass on a mask that includes exactly one record: the record
    has no neighbour, [KNearest] returns 0 and
    [cache.Neighborhoods[i][numNeighbors-1]] is read out of range. *)
Lemma computeCoreDistances_single_record {F : Type} (db : Database) (knn : Knn)
    (lof : Lof F) (cache : LofCache F) (im : InclusionMask) :
  index_of db knn →
  Lof_Db lof = db →
  Neighbors lof = knn →
  cache_sized (length (Employees db)) cache →
  ((length (Employees db) + 7) / 8 ≤ length (Mask im))%nat →
  population db im = 1%nat →
  computeCoreDistances lof cache im = None.
Proof.
  intros Hindex Hdb Hneighbors (Hn1 & Hn2 & Hn3) Hmask Hpop.
  destruct (population_1_single db im Hpop) as (m & Hm & Hinc & Hothers).
  unfold computeCoreDistances. rewrite Hn2.
  replace (length (Employees db)) with (m + S (length (Employees db) - S m))%nat
    at 1 by lia.
  rewrite seq_app, for_range_app. cbn [Nat.add].
  rewrite for_range_skip.
  2:{ intros i Hi. apply elem_of_seq in Hi. unfold computeCoreDistances_body.
      rewrite IsIncluded_included by lia. rewrite Hothers by lia. done. }
  cbn [seq for_range]. unfold computeCoreDistances_body at 1.
  rewrite IsIncluded_included, Hinc by lia. cbn [negb].
  destruct (lookup_lt_is_Some_2 (Neighborhoods cache) m) as [out Hout]; [lia|].
  rewrite Hout, Hneighbors.
  destruct (row_of_index db knn Hindex m Hm) as (Hrow & Hperm & _).
  unfold KNearest. rewrite Hrow.
  pose proof (index_row_range db m _ im Hmask Hperm) as Hrange.
  rewrite KNearest_loop_none.
  - cbn [take]. rewrite store_Some by lia. done.
  - eapply Forall_impl; [exact Hrange|]. by intros j (_ & _ & Hj).
  - eapply Forall_impl; [exact Hrange|]. intros j (Hj & Hne & _).
    by apply Hothers.
Qed.

(** X10: When the mask includes exactly one record, Lof.FindOutliers panics,
    whatever the cache and the handler: KNearest finds no neighbour for the
    record and computeCoreDistances indexes its neighbour list at
    numNeighbors-1. *)
Theorem Lof_FindOutliers_single_record_panics `{SortSlice} {F V : Type}
    `{FloatOps F} (db : Database) (knn : Knn) (k : nat) (threshold : F)
    (cache : LofCache F) (im : InclusionMask)
    (outlierHandler : OutlierHandler V) (v : V) :
  NewKnn db = Some knn →
  cache_sized (length (Employees db)) cache →
  ((length (Employees db) + 7) / 8 ≤ length (Mask im))%nat →
  population db im = 1%nat →
  Lof_FindOutliers (NewLof db knn k threshold) cache im outlierHandler v = None.
Proof.
  intros Hknn Hsized Hmask Hpop. unfold Lof_FindOutliers.
  by rewrite (computeCoreDistances_single_record db knn
                (NewLof db knn k threshold) cache im
                (knn_index db knn Hknn) eq_refl eq_refl Hsized Hmask Hpop).
Qed.

Lemma Lof_FindOutliers_empty_mask_witness :
  Lof_FindOutliers lof4 (NewThreadCache lof4) {| Mask := [0]; Count := 0 |}
    collect []
  = Some (NewThreadCache lof4, []).
Proof.
  apply (Lof_FindOutliers_empty_mask lof4 (NewThreadCache lof4)
           {| Mask := [0]; Count := 0 |} collect []).
  - repeat split.
  - vm_compute. lia.
  - reflexivity.
Defined.

Lemma Lof_FindOutliers_single_record_panics_witness :
  Lof_FindOutliers lof4 (NewThreadCache lof4) {| Mask := [32]; Count := 1 |}
    collect []
  = None.
Proof.
  apply (Lof_FindOutliers_single_record_panics db4 knn4 2 1.5%float
           (NewThreadCache lof4) {| Mask := [32]; Count := 1 |} collect []).
  - reflexivity.
  - repeat split.
  - vm_compute. lia.
  - reflexivity.
Defined.

(** ** What the scorer leaves of the records the mask excludes *)

(** X11: When the mask includes two records or more and every neighbour buffer
    of the cache has a slot, Lof.FindOutliers does not panic; it leaves the
    neighbour buffer, core distance and density of every excluded record as
    they were, and the core distance it stores for an included record is the
    distance to the last neighbour in the record's stored neighbour list. *)
Theorem Lof_FindOutliers_excluded_untouched `{SortSlice} {F V : Type}
    `{FloatOps F} (db : Database) (knn : Knn) (k : nat) (threshold : F)
    (cache : LofCache F) (im : InclusionMask)
    (outlierHandler : OutlierHandler V) (v : V) :
  NewKnn db = Some knn →
  cache_sized (length (Employees db)) cache →
  Forall (λ b, (1 ≤ length b)%nat) (Neighborhoods cache) →
  length (Mask im) = ((length (Employees db) + 7) / 8)%nat →
  (2 ≤ population db im)%nat →
  ∃ cache' v',
    Lof_FindOutliers (NewLof db knn k threshold) cache im outlierHandler v
    = Some (cache', v')
    ∧ (∀ i, IsIncluded im i = Some false →
         Neighborhoods cache' !! i = Neighborhoods cache !! i
         ∧ CoreDistance cache' !! i = CoreDistance cache !! i
         ∧ LocalReachabilityDensities cache' !! i
           = LocalReachabilityDensities cache !! i)
    ∧ (∀ i neighborhood, (i < length (Employees db))%nat →
         IsIncluded im i = Some true →
         Neighborhoods cache' !! i = Some neighborhood →
         ∃ furthest, last neighborhood = Some furthest
           ∧ CoreDistance cache' !! i = Some (dist db i furthest)).
Proof.
  intros Hknn Hsized Hslots Hmask Hpop.
  pose proof (knn_index db knn Hknn) as Hindex.
  pose proof (mask_covers db im Hmask) as Hcovers.
  pose proof (cache_ready db knn cache im Hknn Hsized Hslots Hmask Hpop) as Hready.
  rewrite (Lof_FindOutliers_spec db knn (NewLof db knn k threshold) im
             Hindex eq_refl eq_refl Hcovers cache outlierHandler v Hsized Hready).
  eexists _, _. split; [done|]. pose proof Hsized as (Hn1 & Hn2 & Hn3).
  split.
  - intros i Hi. unfold IsIncluded in Hi.
    destruct (Mask im !! (i / 8)%nat) as [byte|] eqn:Hbyte; [|done].
    assert (included im i = false) as Hinc.
    { pose proof (IsIncluded_included im i) as Heq.
      unfold IsIncluded in Heq. rewrite Hbyte in Heq.
      rewrite Heq in Hi by (by eapply lookup_lt_Some). by injection Hi. }
    unfold scored, lrd_update, core_update.
    cbn [Neighborhoods CoreDistance LocalReachabilityDensities].
    rewrite !list_lookup_imap.
    destruct (Neighborhoods cache !! i), (CoreDistance cache !! i),
      (LocalReachabilityDensities cache !! i); cbn; by rewrite ?Hinc.
  - intros i neighborhood Hi Hinci Hnb.
    rewrite IsIncluded_included in Hinci by lia. injection Hinci as Hinci.
    unfold scored, lrd_update, core_update in Hnb |- *.
    cbn [Neighborhoods CoreDistance LocalReachabilityDensities] in Hnb |- *.
    rewrite list_lookup_imap in Hnb. rewrite list_lookup_imap.
    destruct (lookup_lt_is_Some_2 (Neighborhoods cache) i) as [old Hold]; [lia|].
    destruct (lookup_lt_is_Some_2 (CoreDistance cache) i) as [oldc Holdc]; [lia|].
    rewrite Hold in Hnb. rewrite Holdc. cbn in Hnb |- *.
    rewrite Hinci in Hnb |- *. injection Hnb as <-.
    destruct (Hready i Hi Hinci) as [_ Hne].
    unfold core_distance_of, neighborhood_of, buffer in Hne |- *.
    rewrite Hold in Hne |- *. cbn [default from_option id] in Hne |- *.
    destruct (last (nearest im (row_of knn i) (length old))) as [furthest|] eqn:Hl.
    + by exists furthest.
    + by apply last_None in Hl.
Qed.


(** ** The wrapper [FindOutliers] *)

Lemma population_selects (sel : Employee → bool) (g : nat → bool)
    (l : list Employee) :
  ∀ a,
    (∀ r e, l !! r = Some e → g (a + r)%nat = sel e) →
    length (filter (λ i, g i = true) (seq a (length l)))
    = length (filter (λ e, sel e = true) l).
Proof.
  induction l as [|e l IH]; intros a Hg; [done|].
  pose proof (Hg 0%nat e eq_refl) as He. rewrite Nat.add_0_r in He.
  cbn [length seq]. rewrite !filter_cons, He.
  assert (length (filter (λ i, g i = true) (seq (S a) (length l)))
          = length (filter (λ e, sel e = true) l)) as Hrest.
  { apply IH. intros r x Hx. rewrite <- (Hg (S r) x Hx). f_equal. lia. }
  destruct (sel e).
  - rewrite !decide_True by done. cbn [length]. by rewrite Hrest.
  - rewrite !decide_False by done. done.
Qed.

(** The mask [FindOutliers] builds for a context, whatever the mask held. *)
Lemma FindOutliers_mask (db : Database) (im : InclusionMask) (ctx : Context) :
  well_formed db →
  context_for db ctx →
  ((length (Employees db) + 7) / 8 ≤ length (Mask im))%nat →
  0 ≤ Count im < 2 ^ 64 →
  ∃ inclusion im',
    Filter db (EmployersIncluded ctx) (JobTitlesIncluded ctx) (YearsIncluded ctx)
    = Some inclusion
    ∧ Fill im inclusion = Some im'
    ∧ length (Mask im') = length (Mask im)
    ∧ (∀ r e, Employees db !! r = Some e → included im' r = ctx_selects ctx e)
    ∧ population db im' = context_population db ctx
    ∧ Count im' = wrap 64 (Count im + Z.of_nat (context_population db ctx)).
Proof.
  intros Hwf (HE & HJ & HY) Hmask Hcount.
  assert (Filter db (EmployersIncluded ctx) (JobTitlesIncluded ctx)
            (YearsIncluded ctx)
          = Some (ctx_selects ctx <$> Employees db)) as Hfilter.
  { apply Filter_selects. unfold well_formed in Hwf. by rewrite HE, HJ, HY. }
  destruct (Fill_after_Filter db im _ _ _ _ Hfilter Hmask Hcount)
    as (im' & Hfill & Hbits & Hc).
  destruct (Fill_spec im (ctx_selects ctx <$> Employees db))
    as (im'' & Hfill' & Hlen & _); [by rewrite length_fmap|done|].
  rewrite Hfill in Hfill'. injection Hfill' as <-.
  assert (∀ r e, Employees db !! r = Some e → included im' r = ctx_selects ctx e)
    as Hinc.
  { intros r e He. specialize (Hbits r e He).
    rewrite IsIncluded_included in Hbits
      by (apply lookup_lt_Some in He; lia).
    unfold well_formed, well_indexed in Hwf. rewrite Forall_forall in Hwf.
    destruct (Hwf e) as (H1 & H2 & H3); [by eapply list_elem_of_lookup_2|].
    rewrite Filter_valid_selects in Hbits by lia. by injection Hbits. }
  assert (population db im' = context_population db ctx) as Hpop.
  { unfold population, context_population.
    by apply (population_selects (ctx_selects ctx) (included im') _ 0). }
  eexists _, im'. rewrite <- Hpop. done.
Qed.

Lemma head_filter_seq (p : nat → bool) (n i : nat) :
  head (List.filter p (seq 0 n)) = Some i
  ↔ (i < n)%nat ∧ p i = true ∧ ∀ j, (j < i)%nat → p j = false.
Proof.
  assert (∀ a, head (List.filter p (seq a n)) = Some i
            ↔ (a ≤ i < a + n)%nat ∧ p i = true
              ∧ ∀ j, (a ≤ j < i)%nat → p j = false) as Hgen.
  { induction n as [|n IH]; intros a.
    - cbn. split; [done|lia].
    - cbn [seq List.filter]. destruct (p a) eqn:Hpa.
      + cbn. split.
        * intros [= <-]. split; [lia|]. split; [done|]. lia.
        * intros (Hi & Hpi & Hmin). f_equal.
          destruct (decide (a = i)) as [|Hne]; [done|].
          rewrite Hmin in Hpa by lia. done.
      + rewrite IH. split.
        * intros (Hi & Hpi & Hmin). split; [lia|]. split; [done|].
          intros j Hj. destruct (decide (j = a)) as [->|]; [done|].
          apply Hmin. lia.
        * intros (Hi & Hpi & Hmin).
          assert (a ≠ i) by congruence.
          split; [lia|]. split; [done|]. intros j Hj. apply Hmin. lia. }
  rewrite Hgen. split; intros (? & ? & Hmin); (split; [lia|]);
    (split; [done|]); intros j Hj; apply Hmin; lia.
Qed.

Section WrapperRuns.
Context `{SortSlice} {F : Type} `{FloatOps F} {V : Type}.
Variables (db : Database) (knn : Knn) (k : nat) (threshold : F).
Variables (cache : LofCache F) (im : InclusionMask) (ctx : Context).
Hypothesis Hknn : NewKnn db = Some knn.
Hypothesis Hwf : well_formed db.
Hypothesis Hctx : context_for db ctx.
Hypothesis Hsized : cache_sized (length (Employees db)) cache.
Hypothesis Hslots : Forall (λ b, (1 ≤ length b)%nat) (Neighborhoods cache).
Hypothesis Hmask : length (Mask im) = ((length (Employees db) + 7) / 8)%nat.
Hypothesis Hcount : 0 ≤ Count im < 2 ^ 64.

(** What the wrapper does once the minimum is reached, by the population of the
    context. *)
Lemma FindOutliers_run (outlierHandler : OutlierHandler V) (v : V) :
  ∃ im',
    length (Mask im') = length (Mask im)
    ∧ (∀ r e, Employees db !! r = Some e → included im' r = ctx_selects ctx e)
    ∧ population db im' = context_population db ctx
    ∧ Count im' = wrap 64 (Count im + Z.of_nat (context_population db ctx))
    ∧ FindOutliers db (NewLof db knn k threshold) cache im ctx outlierHandler v
      = if Count im' <? MinPopulationSize then Some (im', cache, v)
        else match context_population db ctx with
             | 0%nat => Some (im', cache, v)
             | 1%nat => None
             | _ => Some (im', scored db knn im' cache,
                          visit outlierHandler
                            (reported (NewLof db knn k threshold)
                               (scored db knn im' cache) im'
                               (seq 0 (length (Employees db)))) v)
             end.
Proof using All.
  destruct (FindOutliers_mask db im ctx Hwf Hctx) as
    (inclusion & im' & Hfilter & Hfill & Hlen & Hbits & Hpop & Hc);
    [lia|done|].
  exists im'. split; [done|]. split; [done|]. split; [done|]. split; [done|].
  unfold FindOutliers. rewrite Hfilter, Hfill.
  destruct (Count im' <? MinPopulationSize); [done|].
  assert (length (Mask im') = ((length (Employees db) + 7) / 8)%nat) as Hmask'
    by lia.
  rewrite <- Hpop.
  destruct (population db im') as [|[|p]] eqn:Hp.
  - rewrite (Lof_FindOutliers_skips _ cache im' outlierHandler v
               (length (Employees db)) Hsized); [done|].
    intros i Hi. rewrite IsIncluded_included by lia.
    f_equal. by apply (population_0_excluded db).
  - unfold Lof_FindOutliers.
    by rewrite (computeCoreDistances_single_record db knn
                  (NewLof db knn k threshold) cache im'
                  (knn_index db knn Hknn) eq_refl eq_refl Hsized
                  (mask_covers db im' Hmask') Hp).
  - rewrite (Lof_FindOutliers_spec db knn (NewLof db knn k threshold) im'
               (knn_index db knn Hknn) eq_refl eq_refl
               (mask_covers db im' Hmask') cache outlierHandler v Hsized).
    + done.
    + apply cache_ready; (done || lia).
Qed.

End WrapperRuns.

(** X12: On a mask with Count = 0, as NewInclusionMask makes it, the wrapper
    FindOutliers does not panic: it fills the mask with the selection of the
    context and sets Count to the population; with fewer than 20 selected
    records the cache and the handler's state stay as they were, with 20 or
    more the handler is called on the records that the scorer reports. *)
Theorem FindOutliers_fresh_mask `{SortSlice} {F V : Type} `{FloatOps F}
    (db : Database) (knn : Knn) (k : nat) (threshold : F)
    (cache : LofCache F) (im : InclusionMask) (ctx : Context)
    (outlierHandler : OutlierHandler V) (v : V) :
  NewKnn db = Some knn →
  well_formed db →
  context_for db ctx →
  cache_sized (length (Employees db)) cache →
  Forall (λ b, (1 ≤ length b)%nat) (Neighborhoods cache) →
  length (Mask im) = ((length (Employees db) + 7) / 8)%nat →
  Count im = 0 →
  Z.of_nat (length (Employees db)) < 2 ^ 64 →
  let lof := NewLof db knn k threshold in
  let pop := context_population db ctx in
  ∃ im' cache' v',
    FindOutliers db lof cache im ctx outlierHandler v = Some (im', cache', v')
    ∧ Count im' = Z.of_nat pop
    ∧ (∀ r e, Employees db !! r = Some e →
         IsIncluded im' r = Some (ctx_selects ctx e))
    ∧ ((pop < 20)%nat → cache' = cache ∧ v' = v)
    ∧ ((20 ≤ pop)%nat →
         v' = visit outlierHandler
                (reported lof cache' im' (seq 0 (length (Employees db)))) v).
Proof.
  intros Hknn Hwf Hctx Hsized Hslots Hmask Hzero Hn lof pop.
  destruct (FindOutliers_run db knn k threshold cache im ctx Hknn Hwf Hctx
              Hsized Hslots Hmask ltac:(lia) outlierHandler v)
    as (im' & Hlen & Hbits & Hpop & Hc & Hrun).
  assert (pop ≤ length (Employees db))%nat as Hle
    by apply length_filter.
  assert (Count im' = Z.of_nat pop) as Hcount'.
  { rewrite Hc, Hzero. apply wrap_small. fold pop. lia. }
  assert (∀ r e, Employees db !! r = Some e →
            IsIncluded im' r = Some (ctx_selects ctx e)) as Hinc.
  { intros r e He. rewrite IsIncluded_included
      by (apply lookup_lt_Some in He; lia).
    f_equal. by apply Hbits. }
  fold lof pop in Hrun. rewrite Hrun, Hcount'. unfold MinPopulationSize.
  destruct (Z.ltb_spec (Z.of_nat pop) 20) as [Hlow|Hhigh].
  - eexists _, _, _. split; [done|]. split; [done|]. split; [done|].
    split; [done|lia].
  - destruct pop as [|[|p]] eqn:Hp; [lia|lia|].
    eexists _, _, _. split; [done|]. split; [done|]. split; [done|].
    split; [lia|done].
Qed.

(** X13: On a mask whose Count an earlier call left at 20 or more, the
    minimum-population test of the wrapper FindOutliers never stops a call: a
    context that selects exactly one record makes the wrapper panic, and a
    context that selects two records or more is scored and reported however
    small it is, Count growing by its population. *)
Theorem FindOutliers_reused_mask_runs `{SortSlice} {F V : Type} `{FloatOps F}
    (db : Database) (knn : Knn) (k : nat) (threshold : F)
    (cache : LofCache F) (im : InclusionMask) (ctx : Context)
    (outlierHandler : OutlierHandler V) (v : V) :
  NewKnn db = Some knn →
  well_formed db →
  context_for db ctx →
  cache_sized (length (Employees db)) cache →
  Forall (λ b, (1 ≤ length b)%nat) (Neighborhoods cache) →
  length (Mask im) = ((length (Employees db) + 7) / 8)%nat →
  MinPopulationSize ≤ Count im →
  Count im + Z.of_nat (length (Employees db)) < 2 ^ 64 →
  let lof := NewLof db knn k threshold in
  let pop := context_population db ctx in
  (pop = 1%nat → FindOutliers db lof cache im ctx outlierHandler v = None)
  ∧ ((2 ≤ pop)%nat →
       ∃ im' cache' v',
         FindOutliers db lof cache im ctx outlierHandler v
         = Some (im', cache', v')
         ∧ Count im' = Count im + Z.of_nat pop
         ∧ v' = visit outlierHandler
                  (reported lof cache' im' (seq 0 (length (Employees db)))) v).
Proof.
  intros Hknn Hwf Hctx Hsized Hslots Hmask Hfloor Hn lof pop.
  unfold MinPopulationSize in Hfloor.
  destruct (FindOutliers_run db knn k threshold cache im ctx Hknn Hwf Hctx
              Hsized Hslots Hmask ltac:(lia) outlierHandler v)
    as (im' & Hlen & Hbits & Hpop & Hc & Hrun).
  assert (pop ≤ length (Employees db))%nat as Hle
    by apply length_filter.
  assert (Count im' = Count im + Z.of_nat pop) as Hcount'.
  { rewrite Hc. apply wrap_small. fold pop. lia. }
  fold lof pop in Hrun. rewrite Hrun, Hcount'. unfold MinPopulationSize.
  destruct (Z.ltb_spec (Count im + Z.of_nat pop) 20) as [Hlow|Hhigh]; [lia|].
  split.
  - by intros ->.
  - intros Htwo. destruct pop as [|[|p]] eqn:Hp; [lia|lia|].
    eexists _, _, _. split; [done|]. split; [done|]. done.
Qed.

Lemma visit_baseline_handler {F : Type} (reports : list (nat * F))
    (orig : option nat * F) :
  visit baseline_handler reports orig
  = match reports with
    | [] => orig
    | (i, score) :: _ => (Some i, score)
    end.
Proof. by destruct reports as [|[i s] l]. Qed.

(** X14: The baseline search of main does not panic on a well-indexed database
    and a context of its lengths (K at least 1). Below 20 selected records it
    finds nothing; from 20 on it finds exactly the first record, in the order
    of the records, that the context includes and whose score reaches the
    threshold, with that score, and nothing when no included record reaches
    it. *)
Theorem find_original_outlier_first `{SortSlice} {F : Type} `{FloatOps F}
    (db : Database) (knn : Knn) (k : nat) (threshold : F) (ctx : Context) :
  NewKnn db = Some knn →
  well_formed db →
  context_for db ctx →
  (1 ≤ k)%nat →
  Z.of_nat (length (Employees db)) < 2 ^ 64 →
  let lof := NewLof db knn k threshold in
  let pop := context_population db ctx in
  ∃ orig,
    find_original_outlier db lof ctx = Some orig
    ∧ ((pop < 20)%nat → orig = (None, f_zero))
    ∧ ((20 ≤ pop)%nat →
         ∃ im' cache',
           (∀ r e, Employees db !! r = Some e →
              IsIncluded im' r = Some (ctx_selects ctx e))
           ∧ cache' = scored db knn im' (NewThreadCache lof)
           ∧ (∀ i score, orig = (Some i, score) ↔
                (i < length (Employees db))%nat
                ∧ IsIncluded im' i = Some true
                ∧ score = score_of cache' i
                ∧ f_ge score threshold = true
                ∧ ∀ j, (j < i)%nat → IsIncluded im' j = Some true →
                    f_ge (score_of cache' j) threshold = false)
           ∧ (orig = (None, f_zero) ↔
                ∀ j, (j < length (Employees db))%nat →
                  IsIncluded im' j = Some true →
                  f_ge (score_of cache' j) threshold = false)).
Proof.
  intros Hknn Hwf Hctx Hk Hn lof pop.
  destruct (NewThreadCache_sized lof) as [Hsized Hslots].
  assert (Forall (λ b, (1 ≤ length b)%nat) (Neighborhoods (NewThreadCache lof)))
    as Hslots1.
  { eapply Forall_impl; [exact Hslots|]. intros b ->. done. }
  assert (length (Mask (NewInclusionMask db))
          = ((length (Employees db) + 7) / 8)%nat) as Hmask
    by apply length_replicate.
  destruct (FindOutliers_run db knn k threshold (NewThreadCache lof)
              (NewInclusionMask db) ctx Hknn Hwf Hctx Hsized Hslots1 Hmask
              ltac:(done) baseline_handler (None, f_zero))
    as (im' & Hlen & Hbits & Hpop & Hc & Hrun).
  assert (pop ≤ length (Employees db))%nat as Hle
    by apply length_filter.
  assert (Count im' = Z.of_nat pop) as Hcount'.
  { rewrite Hc. cbn [NewInclusionMask Count]. apply wrap_small. fold pop. lia. }
  assert (∀ j, (j < length (Employees db))%nat →
            IsIncluded im' j = Some (included im' j)) as Hinc.
  { intros j Hj. apply IsIncluded_included. lia. }
  unfold find_original_outlier. fold lof pop in Hrun |- *.
  rewrite Hrun, Hcount'. unfold MinPopulationSize.
  destruct (Z.ltb_spec (Z.of_nat pop) 20) as [Hlow|Hhigh].
  { eexists. split; [done|]. split; [done|lia]. }
  destruct pop as [|[|p]] eqn:Hp; [lia|lia|].
  eexists. split; [done|]. split; [lia|]. intros _.
  exists im', (scored db knn im' (NewThreadCache lof)).
  split.
  { intros r e He. rewrite Hinc by (by eapply lookup_lt_Some).
    f_equal. by apply Hbits. }
  split; [done|].
  set (cache' := scored db knn im' (NewThreadCache lof)).
  set (hit := λ i, included im' i && f_ge (score_of cache' i) threshold).
  rewrite visit_baseline_handler. unfold reported.
  change (Threshold lof) with threshold. fold hit.
  pose proof (head_filter_seq hit (length (Employees db))) as Hhead.
  destruct (List.filter hit (seq 0 (length (Employees db)))) as [|i0 rest] eqn:Hf.
  - split.
    + intros i score. split; [done|].
      intros (Hi & Hinci & -> & Hge & _). exfalso.
      assert (In i (List.filter hit (seq 0 (length (Employees db))))) as Hin.
      { apply filter_In. split; [apply in_seq; lia|]. unfold hit.
        rewrite Hinc in Hinci by done. injection Hinci as ->. done. }
      by rewrite Hf in Hin.
    + split; [|done]. intros _ j Hj Hincj.
      rewrite Hinc in Hincj by done. injection Hincj as Hincj.
      destruct (f_ge (score_of cache' j) threshold) eqn:Hge; [|done]. exfalso.
      assert (In j (List.filter hit (seq 0 (length (Employees db))))) as Hin.
      { apply filter_In. split; [apply in_seq; lia|]. unfold hit.
        by rewrite Hincj. }
      by rewrite Hf in Hin.
  - cbn [fmap list_fmap]. pose proof (proj1 (Hhead i0) eq_refl) as (Hi0 & Hp0 & Hmin).
    unfold hit in Hp0. apply andb_true_iff in Hp0 as [Hinc0 Hge0].
    split.
    + intros i score. split.
      * intros [= <- <-]. split; [done|]. split; [by rewrite Hinc, Hinc0|].
        split; [done|]. split; [done|].
        intros j Hj Hincj. specialize (Hmin j Hj). unfold hit in Hmin.
        rewrite Hinc in Hincj by lia. injection Hincj as Hincj.
        by rewrite Hincj in Hmin.
      * intros (Hi & Hinci & -> & Hge & Hleast).
        rewrite Hinc in Hinci by done. injection Hinci as Hinci.
        assert (head (i0 :: rest) = Some i) as Hhi.
        { apply Hhead. split; [done|]. split; [unfold hit; by rewrite Hinci|].
          intros j Hj. unfold hit. destruct (included im' j) eqn:Hincj; [|done].
          cbn. apply Hleast; [done|]. rewrite Hinc by lia. by f_equal. }
        by injection Hhi as ->.
    + split; [done|]. intros Hnone.
      rewrite (Hnone i0 Hi0) in Hge0; [done|]. by rewrite Hinc, Hinc0.
Qed.

(** ** The workers *)

Lemma visit_worker_handler {F : Type} (origOutlier : nat)
    (reports : list (nat * F)) (matches : bool) (outliers : list (nat * F)) :
  visit (worker_handler origOutlier) reports (matches, outliers)
  = (matches || bool_decide (origOutlier ∈ reports.*1), outliers ++ reports).
Proof.
  revert matches outliers.
  induction reports as [|[i s] reports IH]; intros matches outliers.
  - cbn. rewrite bool_decide_eq_false_2 by apply not_elem_of_nil.
    by rewrite orb_false_r, app_nil_r.
  - cbn [visit worker_handler]. rewrite IH. cbn [fmap list_fmap fst].
    rewrite <- app_assoc. cbn [app]. f_equal.
    rewrite <- orb_assoc. f_equal.
    destruct (Nat.eqb_spec i origOutlier) as [->|Hne].
    + rewrite (bool_decide_eq_true_2 (origOutlier ∈ origOutlier :: _));
        [done|by left].
    + cbn. apply bool_decide_ext. rewrite elem_of_cons.
      split; [by right|]. intros [Heq|Hin]; [congruence|done].
Qed.

Lemma total_population_bounds (db : Database) (work : list Context) :
  0 ≤ total_population db work.
Proof.
  induction work as [|c work IH]; [done|].
  unfold total_population in *. cbn [foldr]. lia.
Qed.

Section WorkerProofs.
Context `{SortSlice} {F : Type} `{FloatOps F}.
Variables (db : Database) (knn : Knn) (k : nat) (threshold : F).
Variable origOutlier : nat.
Hypothesis Hknn : NewKnn db = Some knn.
Hypothesis Hwf : well_formed db.


Lemma scored_slots (cache : LofCache F) (im : InclusionMask) :
  cache_sized (length (Employees db)) cache →
  Forall (λ b, (1 ≤ length b)%nat) (Neighborhoods cache) →
  length (Mask im) = ((length (Employees db) + 7) / 8)%nat →
  (2 ≤ population db im)%nat →
  Forall (λ b, (1 ≤ length b)%nat) (Neighborhoods (scored db knn im cache)).
Proof using Hknn.
  intros Hsized Hslots Hmask Hpop. pose proof Hsized as (Hn1 & _).
  apply Forall_lookup_2. intros i b Hb.
  unfold scored in Hb. cbn in Hb. rewrite list_lookup_imap in Hb.
  destruct (Neighborhoods cache !! i) as [old|] eqn:Hold; [|done].
  cbn in Hb. injection Hb as <-.
  pose proof (Forall_lookup_1 _ _ _ _ Hslots Hold) as Hslot.
  destruct (included im i) eqn:Hinc; [|done].
  assert (i < length (Employees db))%nat as Hi
    by (apply lookup_lt_Some in Hold; lia).
  pose proof (neighborhood_length db knn cache im Hknn Hmask i Hi Hinc) as Hlen.
  unfold neighborhood_of, buffer in Hlen. rewrite Hold in Hlen.
  cbn [default from_option id] in Hlen. cbn beta in Hslot. rewrite Hlen. lia.
Qed.

(** One iteration of a worker. *)
Lemma worker_iteration_run (workCtx : Context) (w : Worker F) :
  worker_ready db w →
  context_for db workCtx →
  context_population db workCtx ≠ 1%nat →
  Count (worker_im w) + Z.of_nat (context_population db workCtx) < 2 ^ 64 →
  ∃ w',
    worker_iteration db (NewLof db knn k threshold) origOutlier workCtx w = Some w'
    ∧ worker_ready db w'
    ∧ Count (worker_im w')
      = Count (worker_im w) + Z.of_nat (context_population db workCtx)
    ∧ (∀ r e, Employees db !! r = Some e →
         IsIncluded (worker_im w') r = Some (ctx_selects workCtx e))
    ∧ ∃ reports,
        reports
        = (if (Count (worker_im w') <? MinPopulationSize)
              || (context_population db workCtx =? 0)%nat then []
           else reported (NewLof db knn k threshold) (worker_cache w') (worker_im w')
                  (seq 0 (length (Employees db))))
        ∧ matchingContextChan w'
          = matchingContextChan w
            ++ (if bool_decide (origOutlier ∈ reports.*1)
                then [ {| context := workCtx;
                          popSize := Count (worker_im w');
                          outlierList := reports |} ]
                else []).
Proof using Hknn Hwf.
  intros (Hsized & Hslots & Hmask & Hcount) Hctx Hpop1 Hsum.
  destruct (FindOutliers_run db knn k threshold (worker_cache w) (worker_im w)
              workCtx Hknn Hwf Hctx Hsized Hslots Hmask ltac:(lia)
              (worker_handler origOutlier) (false, []))
    as (im' & Hlen & Hbits & Hpop & Hc & Hrun).
  rewrite wrap_small in Hc by lia.
  assert (∀ r e, Employees db !! r = Some e →
            IsIncluded im' r = Some (ctx_selects workCtx e)) as Hinc.
  { intros r e He. rewrite IsIncluded_included
      by (apply lookup_lt_Some in He; lia).
    f_equal. by apply Hbits. }
  unfold worker_iteration. rewrite Hrun.
  destruct (Count im' <? MinPopulationSize) eqn:Hfloor.
  { eexists. split; [done|].
    cbn [worker_cache worker_im matchingContextChan]. rewrite Hfloor.
    cbn [orb]. split; [split; [done|split; [done|split; cbn [worker_im]; lia]]|]. split; [lia|].
    split; [done|]. exists []. split; [done|]. cbn [fmap list_fmap].
    rewrite bool_decide_eq_false_2 by apply not_elem_of_nil.
    by rewrite app_nil_r. }
  destruct (context_population db workCtx) as [|[|p]] eqn:Hp; [|done|].
  { eexists. split; [done|].
    cbn [worker_cache worker_im matchingContextChan]. rewrite Hfloor.
    cbn [orb Nat.eqb].
    split; [split; [done|split; [done|split; cbn [worker_im]; lia]]|].
    split; [lia|].
    split; [done|]. exists []. split; [done|]. cbn [fmap list_fmap].
    rewrite bool_decide_eq_false_2 by apply not_elem_of_nil.
    by rewrite app_nil_r. }
  rewrite visit_worker_handler. cbn [orb app].
  eexists. split; [done|]. cbn [worker_cache worker_im matchingContextChan].
  rewrite Hfloor. cbn [orb Nat.eqb].
  split.
  { unfold worker_ready. cbn [worker_cache worker_im].
    split; [by apply lrd_update_sized, core_update_sized|].
    split; [apply scored_slots; (done || lia)|]. split; [lia|lia]. }
  split; [lia|]. split; [done|].
  eexists. split; [done|].
  destruct (bool_decide _); [done|by rewrite app_nil_r].
Qed.

(** The loop of a worker, started on any storage the worker keeps. *)
Lemma worker_loop_run (work : list Context) :
  ∀ w : Worker F,
    worker_ready db w →
    Forall (context_for db) work →
    Forall (λ c, context_population db c ≠ 1%nat) work →
    Count (worker_im w) + total_population db work < 2 ^ 64 →
    ∃ w' sent,
      worker_loop db (NewLof db knn k threshold) origOutlier work w = Some w'
      ∧ worker_ready db w'
      ∧ Count (worker_im w') = Count (worker_im w) + total_population db work
      ∧ matchingContextChan w' = matchingContextChan w ++ sent
      ∧ ∀ m, m ∈ sent →
          ∃ j, work !! j = Some (context m)
            ∧ popSize m
              = Count (worker_im w) + total_population db (take (S j) work)
            ∧ origOutlier ∈ (outlierList m).*1.
Proof using Hknn Hwf.
  induction work as [|c work IH]; intros w Hready Hctxs Hpops Hsum.
  - exists w, []. cbn [worker_loop]. rewrite app_nil_r.
    change (total_population db []) with 0. rewrite Z.add_0_r.
    split; [done|]. split; [done|]. split; [done|]. split; [done|].
    intros m Hm. by apply elem_of_nil in Hm.
  - apply Forall_cons in Hctxs as [Hctx Hctxs].
    apply Forall_cons in Hpops as [Hpop Hpops].
    pose proof (total_population_bounds db work) as Hpos.
    change (total_population db (c :: work))
      with (Z.of_nat (context_population db c) + total_population db work)
      in Hsum |- *.
    destruct (worker_iteration_run c w Hready Hctx Hpop ltac:(lia))
      as (w1 & Hrun1 & Hready1 & Hcount1 & _ & reports & _ & Hchan1).
    destruct (IH w1 Hready1 Hctxs Hpops ltac:(lia))
      as (w' & sent & Hrun & Hready' & Hcount' & Hchan' & Hsent).
    cbn [worker_loop]. rewrite Hrun1.
    eexists w', _. split; [done|]. split; [done|]. split; [lia|].
    split; [by rewrite Hchan', Hchan1, <- app_assoc|].
    intros m Hm. apply elem_of_app in Hm as [Hm|Hm].
    + destruct (bool_decide (origOutlier ∈ reports.*1)) eqn:Hb;
        [|by apply elem_of_nil in Hm].
      apply list_elem_of_singleton in Hm as ->. exists 0%nat.
      cbn [lookup list_lookup context popSize outlierList take].
      split; [done|]. split.
      * rewrite take_0.
        change (total_population db [c])
          with (Z.of_nat (context_population db c) + 0). lia.
      * by apply bool_decide_eq_true_1 in Hb.
    + destruct (Hsent m Hm) as (j & Hj & Hp & Ho). exists (S j).
      split; [done|]. split; [|done]. rewrite Hp, Hcount1.
      change (total_population db (take (S (S j)) (c :: work)))
        with (Z.of_nat (context_population db c)
              + total_population db (take (S j) work)). lia.
Qed.

End WorkerProofs.

(** X15: One iteration of a worker whose cache and mask are sized for the
    database, on a context of two records or more, the mask count after it
    being 20 or more: the worker does not panic, it sends the context to the
    reporter exactly when the original outlier is among the outliers of the
    context, with all these outliers, and popSize is the count of its mask,
    which is the count before the context plus the population of the context. *)
Theorem worker_iteration_sends `{SortSlice} {F : Type} `{FloatOps F}
    (db : Database) (knn : Knn) (k : nat) (threshold : F) (origOutlier : nat)
    (workCtx : Context) (w : Worker F) :
  NewKnn db = Some knn →
  well_formed db →
  context_for db workCtx →
  cache_sized (length (Employees db)) (worker_cache w) →
  Forall (λ b, (1 ≤ length b)%nat) (Neighborhoods (worker_cache w)) →
  length (Mask (worker_im w)) = ((length (Employees db) + 7) / 8)%nat →
  0 ≤ Count (worker_im w) →
  (2 ≤ context_population db workCtx)%nat →
  let total := Count (worker_im w) + Z.of_nat (context_population db workCtx) in
  MinPopulationSize ≤ total < 2 ^ 64 →
  let lof := NewLof db knn k threshold in
  ∃ w',
    worker_iteration db lof origOutlier workCtx w = Some w'
    ∧ Count (worker_im w') = total
    ∧ (∀ r e, Employees db !! r = Some e →
         IsIncluded (worker_im w') r = Some (ctx_selects workCtx e))
    ∧ let reports := reported lof (worker_cache w') (worker_im w')
                       (seq 0 (length (Employees db))) in
      matchingContextChan w'
      = matchingContextChan w
        ++ (if bool_decide (origOutlier ∈ reports.*1)
            then [ {| context := workCtx; popSize := total;
                      outlierList := reports |} ]
            else []).
Proof.
  intros Hknn Hwf Hctx Hsized Hslots Hmask Hcount Hpop total Htotal lof.
  destruct (worker_iteration_run db knn k threshold origOutlier Hknn Hwf
              workCtx w) as (w' & Hrun & _ & Hc & Hbits & reports & Hr & Hchan);
    [done|done|lia|fold total; lia|].
  exists w'. split; [done|]. split; [done|]. split; [done|].
  fold total in Hc. rewrite Hc in Hr, Hchan.
  destruct (Z.ltb_spec total MinPopulationSize); [lia|].
  destruct (Nat.eqb_spec (context_population db workCtx) 0); [lia|].
  cbn [orb] in Hr. subst reports. exact Hchan.
Qed.

(** X16: A worker that starts with fresh storage and receives a list of
    contexts does not panic when no context selects exactly one record, and
    every match it sends carries as popSize the sum of the populations of all
    the contexts the worker has received up to that one, not the population of
    the context sent; the original outlier is among the outliers of every
    match. *)
Theorem worker_loop_popSize `{SortSlice} {F : Type} `{FloatOps F}
    (db : Database) (knn : Knn) (k : nat) (threshold : F) (origOutlier : nat)
    (work : list Context) :
  NewKnn db = Some knn →
  well_formed db →
  (1 ≤ k)%nat →
  Forall (context_for db) work →
  Forall (λ c, context_population db c ≠ 1%nat) work →
  total_population db work < 2 ^ 64 →
  let lof := NewLof db knn k threshold in
  ∃ w',
    worker_loop db lof origOutlier work (new_worker db lof) = Some w'
    ∧ Count (worker_im w') = total_population db work
    ∧ ∀ m, m ∈ matchingContextChan w' →
        ∃ j, work !! j = Some (context m)
          ∧ popSize m = total_population db (take (S j) work)
          ∧ origOutlier ∈ (outlierList m).*1.
Proof.
  intros Hknn Hwf Hk Hctxs Hpops Hsum lof.
  destruct (NewThreadCache_sized lof) as [Hsized Hslots].
  destruct (worker_loop_run db knn k threshold origOutlier Hknn Hwf work
              (new_worker db lof))
    as (w' & sent & Hrun & _ & Hcount & Hchan & Hsent); [|done|done|done|].
  { split; [done|]. split; [|split; [apply length_replicate|done]].
    eapply Forall_impl; [exact Hslots|]. intros b ->. done. }
  exists w'. split; [done|].
  cbn [new_worker worker_im matchingContextChan NewInclusionMask Count app]
    in Hcount, Hchan.
  split; [lia|]. intros m Hm. rewrite Hchan in Hm.
  destruct (Hsent m Hm) as (j & Hj & Hp & Ho). exists j.
  cbn [new_worker worker_im NewInclusionMask Count] in Hp.
  split; [done|]. split; [lia|done].
Qed.

(** ** The original context and the copies sent to the workers *)

Lemma include_prefix_None (count : nat) :
  ∀ (included : list bool) (i : nat),
    (length included < i + count)%nat → (1 ≤ count)%nat →
    include_prefix included i count = None.
Proof.
  induction count as [|count IH]; intros l i Hlen Hcount; [lia|].
  cbn [include_prefix]. unfold store.
  destruct (decide (i < length l)%nat) as [Hi|Hi]; [|done].
  apply IH; [rewrite length_insert; lia|lia].
Qed.

Lemma original_context_short (db : Database) (origE origJ origY : nat) :
  (length (Employers db) < origE)%nat
  ∨ (length (JobTitles db) < origJ)%nat
  ∨ (length (Years db) < origY)%nat →
  original_context db origE origJ origY = None.
Proof.
  intros Hshort. unfold original_context, NewContext. cbn.
  destruct (Nat.lt_ge_cases (length (Employers db)) origE) as [HE|HE].
  { rewrite include_prefix_None; [done|rewrite length_replicate; lia|lia]. }
  rewrite include_prefix_spec by (rewrite length_replicate; lia).
  destruct (Nat.lt_ge_cases (length (JobTitles db)) origJ) as [HJ|HJ].
  { rewrite include_prefix_None; [done|rewrite length_replicate; lia|lia]. }
  rewrite include_prefix_spec by (rewrite length_replicate; lia).
  rewrite include_prefix_None; [done|rewrite length_replicate; lia|lia].
Qed.

(** X17: main panics while it forms the original context exactly when the
    database has fewer employers, job titles or years than the context takes
    (6, 5 and 5 in main). *)
Theorem original_context_panics_iff (db : Database) (origE origJ origY : nat) :
  original_context db origE origJ origY = None
  ↔ (length (Employers db) < origE)%nat
    ∨ (length (JobTitles db) < origJ)%nat
    ∨ (length (Years db) < origY)%nat.
Proof.
  split; [|apply original_context_short].
  intros Hnone.
  destruct (Nat.lt_ge_cases (length (Employers db)) origE); [by left|].
  destruct (Nat.lt_ge_cases (length (JobTitles db)) origJ); [by right; left|].
  destruct (Nat.lt_ge_cases (length (Years db)) origY); [by right; right|].
  by rewrite original_context_spec in Hnone.
Qed.

Lemma copy_slice_lookup {A} (dst src : list A) (i : nat) :
  copy_slice dst src !! i
  = if (i <? length dst `min` length src)%nat then src !! i else dst !! i.
Proof.
  unfold copy_slice.
  destruct (Nat.ltb_spec i (length dst `min` length src)) as [Hi|Hi].
  - rewrite lookup_app_l by (rewrite length_take; lia).
    apply lookup_take_lt. lia.
  - destruct (Nat.lt_ge_cases i (length dst)) as [Hd|Hd].
    + rewrite lookup_app_r by (rewrite length_take; lia).
      rewrite length_take, lookup_drop. f_equal. lia.
    + rewrite !lookup_ge_None_2; [done|lia|].
      rewrite length_app, length_take, length_drop. lia.
Qed.

Lemma copy_slice_length {A} (dst src : list A) :
  length (copy_slice dst src) = length dst.
Proof. unfold copy_slice. rewrite length_app, length_take, length_drop. lia. Qed.

(** X18: Context.Copy keeps the lengths of the receiver's three slices and
    overwrites, in each, the part that the other context's slice covers; the
    receiver becomes equal to the other context exactly when the three slices
    of both have the same lengths. *)
Theorem Context_Copy_spec (ctx other : Context) :
  let copied := Context_Copy ctx other in
  (length (EmployersIncluded copied) = length (EmployersIncluded ctx)
   ∧ length (JobTitlesIncluded copied) = length (JobTitlesIncluded ctx)
   ∧ length (YearsIncluded copied) = length (YearsIncluded ctx))
  ∧ (∀ i, EmployersIncluded copied !! i
          = if (i <? length (EmployersIncluded ctx)
                       `min` length (EmployersIncluded other))%nat
            then EmployersIncluded other !! i else EmployersIncluded ctx !! i)
  ∧ (∀ i, JobTitlesIncluded copied !! i
          = if (i <? length (JobTitlesIncluded ctx)
                       `min` length (JobTitlesIncluded other))%nat
            then JobTitlesIncluded other !! i else JobTitlesIncluded ctx !! i)
  ∧ (∀ i, YearsIncluded copied !! i
          = if (i <? length (YearsIncluded ctx)
                       `min` length (YearsIncluded other))%nat
            then YearsIncluded other !! i else YearsIncluded ctx !! i)
  ∧ (copied = other
     ↔ length (EmployersIncluded ctx) = length (EmployersIncluded other)
       ∧ length (JobTitlesIncluded ctx) = length (JobTitlesIncluded other)
       ∧ length (YearsIncluded ctx) = length (YearsIncluded other)).
Proof.
  cbn zeta.
  assert (length (EmployersIncluded (Context_Copy ctx other))
          = length (EmployersIncluded ctx)
          ∧ length (JobTitlesIncluded (Context_Copy ctx other))
            = length (JobTitlesIncluded ctx)
          ∧ length (YearsIncluded (Context_Copy ctx other))
            = length (YearsIncluded ctx)) as Hlen.
  { cbn. by rewrite !copy_slice_length. }
  split; [exact Hlen|].
  do 3 (split; [intros i; apply copy_slice_lookup|]).
  split.
  - intros Heq. rewrite Heq in Hlen. destruct Hlen as (HE & HJ & HY).
    by rewrite HE, HJ, HY.
  - intros (HE & HJ & HY). destruct other as [oE oJ oY].
    unfold Context_Copy. cbn in *.
    by rewrite !copy_slice_same_length.
Qed.

(** ** The scan of the supersets by the workers *)

Lemma superset_contexts_elem (origE origJ origY mE mJ mY : nat) (c : Context) :
  c ∈ superset_contexts origE origJ origY mE mJ mY
  ↔ ∃ aE aJ aY, length aE = mE ∧ length aJ = mJ ∧ length aY = mY
      ∧ c = {| EmployersIncluded := replicate origE true ++ aE;
               JobTitlesIncluded := replicate origJ true ++ aJ;
               YearsIncluded := replicate origY true ++ aY |}.
Proof.
  unfold superset_contexts. rewrite list_elem_of_fmap. split.
  - intros (a & -> & Ha%assignments_elem).
    exists (take mE a), (take mJ (drop mE a)), (drop (mE + mJ) a).
    rewrite !length_take, !length_drop. repeat split; lia.
  - intros (aE & aJ & aY & HaE & HaJ & HaY & ->).
    exists (aE ++ aJ ++ aY). split.
    + by rewrite <- HaE, <- HaJ, context_of_app.
    + apply assignments_elem. rewrite !length_app. lia.
Qed.

(** The contexts [main] sends are the supersets but the first. *)
Lemma enumerate_tail (db : Database) (origE origJ origY : nat) :
  (origE ≤ length (Employers db))%nat →
  (origJ ≤ length (JobTitles db))%nat →
  (origY ≤ length (Years db))%nat →
  enumerate db origE origJ origY
  = Some (tail (superset_contexts origE origJ origY
                  (length (Employers db) - origE)
                  (length (JobTitles db) - origJ)
                  (length (Years db) - origY))).
Proof.
  intros HE HJ HY.
  set (mE := (length (Employers db) - origE)%nat).
  set (mJ := (length (JobTitles db) - origJ)%nat).
  set (mY := (length (Years db) - origY)%nat).
  set (contexts := superset_contexts origE origJ origY mE mJ mY).
  unfold enumerate. rewrite original_context_spec by done.
  fold mE mJ mY.
  assert (permute_supersets origE origJ origY (dispatch db)
            {| ctx := {| EmployersIncluded :=
                           replicate origE true ++ replicate mE false;
                         JobTitlesIncluded :=
                           replicate origJ true ++ replicate mJ false;
                         YearsIncluded :=
                           replicate origY true ++ replicate mY false |};
               originalContext := true; workChan := [];
               processedContexts := 0 |}
          = run_leaves (dispatch db) contexts
              {| ctx := {| EmployersIncluded :=
                             replicate origE true ++ replicate mE false;
                           JobTitlesIncluded :=
                             replicate origJ true ++ replicate mJ false;
                           YearsIncluded :=
                             replicate origY true ++ replicate mY false |};
                 originalContext := true; workChan := [];
                 processedContexts := 0 |}) as ->.
  { unfold contexts. rewrite <- nested_leaves_contexts.
    assert (∀ t, ctx (dispatch db t) = ctx t) as Hleaf
      by (intros t; unfold dispatch; by destruct (originalContext t)).
    pose proof (permute_employers (dispatch db) Hleaf (replicate origJ true)
                  (replicate origY true) mJ mY (replicate origE true)
                  (replicate mE false)) as Hperm.
    rewrite !length_replicate in Hperm. rewrite <- Hperm.
    - unfold permute_supersets. cbn.
      rewrite length_app, !length_replicate.
      by replace (origE + mE - origE)%nat with mE by lia.
    - eexists. split; [done|apply length_replicate].
    - eexists. split; [done|apply length_replicate].
    - done. }
  rewrite run_dispatch_first by done. cbn. f_equal.
  rewrite <- (list_fmap_id (tail contexts)) at 2.
  apply list_fmap_ext_elem. intros c Hc.
  assert (c ∈ contexts) as Hc'.
  { destruct contexts; [done|]. by right. }
  apply superset_contexts_elem in Hc' as (aE & aJ & aY & HaE & HaJ & HaY & ->).
  unfold Context_Copy, NewContext.
  cbn [EmployersIncluded JobTitlesIncluded YearsIncluded].
  rewrite !copy_slice_same_length
    by (rewrite length_app, !length_replicate; lia). done.
Qed.

Lemma original_context_Some (db : Database) (origE origJ origY : nat)
    (baseline : Context) :
  original_context db origE origJ origY = Some baseline →
  ((origE ≤ length (Employers db))%nat
   ∧ (origJ ≤ length (JobTitles db))%nat
   ∧ (origY ≤ length (Years db))%nat)
  ∧ baseline
    = {| EmployersIncluded :=
           replicate origE true ++ replicate (length (Employers db) - origE) false;
         JobTitlesIncluded :=
           replicate origJ true ++ replicate (length (JobTitles db) - origJ) false;
         YearsIncluded :=
           replicate origY true ++ replicate (length (Years db) - origY) false |}.
Proof.
  intros Hsome.
  assert ((origE ≤ length (Employers db))%nat
          ∧ (origJ ≤ length (JobTitles db))%nat
          ∧ (origY ≤ length (Years db))%nat) as (HE & HJ & HY).
  { destruct (Nat.lt_ge_cases (length (Employers db)) origE) as [Hs|];
      [rewrite original_context_short in Hsome; [done|by left]|].
    destruct (Nat.lt_ge_cases (length (JobTitles db)) origJ) as [Hs|];
      [rewrite original_context_short in Hsome; [done|by right; left]|].
    destruct (Nat.lt_ge_cases (length (Years db)) origY) as [Hs|];
      [rewrite original_context_short in Hsome; [done|by right; right]|].
    done. }
  split; [done|]. rewrite original_context_spec in Hsome by done.
  by injection Hsome.
Qed.

Lemma lookup_prefix_true (orig : nat) (rest rest' : list bool) (x : nat) :
  default false ((replicate orig true ++ rest) !! x) = true →
  length rest = length rest' →
  rest = replicate (length rest) false →
  default false ((replicate orig true ++ rest') !! x) = true.
Proof.
  intros Hx Hlen Hrest.
  destruct (Nat.lt_ge_cases x orig) as [Hlt|Hge].
  - rewrite lookup_app_l by (by rewrite length_replicate).
    by rewrite lookup_replicate_2.
  - rewrite lookup_app_r in Hx by (rewrite length_replicate; lia).
    rewrite Hrest in Hx.
    destruct (replicate (length rest) false
                !! (x - length (replicate orig true))%nat)
      as [b|] eqn:Hb; [|done].
    apply lookup_replicate in Hb as [-> _]. done.
Qed.

Lemma population_mono (db : Database) (c c' : Context) :
  selects_more db c c' →
  (context_population db c ≤ context_population db c')%nat.
Proof.
  unfold selects_more, context_population.
  induction (Employees db) as [|e l IH]; intros Hmore; [done|].
  rewrite !filter_cons.
  assert (length (filter (λ e, ctx_selects c e = true) l)
          ≤ length (filter (λ e, ctx_selects c' e = true) l))%nat as Hrest.
  { apply IH. intros x Hx. apply Hmore. by right. }
  destruct (decide (ctx_selects c e = true)) as [Hc|Hc].
  - rewrite decide_True by (apply Hmore; [by left|done]). cbn. lia.
  - destruct (decide (ctx_selects c' e = true)); cbn; lia.
Qed.

(** Every context that [main] sends has the lengths of the database's
    attribute lists and selects every record of the original context. *)
Lemma enumerate_supersets (db : Database) (origE origJ origY : nat)
    (baseline : Context) (contexts : list Context) :
  original_context db origE origJ origY = Some baseline →
  enumerate db origE origJ origY = Some contexts →
  Forall (λ c, context_for db c
               ∧ selects_more db baseline c
               ∧ (context_population db baseline ≤ context_population db c)%nat)
    contexts.
Proof.
  intros Hbase Henum.
  apply original_context_Some in Hbase as ((HE & HJ & HY) & ->).
  rewrite enumerate_tail in Henum by done. injection Henum as <-.
  rewrite Forall_forall. intros c Hc.
  assert (c ∈ superset_contexts origE origJ origY
                (length (Employers db) - origE)
                (length (JobTitles db) - origJ)
                (length (Years db) - origY)) as Hc'.
  { destruct (superset_contexts _ _ _ _ _ _); [done|]. by right. }
  apply superset_contexts_elem in Hc' as (aE & aJ & aY & HaE & HaJ & HaY & ->).
  assert (selects_more db
            {| EmployersIncluded :=
                 replicate origE true
                   ++ replicate (length (Employers db) - origE) false;
               JobTitlesIncluded :=
                 replicate origJ true
                   ++ replicate (length (JobTitles db) - origJ) false;
               YearsIncluded :=
                 replicate origY true
                   ++ replicate (length (Years db) - origY) false |}
            {| EmployersIncluded := replicate origE true ++ aE;
               JobTitlesIncluded := replicate origJ true ++ aJ;
               YearsIncluded := replicate origY true ++ aY |}) as Hmore.
  { intros e _. unfold ctx_selects, selects.
    cbn [EmployersIncluded JobTitlesIncluded YearsIncluded].
    rewrite !andb_true_iff. intros [[H1 H2] H3].
    repeat split;
      (eapply lookup_prefix_true;
       [eassumption|rewrite length_replicate; done
       |by rewrite length_replicate]). }
  split; [|split; [done|by apply population_mono]].
  unfold context_for. cbn. rewrite !length_app, !length_replicate. lia.
Qed.

(** X19: Once main has found an original outlier, no worker panics, whatever
    part of the enumerated contexts it receives and in the order of the
    enumeration: every such context selects 20 records or more. The matches
    the worker sends carry as popSize the running total of the populations of
    the contexts it received. *)
Theorem scan_worker_runs `{SortSlice} {F : Type} `{FloatOps F}
    (db : Database) (knn : Knn) (k : nat) (threshold : F)
    (origE origJ origY : nat) (baseline : Context)
    (origOutlier : nat) (origScore : F) (contexts work : list Context) :
  NewKnn db = Some knn →
  well_formed db →
  (1 ≤ k)%nat →
  Z.of_nat (length (Employees db)) < 2 ^ 64 →
  original_context db origE origJ origY = Some baseline →
  let lof := NewLof db knn k threshold in
  find_original_outlier db lof baseline = Some (Some origOutlier, origScore) →
  enumerate db origE origJ origY = Some contexts →
  work `sublist_of` contexts →
  total_population db work < 2 ^ 64 →
  ∃ w',
    worker_loop db lof origOutlier work (new_worker db lof) = Some w'
    ∧ Forall (λ c, (20 ≤ context_population db c)%nat) work
    ∧ ∀ m, m ∈ matchingContextChan w' →
        ∃ j, work !! j = Some (context m)
          ∧ popSize m = total_population db (take (S j) work)
          ∧ origOutlier ∈ (outlierList m).*1.
Proof.
  intros Hknn Hwf Hk Hn Hbase lof Horig Henum Hwork Hsum.
  pose proof (enumerate_supersets db origE origJ origY baseline contexts
                Hbase Henum) as Hall.
  destruct (NewThreadCache_sized lof) as [Hsized Hslots].
  assert (Forall (λ b, (1 ≤ length b)%nat) (Neighborhoods (NewThreadCache lof)))
    as Hslots1.
  { eapply Forall_impl; [exact Hslots|]. intros b ->. done. }
  assert (length (Mask (NewInclusionMask db))
          = ((length (Employees db) + 7) / 8)%nat) as Hmask
    by apply length_replicate.
  assert (context_for db baseline) as Hctx.
  { apply original_context_Some in Hbase as ((HE & HJ & HY) & ->).
    unfold context_for. cbn. rewrite !length_app, !length_replicate. lia. }
  assert (20 ≤ context_population db baseline)%nat as Hbig.
  { destruct (FindOutliers_run db knn k threshold (NewThreadCache lof)
                (NewInclusionMask db) baseline Hknn Hwf Hctx Hsized Hslots1
                Hmask ltac:(done) baseline_handler (None, f_zero))
      as (im' & _ & _ & _ & Hc & Hrun).
    assert (context_population db baseline ≤ length (Employees db))%nat
      by apply length_filter.
    cbn [NewInclusionMask Count] in Hc.
    rewrite Z.add_0_l, wrap_small in Hc by lia.
    unfold find_original_outlier in Horig. fold lof in Hrun.
    rewrite Hrun, Hc in Horig. unfold MinPopulationSize in Horig.
    revert Horig.
    destruct (Z.ltb_spec (Z.of_nat (context_population db baseline)) 20);
      [by intros [=]|lia]. }
  assert (Forall (λ c, context_for db c
                       ∧ (20 ≤ context_population db c)%nat) work) as Hwork'.
  { rewrite Forall_forall in Hall |- *. intros c Hc.
    destruct (Hall c) as (? & _ & ?); [by eapply elem_of_sublist|].
    split; [done|lia]. }
  destruct (worker_loop_run db knn k threshold origOutlier Hknn Hwf work
              (new_worker db lof))
    as (w' & sent & Hrun & _ & Hcount & Hchan & Hsent).
  { split; [done|]. split; [done|]. split; [done|]. done. }
  { eapply Forall_impl; [exact Hwork'|]. by intros c [? _]. }
  { eapply Forall_impl; [exact Hwork'|]. intros c [_ ?]. lia. }
  { done. }
  exists w'. split; [done|].
  split; [eapply Forall_impl; [exact Hwork'|]; by intros c [_ ?]|].
  cbn [new_worker worker_im matchingContextChan NewInclusionMask Count app]
    in Hchan.
  intros m Hm. rewrite Hchan in Hm.
  destruct (Hsent m Hm) as (j & Hj & Hp & Ho). exists j.
  cbn [new_worker worker_im NewInclusionMask Count] in Hp.
  split; [done|]. split; [lia|done].
Qed.

(** ** Instances on concrete inputs *)

Lemma well_formed_db_small : well_formed db_small.
Proof. repeat constructor. Qed.

Lemma well_formed_db23 : well_formed db23.
Proof.
  unfold well_formed, well_indexed. apply Forall_forall. intros e He.
  apply list_elem_of_lookup in He as [r Hr].
  unfold db23 in Hr. cbn [Employees] in Hr.
  rewrite list_lookup_imap in Hr.
  destruct (_ !! r); [|done]. injection Hr as <-.
  unfold db23. cbn [Employer JobTitle Year Employers JobTitles Years length].
  destruct (r <? 21)%nat; lia.
Qed.

Lemma NewKnn_db23 : NewKnn db23 = Some knn23.
Proof. vm_compute. reflexivity. Qed.

Lemma Filter_total_witness :
  ∃ inclusion,
    Filter db_small [true; false] [true] [true] = Some inclusion
    ∧ length inclusion = 3%nat
    ∧ ∀ r e, Employees db_small !! r = Some e →
        inclusion !! r
        = Some (default false ([true; false] !! Employer e)
                && default false ([true] !! JobTitle e)
                && default false ([true] !! Year e)).
Proof.
  apply (Filter_total db_small [true; false] [true] [true]).
  apply well_formed_db_small.
Defined.

Lemma Fill_IsIncluded_witness :
  ∃ im',
    Fill (NewInclusionMask db_small) [true; false; true] = Some im'
    ∧ length (Mask im') = 1%nat
    ∧ ∀ r, IsIncluded im' r
           = if (r <? 3)%nat then [true; false; true] !! r
             else if (r <? 8)%nat then Some false
             else IsIncluded (NewInclusionMask db_small) r.
Proof.
  apply (Fill_IsIncluded (NewInclusionMask db_small) [true; false; true]).
  - cbn. lia.
  - cbn. lia.
Defined.

Lemma Fill_panics_iff_witness :
  Fill {| Mask := [0]; Count := 0 |} (replicate 9 true) = None.
Proof.
  apply (Fill_panics_iff {| Mask := [0]; Count := 0 |} (replicate 9 true)).
  - cbn. lia.
  - cbn. lia.
Defined.

Lemma KNearest_nearest_first_witness :
  ∃ out' count,
    KNearest knn4 mask4_all 0 [0; 0]%nat = Some (out', count)
    ∧ drop count out' = drop count [0; 0]%nat
    ∧ ∀ near far,
        near ∈ take count out' →
        (far < 4)%nat → far ≠ 0%nat →
        IsIncluded mask4_all far = Some true → far ∉ take count out' →
        dist db4 0 near ≤ dist db4 0 far.
Proof.
  apply (KNearest_nearest_first db4 knn4 mask4_all 0 [0; 0]%nat).
  - reflexivity.
  - vm_compute. lia.
  - vm_compute. lia.
  - cbn. lia.
Defined.

Lemma KNearest_prefix_witness :
  ∃ out1' count1 out2' count2,
    KNearest knn4 mask4_all 0 [0]%nat = Some (out1', count1)
    ∧ KNearest knn4 mask4_all 0 [0; 0]%nat = Some (out2', count2)
    ∧ take count1 out1' = take 1 (take count2 out2').
Proof.
  apply (KNearest_prefix db4 knn4 mask4_all 0 [0]%nat [0; 0]%nat).
  - reflexivity.
  - vm_compute. lia.
  - vm_compute. lia.
  - cbn. lia.
Defined.

Lemma Lof_FindOutliers_excluded_untouched_witness :
  ∃ cache' v',
    Lof_FindOutliers lof4 stale_cache4 mask4_01 collect [] = Some (cache', v')
    ∧ (∀ i, IsIncluded mask4_01 i = Some false →
         Neighborhoods cache' !! i = Neighborhoods stale_cache4 !! i
         ∧ CoreDistance cache' !! i = CoreDistance stale_cache4 !! i
         ∧ LocalReachabilityDensities cache' !! i
           = LocalReachabilityDensities stale_cache4 !! i)
    ∧ (∀ i neighborhood, (i < 4)%nat →
         IsIncluded mask4_01 i = Some true →
         Neighborhoods cache' !! i = Some neighborhood →
         ∃ furthest, last neighborhood = Some furthest
           ∧ CoreDistance cache' !! i = Some (dist db4 i furthest)).
Proof.
  apply (Lof_FindOutliers_excluded_untouched db4 knn4 2 1.5%float stale_cache4
           mask4_01 collect []).
  - reflexivity.
  - repeat split.
  - repeat constructor.
  - reflexivity.
  - vm_compute. lia.
Defined.

Lemma FindOutliers_fresh_mask_witness :
  ∃ im' cache' v',
    FindOutliers db23 lof23 (NewThreadCache lof23) (NewInclusionMask db23)
      ctx_A collect []
    = Some (im', cache', v')
    ∧ Count im' = Z.of_nat (context_population db23 ctx_A)
    ∧ (∀ r e, Employees db23 !! r = Some e →
         IsIncluded im' r = Some (ctx_selects ctx_A e))
    ∧ ((context_population db23 ctx_A < 20)%nat →
         cache' = NewThreadCache lof23 ∧ v' = [])
    ∧ ((20 ≤ context_population db23 ctx_A)%nat →
         v' = visit collect (reported lof23 cache' im' (seq 0 23)) []).
Proof.
  apply (FindOutliers_fresh_mask db23 knn23 3 1.5%float (NewThreadCache lof23)
           (NewInclusionMask db23) ctx_A collect []).
  - exact NewKnn_db23.
  - exact well_formed_db23.
  - repeat split.
  - repeat split.
  - apply Forall_replicate. cbn. lia.
  - reflexivity.
  - reflexivity.
  - vm_compute. reflexivity.
Defined.

Lemma FindOutliers_reused_mask_runs_witness :
  FindOutliers db_small lof_small (NewThreadCache lof_small)
    {| Mask := [160]; Count := 20 |} ctx_B collect []
  = None.
Proof.
  apply (FindOutliers_reused_mask_runs db_small knn_small 20 1.5%float
           (NewThreadCache lof_small) {| Mask := [160]; Count := 20 |} ctx_B
           collect []).
  - reflexivity.
  - exact well_formed_db_small.
  - repeat split.
  - repeat split.
  - repeat constructor.
  - reflexivity.
  - vm_compute. discriminate.
  - vm_compute. reflexivity.
  - reflexivity.
Defined.

Lemma find_original_outlier_first_witness :
  ∃ orig,
    find_original_outlier db23 lof23 ctx_A = Some orig
    ∧ fst orig = Some 20%nat.
Proof.
  destruct (find_original_outlier_first db23 knn23 3 1.5%float ctx_A)
    as (orig & Hfind & _).
  - exact NewKnn_db23.
  - exact well_formed_db23.
  - repeat split.
  - lia.
  - vm_compute. reflexivity.
  - exists orig. split; [exact Hfind|].
    assert (fst <$> find_original_outlier db23 lof23 ctx_A
            = Some (Some 20%nat)) as Hrun
      by (vm_compute; reflexivity).
    fold lof23 in Hfind. rewrite Hfind in Hrun. by injection Hrun.
Defined.

Lemma worker_iteration_sends_witness :
  ∃ w',
    worker_iteration db23 lof23 20 ctx_A (new_worker db23 lof23) = Some w'
    ∧ Count (worker_im w') = 21
    ∧ popSize <$> matchingContextChan w' = [21].
Proof.
  destruct (worker_iteration_sends db23 knn23 3 1.5%float 20 ctx_A
              (new_worker db23 lof23))
    as (w' & Hrun & Hcount & _ & _).
  - exact NewKnn_db23.
  - exact well_formed_db23.
  - repeat split.
  - repeat split.
  - apply Forall_replicate. cbn. lia.
  - reflexivity.
  - cbn. lia.
  - vm_compute. lia.
  - vm_compute. split; [discriminate|reflexivity].
  - exists w'. split; [exact Hrun|]. split; [exact Hcount|].
    assert ((λ w, popSize <$> matchingContextChan w)
              <$> worker_iteration db23 lof23 20 ctx_A (new_worker db23 lof23)
            = Some [21]) as Hsent by (vm_compute; reflexivity).
    fold lof23 in Hrun. rewrite Hrun in Hsent. by injection Hsent.
Defined.

(** The worker evaluates the context of employer A, with 21 records, and
    then the context of both employers, with 23: it sends both, the second
    with the population size 44. *)
Lemma worker_loop_popSize_witness :
  ∃ w',
    worker_loop db23 lof23 20 [ctx_A; ctx_AB] (new_worker db23 lof23)
    = Some w'
    ∧ Count (worker_im w') = 44
    ∧ popSize <$> matchingContextChan w' = [21; 44].
Proof.
  destruct (worker_loop_popSize db23 knn23 3 1.5%float 20 [ctx_A; ctx_AB])
    as (w' & Hrun & Hcount & _).
  - exact NewKnn_db23.
  - exact well_formed_db23.
  - lia.
  - repeat constructor.
  - repeat constructor; vm_compute; lia.
  - vm_compute. reflexivity.
  - exists w'. split; [exact Hrun|]. split; [exact Hcount|].
    assert ((λ w, popSize <$> matchingContextChan w)
              <$> worker_loop db23 lof23 20 [ctx_A; ctx_AB]
                    (new_worker db23 lof23)
            = Some [21; 44]) as Hsent by (vm_compute; reflexivity).
    fold lof23 in Hrun. rewrite Hrun in Hsent. by injection Hsent.
Defined.

Lemma scan_worker_runs_witness :
  ∃ w',
    worker_loop db23 lof23 20 [ctx_AB] (new_worker db23 lof23) = Some w'
    ∧ Forall (λ c, (20 ≤ context_population db23 c)%nat) [ctx_AB]
    ∧ ∀ m, m ∈ matchingContextChan w' →
        ∃ j, [ctx_AB] !! j = Some (context m)
          ∧ popSize m = total_population db23 (take (S j) [ctx_AB])
          ∧ 20%nat ∈ (outlierList m).*1.
Proof.
  apply (scan_worker_runs db23 knn23 3 1.5%float 1 1 1 ctx_A 20
           0x1.00a5e640111b9p+7%float [ctx_AB] [ctx_AB]).
  - exact NewKnn_db23.
  - exact well_formed_db23.
  - lia.
  - vm_compute. reflexivity.
  - reflexivity.
  - vm_compute. reflexivity.
  - reflexivity.
  - reflexivity.
  - vm_compute. reflexivity.
Defined.

(** * [ReadDatabase] *)

(** ** Values in the order of their first occurrence *)

Section FirstSeen.
Context {A : Type} `{EqDecision A}.
Implicit Types (l : list A) (x y : A).

Lemma first_seen_snoc l x :
  first_seen (l ++ [x])
  = if decide (x ∈ first_seen l) then first_seen l else first_seen l ++ [x].
Proof. unfold first_seen. by rewrite foldl_app. Qed.

Lemma elem_of_first_seen l x : x ∈ first_seen l ↔ x ∈ l.
Proof.
  induction l as [|y l IH] using rev_ind.
  - done.
  - rewrite first_seen_snoc, elem_of_app, list_elem_of_singleton.
    destruct (decide (y ∈ first_seen l)) as [Hy|Hy].
    + rewrite IH. split; [by left|]. intros [?| ->]; [done|by apply IH].
    + by rewrite elem_of_app, list_elem_of_singleton, IH.
Qed.

Lemma NoDup_first_seen l : NoDup (first_seen l).
Proof.
  induction l as [|y l IH] using rev_ind; [constructor|].
  rewrite first_seen_snoc. destruct (decide (y ∈ first_seen l)); [done|].
  apply NoDup_app. split; [done|]. split; [|apply NoDup_singleton].
  intros z Hz Hzy. apply list_elem_of_singleton in Hzy as ->. done.
Qed.

Lemma first_seen_prefix l x : first_seen l `prefix_of` first_seen (l ++ [x]).
Proof.
  rewrite first_seen_snoc. destruct (decide (x ∈ first_seen l)); [done|].
  by apply prefix_app_r.
Qed.

Lemma count_of_snoc l x y :
  count_of (l ++ [x]) y = (count_of l y + if decide (y = x) then 1 else 0)%nat.
Proof.
  unfold count_of. rewrite filter_app, length_app. f_equal.
  rewrite filter_cons, filter_nil. by destruct (decide (y = x)).
Qed.

Lemma count_of_not_elem l x : x ∉ l → count_of l x = 0%nat.
Proof.
  intros Hx. unfold count_of.
  induction l as [|y l IH]; [done|].
  rewrite filter_cons. apply not_elem_of_cons in Hx as [Hne Hx].
  rewrite decide_False by done. by apply IH.
Qed.

Lemma count_of_elem l x : x ∈ l → (1 ≤ count_of l x)%nat.
Proof.
  intros Hx. unfold count_of.
  induction l as [|y l IH]; [by apply elem_of_nil in Hx|].
  rewrite filter_cons. destruct (decide (x = y)); [cbn; lia|].
  apply elem_of_cons in Hx as [?|Hx]; [done|]. by apply IH.
Qed.

End FirstSeen.

(** ** Sets that number their values *)

Section Numbered.
Context {K : Type} `{Countable K}.
Implicit Types (set : gmap K nat) (seen : list K).

Lemma numbered_empty : numbered (∅ : gmap K nat) [].
Proof. split; [by rewrite map_size_empty|]. intros k n. by rewrite lookup_empty. Qed.

Lemma numbered_lookup_lt set seen k n :
  numbered set seen → set !! k = Some n → (n < length seen)%nat.
Proof. intros [_ Hn] Hk. apply Hn in Hk. by eapply lookup_lt_Some. Qed.

Lemma numbered_lookup_None set seen k :
  numbered set seen → set !! k = None ↔ k ∉ seen.
Proof.
  intros [_ Hn]. split.
  - intros Hnone Hin. apply list_elem_of_lookup in Hin as [n Hk].
    apply Hn in Hk. congruence.
  - intros Hnot. destruct (set !! k) as [n|] eqn:Hk; [|done].
    apply Hn in Hk. destruct Hnot. by eapply list_elem_of_lookup_2.
Qed.

Lemma numbered_insert set seen k :
  numbered set seen → set !! k = None →
  numbered (<[k := length seen]> set) (seen ++ [k]).
Proof.
  intros [Hsize Hn] Hnone. split.
  - rewrite map_size_insert_None by done. rewrite length_app. cbn. lia.
  - intros k' n. destruct (decide (k' = k)) as [->|Hne].
    + rewrite lookup_insert_eq. split.
      * intros [= <-]. by rewrite lookup_app_r, Nat.sub_diag.
      * intros Hk. f_equal.
        destruct (Nat.lt_ge_cases n (length seen)) as [Hlt|Hge].
        -- rewrite lookup_app_l in Hk by done. apply Hn in Hk. congruence.
        -- apply lookup_lt_Some in Hk. rewrite length_app in Hk. cbn in Hk. lia.
    + rewrite lookup_insert_ne by done. rewrite Hn. split.
      * intros Hk. by apply lookup_app_l_Some.
      * intros Hk. destruct (Nat.lt_ge_cases n (length seen)) as [Hlt|Hge].
        -- by rewrite lookup_app_l in Hk.
        -- rewrite lookup_app_r in Hk by done.
           apply list_elem_of_lookup_2, list_elem_of_singleton in Hk.
           congruence.
Qed.

Lemma numbered_NoDup set seen : numbered set seen → NoDup seen.
Proof.
  intros [_ Hn]. apply NoDup_alt. intros i j k Hi Hj.
  apply Hn in Hi, Hj. congruence.
Qed.

End Numbered.

(** ** The loop over the records *)

Lemma count_of_first_seen_snoc {A} `{EqDecision A} (values : list A) (v : A) :
  count_of (values ++ [v]) <$> first_seen values
  = imap (λ i c, if decide (first_seen values !! i = Some v) then S c else c)
      (count_of values <$> first_seen values).
Proof.
  apply list_eq. intros i. rewrite list_lookup_imap, !list_lookup_fmap.
  destruct (first_seen values !! i) as [k|] eqn:Hk; [|done]. cbn.
  f_equal. rewrite count_of_snoc.
  destruct (decide (k = v)) as [->|Hne].
  - rewrite decide_True by done. lia.
  - rewrite decide_False by congruence. lia.
Qed.

Lemma count_value_spec (set : gmap string nat) (counts : list nat)
    (values : list string) (v : string) :
  numbered set (first_seen values) →
  counts = count_of values <$> first_seen values →
  ∃ num set' counts',
    count_value set counts v = Ok (num, set', counts')
    ∧ numbered set' (first_seen (values ++ [v]))
    ∧ counts' = count_of (values ++ [v]) <$> first_seen (values ++ [v])
    ∧ first_seen (values ++ [v]) !! num = Some v.
Proof.
  intros Hnum ->. unfold count_value. rewrite first_seen_snoc.
  pose proof (numbered_NoDup _ _ Hnum) as Hnodup.
  destruct (set !! v) as [num|] eqn:Hv.
  - pose proof (proj1 (proj2 Hnum v num) Hv) as Hseen.
    rewrite decide_True by (by eapply list_elem_of_lookup_2).
    rewrite list_lookup_fmap, Hseen. cbn [fmap option_fmap option_map or_panic].
    rewrite store_Some
      by (rewrite length_fmap; by eapply lookup_lt_Some).
    eexists _, _, _. split; [done|]. split; [done|]. split; [|done].
    rewrite count_of_first_seen_snoc. apply list_eq. intros i.
    rewrite list_lookup_imap.
    destruct (decide (i = num)) as [->|Hne].
    + rewrite list_lookup_insert_eq
        by (rewrite length_fmap; by eapply lookup_lt_Some).
      rewrite list_lookup_fmap, Hseen. cbn. rewrite decide_True by done.
      f_equal. lia.
    + rewrite list_lookup_insert_ne by done.
      destruct ((count_of values <$> first_seen values) !! i) as [c|] eqn:Hc;
        [|done].
      cbn. rewrite decide_False; [done|]. intros Hi.
      apply Hne. by eapply NoDup_lookup.
  - assert (v ∉ first_seen values) as Hnot
      by (by apply (numbered_lookup_None set)).
    rewrite decide_False by done.
    destruct Hnum as [Hsize Hn]. rewrite Hsize.
    assert (length (count_of values <$> first_seen values)
            = length (first_seen values)) as Hlen by apply length_fmap.
    rewrite lookup_app_r by lia. rewrite Hlen, Nat.sub_diag.
    cbn [lookup list_lookup or_panic].
    rewrite store_Some by (rewrite length_app; cbn; lia).
    eexists _, _, _. split; [done|].
    split; [by apply numbered_insert|]. split.
    + rewrite fmap_app. cbn [fmap list_fmap].
      replace (<[length (first_seen values):=(0 + 1)%nat]>
                 ((count_of values <$> first_seen values) ++ [0%nat]))
        with ((count_of values <$> first_seen values) ++ [1%nat]).
      2:{ rewrite insert_app_r_alt by lia. by rewrite Hlen, Nat.sub_diag. }
      f_equal.
      * apply list_fmap_ext. intros i k Hk. rewrite count_of_snoc.
        rewrite decide_False; [lia|]. intros ->.
        apply Hnot. by eapply list_elem_of_lookup_2.
      * rewrite count_of_snoc, decide_True by done.
        rewrite count_of_not_elem; [done|].
        by rewrite <- elem_of_first_seen.
    + by rewrite lookup_app_r, Nat.sub_diag.
Qed.

Lemma stands_for_prefix (employers employers' jobTitles jobTitles' : list string)
    (years years' : list Z) (e : Employee) (r : Row) :
  employers `prefix_of` employers' →
  jobTitles `prefix_of` jobTitles' →
  years `prefix_of` years' →
  stands_for employers jobTitles years e r →
  stands_for employers' jobTitles' years' e r.
Proof.
  intros HE HJ HY (Hid & He & Hj & Hy & Hs).
  repeat split; try done; by eapply prefix_lookup_Some.
Qed.

Lemma year_step (set : gmap Z nat) (values : list Z) (year : Z) :
  numbered set (first_seen values) →
  let '(yearNum, set', years') :=
    match set !! year with
    | Some yearNum => (yearNum, set, first_seen values)
    | None => (length (first_seen values),
               <[year := length (first_seen values)]> set,
               first_seen values ++ [year])
    end in
  numbered set' (first_seen (values ++ [year]))
  ∧ years' = first_seen (values ++ [year])
  ∧ first_seen (values ++ [year]) !! yearNum = Some year.
Proof.
  intros Hnum. rewrite first_seen_snoc.
  destruct (set !! year) as [num|] eqn:Hy.
  - pose proof (proj1 (proj2 Hnum year num) Hy) as Hseen.
    rewrite decide_True by (by eapply list_elem_of_lookup_2). done.
  - assert (year ∉ first_seen values) as Hnot
      by (by apply (numbered_lookup_None set)).
    rewrite decide_False by done.
    split; [by apply numbered_insert|]. split; [done|].
    by rewrite lookup_app_r, Nat.sub_diag.
Qed.

(** One iteration of the loop, by what it reads off the record. *)
Lemma read_record_spec (cols : Columns) (record : list string) (st : Reading)
    (rows : list Row) :
  reading_of st rows →
  match classify_row cols record with
  | Ok row => ∃ st', read_record cols record st = Ok st'
                     ∧ reading_of st' (rows ++ [row])
  | Failed e => read_record cols record st = Failed e
  | Panic => read_record cols record st = Panic
  end.
Proof.
  intros (HE & HEc & HJ & HJc & HY & HYs & Hall).
  unfold classify_row, read_record.
  destruct (field record (employerCol cols)) as [employer| |]; [|done..].
  destruct (field record (jobTitleCol cols)) as [jobTitle| |]; [|done..].
  destruct (field record (salaryCol cols)) as [salaryStr| |]; [|done..].
  destruct (field record (idCol cols)) as [idStr| |]; [|done..].
  destruct (ParseUint idStr 64) as [id|]; [|done].
  destruct (count_value_spec _ _ _ employer HE HEc)
    as (employerNum & eSet & eCounts & -> & HE' & HEc' & HeNum).
  destruct (count_value_spec _ _ _ jobTitle HJ HJc)
    as (jobTitleNum & jSet & jCounts & -> & HJ' & HJc' & HjNum).
  destruct (field record (yearCol cols)) as [yearStr| |]; [|done..].
  destruct (ParseUint yearStr 16) as [year|]; [|done].
  pose proof (year_step _ _ year HY) as Hyear. rewrite <- HYs in Hyear.
  destruct (match yearSet st !! year with
            | Some yearNum => (yearNum, yearSet st, reading_Years st)
            | None => (length (reading_Years st),
                       <[year:=length (reading_Years st)]> (yearSet st),
                       reading_Years st ++ [year])
            end) as [[yearNum ySet] years'].
  destruct Hyear as (HY' & HYs' & HyNum).
  destruct (clean_salary salaryStr) as [cleaned| |]; [|done..].
  destruct (ParseUint cleaned 32) as [salary|]; [|done].
  eexists. split; [done|].
  unfold reading_of.
  cbn [employerSet employerEmployees jobTitleSet jobTitleEmployees yearSet
       reading_Years unfilteredEmployees].
  rewrite !fmap_app. cbn [fmap list_fmap row_employer row_jobTitle row_year].
  repeat (split; [done|]).
  apply Forall2_app.
  - eapply Forall2_impl; [exact Hall|]. intros e r.
    apply stands_for_prefix; apply first_seen_prefix.
  - constructor; [|constructor]. by repeat split.
Qed.

Lemma classify_rows_snoc_Ok (cols : Columns) (input : list csv_read) :
  ∀ rows, classify_rows cols input = Ok rows →
    Forall2 (λ read row, ∃ record, read = csv_record record
                                   ∧ classify_row cols record = Ok row)
      input rows.
Proof.
  induction input as [|[record|err] input IH]; intros rows Hrows; cbn in Hrows.
  - injection Hrows as <-. constructor.
  - destruct (classify_row cols record) as [row| |] eqn:Hrow; [|done..].
    destruct (classify_rows cols input) as [rows'| |]; [|done..].
    injection Hrows as <-. constructor; [by exists record|by apply IH].
  - done.
Qed.

(** The loop over the records, started after it has read [rows0]. *)
Lemma read_records_spec (cols : Columns) (input : list csv_read) :
  ∀ (st : Reading) (rows0 : list Row),
    reading_of st rows0 →
    match classify_rows cols input with
    | Ok rows => ∃ st', read_records cols input st = Ok st'
                        ∧ reading_of st' (rows0 ++ rows)
    | Failed e => read_records cols input st = Failed e
    | Panic => read_records cols input st = Panic
    end.
Proof.
  induction input as [|[record|err] input IH]; intros st rows0 Hst;
    cbn [classify_rows read_records].
  - exists st. by rewrite app_nil_r.
  - pose proof (read_record_spec cols record st rows0 Hst) as Hstep.
    destruct (classify_row cols record) as [row| |]; [|by rewrite Hstep..].
    destruct Hstep as (st1 & -> & Hst1).
    specialize (IH st1 (rows0 ++ [row]) Hst1).
    destruct (classify_rows cols input) as [rows| |]; [|done..].
    destruct IH as (st' & -> & Hst'). exists st'. split; [done|].
    by rewrite <- app_assoc in Hst'.
  - done.
Qed.

Lemma reading_of_initial :
  reading_of {| reading_Years := []; employerSet := ∅; jobTitleSet := ∅;
                yearSet := ∅; employerEmployees := [];
                jobTitleEmployees := []; unfilteredEmployees := [] |} [].
Proof.
  unfold reading_of. cbn.
  repeat (split; [first [apply numbered_empty|done]|]). constructor.
Qed.

(** ** The initial filtering *)

Lemma keep_values_snoc (counts : list nat) (min : nat)
    (entries : list (string * nat)) (entry : string * nat) :
  keep_values counts min (entries ++ [entry])
  = keep_value counts min (keep_values counts min entries) entry.
Proof. unfold keep_values. by rewrite foldl_app. Qed.

Section KeepValues.
Variables (seen : list string) (cnt : string → nat) (min : nat).
Hypothesis Hnodup : NoDup seen.


Lemma keep_values_fold (entries : list (string * nat)) :
  (∀ name num, (name, num) ∈ entries → seen !! num = Some name) →
  NoDup entries.*1 →
  ∃ patches kept,
    keep_values (cnt <$> seen) min entries = Ok (patches, kept)
    ∧ kept = filter (λ name, (min ≤ cnt name)%nat) entries.*1
    ∧ size patches = length kept
    ∧ ∀ num idx, patches !! num = Some idx
        ↔ ∃ name, (name, num) ∈ entries ∧ kept !! idx = Some name.
Proof using Hnodup.
  induction entries as [|[name num] entries IH] using rev_ind;
    intros Hseen Hnd.
  - exists ∅, []. split; [done|]. split; [done|]. split; [done|].
    intros num idx. rewrite lookup_empty. split; [done|].
    intros (name & Hin & _). by apply elem_of_nil in Hin.
  - rewrite fmap_app in Hnd. cbn [fmap list_fmap fst] in Hnd.
    apply NoDup_app in Hnd as (Hnd & Hfresh & _).
    assert (name ∉ entries.*1) as Hname.
    { intros Hin. apply (Hfresh name Hin). by left. }
    destruct IH as (patches & kept & Hrun & Hkept & Hsize & Hpatches).
    { intros n m Hin. apply Hseen. apply elem_of_app. by left. }
    { done. }
    assert (seen !! num = Some name) as Hnum.
    { apply Hseen. apply elem_of_app. right. by left. }
    assert (∀ name', (name', num) ∈ entries → False) as Hnum_fresh.
    { intros name' Hin. assert (seen !! num = Some name') as Hnum'
        by (apply Hseen, elem_of_app; by left).
      assert (name' = name) as -> by congruence.
      apply Hname. apply list_elem_of_fmap. by exists (name, num). }
    assert (name ∉ kept) as Hname_kept.
    { rewrite Hkept. intros Hin. by apply list_elem_of_filter in Hin as [_ Hin]. }
    rewrite keep_values_snoc, Hrun. unfold keep_value. cbn [fst snd].
    rewrite list_lookup_fmap, Hnum. cbn [fmap option_fmap option_map or_panic].
    rewrite fmap_app, filter_app. cbn [fmap list_fmap fst].
    rewrite filter_cons, filter_nil.
    destruct (Nat.leb_spec min (cnt name)) as [Hok|Hlow].
    + rewrite decide_True by done.
      eexists _, _. split; [done|]. split; [by rewrite Hkept|].
      assert (patches !! num = None) as Hnone.
      { destruct (patches !! num) as [idx|] eqn:Hp; [|done].
        apply Hpatches in Hp as (name' & Hin & _). by destruct (Hnum_fresh name'). }
      split; [rewrite map_size_insert_None by done;
              rewrite length_app; cbn; lia|].
      intros num' idx. destruct (decide (num' = num)) as [->|Hne].
      * rewrite lookup_insert_eq. split.
        -- intros [= <-]. exists name. split; [apply elem_of_app; right; by left|].
           by rewrite Hsize, lookup_app_r, Nat.sub_diag.
        -- intros (name' & Hin & Hidx). f_equal.
           apply elem_of_app in Hin as [Hin|Hin];
             [by destruct (Hnum_fresh name')|].
           apply list_elem_of_singleton in Hin. injection Hin as ->.
           destruct (Nat.lt_ge_cases idx (length kept)) as [Hlt|Hge].
           ++ rewrite lookup_app_l in Hidx by done.
              destruct Hname_kept. by eapply list_elem_of_lookup_2.
           ++ apply lookup_lt_Some in Hidx. rewrite length_app in Hidx.
              cbn in Hidx. lia.
      * rewrite lookup_insert_ne by done. rewrite Hpatches. split.
        -- intros (name' & Hin & Hidx). exists name'.
           split; [apply elem_of_app; by left|by apply lookup_app_l_Some].
        -- intros (name' & Hin & Hidx).
           apply elem_of_app in Hin as [Hin|Hin].
           ++ exists name'. split; [done|].
              destruct (Nat.lt_ge_cases idx (length kept)) as [Hlt|Hge];
                [by rewrite lookup_app_l in Hidx|].
              rewrite lookup_app_r in Hidx by done.
              apply list_elem_of_lookup_2, list_elem_of_singleton in Hidx.
              subst name'. destruct Hname.
              apply list_elem_of_fmap. by exists (name, num').
           ++ apply list_elem_of_singleton in Hin. by injection Hin as -> ->.
    + rewrite decide_False by lia. rewrite app_nil_r.
      eexists _, _. split; [done|]. split; [done|]. split; [done|].
      intros num' idx. rewrite Hpatches. split.
      * intros (name' & Hin & Hidx). exists name'.
        split; [apply elem_of_app; by left|done].
      * intros (name' & Hin & Hidx).
        apply elem_of_app in Hin as [Hin|Hin]; [by exists name'|].
        apply list_elem_of_singleton in Hin. injection Hin as -> ->.
        destruct Hname_kept. by eapply list_elem_of_lookup_2.
Qed.

End KeepValues.

(** A loop over a map that numbers [seen]: the values with enough records,
    in the order of the loop, and their new numbers. *)
Lemma keep_values_spec (set : gmap string nat) (seen : list string)
    (cnt : string → nat) (min : nat) (entries : list (string * nat)) :
  numbered set seen →
  entries ≡ₚ map_to_list set →
  ∃ patches kept,
    keep_values (cnt <$> seen) min entries = Ok (patches, kept)
    ∧ kept ≡ₚ filter (λ name, (min ≤ cnt name)%nat) seen
    ∧ ∀ num name, seen !! num = Some name →
        match patches !! num with
        | Some idx => kept !! idx = Some name ∧ (min ≤ cnt name)%nat
        | None => (cnt name < min)%nat
        end.
Proof.
  intros Hnum Hperm.
  pose proof (numbered_NoDup _ _ Hnum) as Hnodup.
  assert (∀ name num, (name, num) ∈ entries ↔ seen !! num = Some name) as Hin.
  { intros name num. rewrite Hperm, elem_of_map_to_list. apply Hnum. }
  assert (NoDup entries.*1) as Hnd.
  { rewrite Hperm. apply NoDup_fst_map_to_list. }
  destruct (keep_values_fold seen cnt min Hnodup entries)
    as (patches & kept & Hrun & Hkept & _ & Hpatches); [by intros ?? ?%Hin|done|].
  assert (entries.*1 ≡ₚ seen) as Hnames.
  { apply NoDup_Permutation; [done|done|]. intros name. split.
    - intros ((name' & num) & -> & Hx)%list_elem_of_fmap.
      apply Hin in Hx. by eapply list_elem_of_lookup_2.
    - intros [num Hx]%list_elem_of_lookup. apply list_elem_of_fmap.
      exists (name, num). split; [done|by apply Hin]. }
  exists patches, kept. split; [done|]. split; [by rewrite Hkept, Hnames|].
  intros num name Hseen.
  destruct (patches !! num) as [idx|] eqn:Hp.
  - apply Hpatches in Hp as (name' & Hx & Hidx). apply Hin in Hx.
    assert (name' = name) as -> by congruence. split; [done|].
    apply list_elem_of_lookup_2 in Hidx. rewrite Hkept in Hidx.
    by apply list_elem_of_filter in Hidx as [? _].
  - destruct (Nat.lt_ge_cases (cnt name) min) as [|Hok]; [done|]. exfalso.
    assert (name ∈ kept) as Hk.
    { rewrite Hkept. apply list_elem_of_filter. split; [done|].
      rewrite Hnames. by eapply list_elem_of_lookup_2. }
    apply list_elem_of_lookup in Hk as [idx Hidx].
    assert (patches !! num = Some idx) as Hsome.
    { apply Hpatches. exists name. split; [by apply Hin|done]. }
    congruence.
Qed.

Lemma patch_employees_spec (employers jobTitles : list string) (years : list Z)
    (keptE keptJ : list string) (patchesE patchesJ : gmap nat nat)
    (okE okJ : string → Prop) `{∀ x, Decision (okE x)} `{∀ x, Decision (okJ x)}
    (unfiltered : list Employee) (rows : list Row) :
  (∀ num name, employers !! num = Some name →
     match patchesE !! num with
     | Some idx => keptE !! idx = Some name ∧ okE name
     | None => ¬ okE name
     end) →
  (∀ num name, jobTitles !! num = Some name →
     match patchesJ !! num with
     | Some idx => keptJ !! idx = Some name ∧ okJ name
     | None => ¬ okJ name
     end) →
  Forall2 (stands_for employers jobTitles years) unfiltered rows →
  Forall2 (stands_for keptE keptJ years)
    (patch_employees patchesE patchesJ unfiltered)
    (filter (λ r, okE (row_employer r) ∧ okJ (row_jobTitle r)) rows).
Proof.
  intros HE HJ Hall. unfold patch_employees.
  induction Hall as [|e r unfiltered rows (Hid & He & Hj & Hy & Hs) Hall IH];
    [constructor|].
  cbn [omap list_omap]. rewrite filter_cons.
  specialize (HE _ _ He). specialize (HJ _ _ Hj).
  destruct (patchesE !! Employer e) as [idxE|].
  - destruct HE as [HkE HokE].
    destruct (patchesJ !! JobTitle e) as [idxJ|].
    + destruct HJ as [HkJ HokJ]. rewrite decide_True by done.
      constructor; [|done]. by repeat split.
    + rewrite decide_False by (by intros [_ ?]). done.
  - rewrite decide_False by (by intros [? _]). done.
Qed.

(** [ReadDatabase], by the header and by what it reads off the records. *)
Lemma ReadDatabase_run `{MapRange} (header : list string) (input : list csv_read)
    (minPerEmployer minPerJobTitle : nat) :
  ReadDatabase (csv_record header :: input) minPerEmployer minPerJobTitle
  = Failed missing_columns ∧ ¬ columns_found (columns_of header)
  ∨ columns_found (columns_of header)
    ∧ match classify_rows (columns_of header) input with
      | Ok rows =>
          ∃ db, ReadDatabase (csv_record header :: input)
                  minPerEmployer minPerJobTitle = Ok db
                ∧ database_of minPerEmployer minPerJobTitle rows db
      | Failed e =>
          ReadDatabase (csv_record header :: input)
            minPerEmployer minPerJobTitle = Failed e
      | Panic =>
          ReadDatabase (csv_record header :: input)
            minPerEmployer minPerJobTitle = Panic
      end.
Proof.
  unfold ReadDatabase. fold (columns_of header).
  set (cols := columns_of header). unfold columns_found.
  destruct (Z.ltb_spec (idCol cols) 0); [left; split; [done|lia]|].
  destruct (Z.ltb_spec (employerCol cols) 0); [left; split; [done|lia]|].
  destruct (Z.ltb_spec (jobTitleCol cols) 0); [left; split; [done|lia]|].
  destruct (Z.ltb_spec (salaryCol cols) 0); [left; split; [done|lia]|].
  destruct (Z.ltb_spec (yearCol cols) 0); [left; split; [done|lia]|].
  right. split; [done|]. cbn [orb].
  pose proof (read_records_spec cols input _ [] reading_of_initial) as Hread.
  destruct (classify_rows cols input) as [rows| |]; [|by rewrite Hread..].
  destruct Hread as (st & -> & HE & HEc & HJ & HJc & HY & HYs & Hall).
  cbn [app] in *.
  destruct (keep_values_spec (employerSet st) _
              (count_of (row_employer <$> rows)) minPerEmployer
              (range_employers (employerSet st)) HE
              (range_employers_perm _))
    as (patchesE & keptE & HrunE & HpermE & HpE).
  destruct (keep_values_spec (jobTitleSet st) _
              (count_of (row_jobTitle <$> rows)) minPerJobTitle
              (range_jobTitles (jobTitleSet st)) HJ
              (range_jobTitles_perm _))
    as (patchesJ & keptJ & HrunJ & HpermJ & HpJ).
  rewrite HEc, HrunE, HJc, HrunJ. eexists. split; [done|].
  unfold database_of. cbn [Employers JobTitles Years Employees].
  split; [done|]. split; [done|]. split; [done|].
  rewrite HYs. unfold kept_rows.
  apply (patch_employees_spec (first_seen (row_employer <$> rows))
           (first_seen (row_jobTitle <$> rows)) _ keptE keptJ patchesE patchesJ
           (enough minPerEmployer (row_employer <$> rows))
           (enough minPerJobTitle (row_jobTitle <$> rows))
           (unfilteredEmployees st) rows); [| |exact Hall].
  - intros num name Hn. specialize (HpE num name Hn). unfold enough.
    destruct (patchesE !! num); [done|lia].
  - intros num name Hn. specialize (HpJ num name Hn). unfold enough.
    destruct (patchesJ !! num); [done|lia].
Qed.

(** ** What [ReadDatabase] returns *)

Lemma digits_value_nonneg (s : string) :
  ∀ acc n, 0 ≤ acc → digits_value s acc = Some n → 0 ≤ n.
Proof.
  induction s as [|c s IH]; intros acc n Hacc Hn; cbn in Hn.
  - by injection Hn as <-.
  - unfold digit_value in Hn.
    destruct ((48 <=? Z.of_N (N_of_ascii c)) && (Z.of_N (N_of_ascii c) <=? 57))
      eqn:Hd; [|done].
    apply andb_true_iff in Hd as [Hlo%Z.leb_le Hhi%Z.leb_le].
    cbn in Hn. eapply IH; [|exact Hn]. lia.
Qed.

Lemma ParseUint_range (s : string) (bitSize n : Z) :
  ParseUint s bitSize = Some n → 0 ≤ n < 2 ^ bitSize.
Proof.
  unfold ParseUint. destruct s as [|c s]; [done|].
  destruct (digits_value (String c s) 0) as [m|] eqn:Hm; [|done].
  destruct (Z.ltb_spec m (2 ^ bitSize)); [|done]. intros [= <-].
  split; [|done]. by apply (digits_value_nonneg (String c s) 0 m).
Qed.

Lemma classify_row_salary (cols : Columns) (record : list string) (row : Row) :
  classify_row cols record = Ok row → uint32 (row_salary row).
Proof.
  unfold classify_row. intros Hrow.
  destruct (field record (employerCol cols)); [|done..].
  destruct (field record (jobTitleCol cols)); [|done..].
  destruct (field record (salaryCol cols)) as [salaryStr| |]; [|done..].
  destruct (field record (idCol cols)) as [idStr| |]; [|done..].
  destruct (ParseUint idStr 64); [|done].
  destruct (field record (yearCol cols)) as [yearStr| |]; [|done..].
  destruct (ParseUint yearStr 16); [|done].
  destruct (clean_salary salaryStr) as [cleaned| |]; [|done..].
  destruct (ParseUint cleaned 32) as [salary|] eqn:Hs; [|done].
  injection Hrow as <-. by apply ParseUint_range in Hs.
Qed.

Lemma classify_rows_salary (cols : Columns) (input : list csv_read) :
  ∀ rows, classify_rows cols input = Ok rows →
    Forall (λ r, uint32 (row_salary r)) rows.
Proof.
  induction input as [|[record|err] input IH]; intros rows Hrows; cbn in Hrows.
  - injection Hrows as <-. constructor.
  - destruct (classify_row cols record) as [row| |] eqn:Hrow; [|done..].
    destruct (classify_rows cols input) as [rows'| |]; [|done..].
    injection Hrows as <-. constructor; [|by apply IH].
    by eapply classify_row_salary.
  - done.
Qed.

Lemma database_of_well_formed (minE minJ : nat) (rows : list Row) (db : Database) :
  database_of minE minJ rows db →
  well_formed db
  ∧ NoDup (Employers db) ∧ NoDup (JobTitles db) ∧ NoDup (Years db).
Proof.
  intros (HE & HJ & HY & Hall). split; [|split; [|split]].
  - unfold well_formed, well_indexed. apply Forall_forall. intros e He.
    apply list_elem_of_lookup in He as [i Hi].
    destruct (Forall2_lookup_l _ _ _ _ _ Hall Hi)
      as (r & _ & (_ & H1 & H2 & H3 & _)).
    repeat split; by eapply lookup_lt_Some.
  - rewrite HE. apply NoDup_filter, NoDup_first_seen.
  - rewrite HJ. apply NoDup_filter, NoDup_first_seen.
  - rewrite HY. apply NoDup_first_seen.
Qed.

(** X20: When the header names the five columns and every record reads as a
    row, ReadDatabase returns a database: its employers and job titles are, in
    some order, those with at least the minimum number of rows in the whole
    table, its years are all the years in the order of their first row, and
    its records are the rows whose employer and job title were both kept, in
    the order of the table, each with the identifier and salary of its row and
    the indices of its employer, job title and year in the three lists. *)
Theorem ReadDatabase_reads `{MapRange} (header : list string)
    (input : list csv_read) (minPerEmployer minPerJobTitle : nat)
    (rows : list Row) :
  columns_found (columns_of header) →
  classify_rows (columns_of header) input = Ok rows →
  ∃ db,
    ReadDatabase (csv_record header :: input) minPerEmployer minPerJobTitle
    = Ok db
    ∧ Employers db
      ≡ₚ filter (λ name, (minPerEmployer
                            ≤ count_of (row_employer <$> rows) name)%nat)
           (first_seen (row_employer <$> rows))
    ∧ JobTitles db
      ≡ₚ filter (λ name, (minPerJobTitle
                            ≤ count_of (row_jobTitle <$> rows) name)%nat)
           (first_seen (row_jobTitle <$> rows))
    ∧ Years db = first_seen (row_year <$> rows)
    ∧ Forall2 (λ e r,
          Id e = row_id r
          ∧ Employers db !! Employer e = Some (row_employer r)
          ∧ JobTitles db !! JobTitle e = Some (row_jobTitle r)
          ∧ Years db !! Year e = Some (row_year r)
          ∧ Salary e = row_salary r)
        (Employees db)
        (filter (λ r,
             (minPerEmployer
                ≤ count_of (row_employer <$> rows) (row_employer r))%nat
             ∧ (minPerJobTitle
                  ≤ count_of (row_jobTitle <$> rows) (row_jobTitle r))%nat)
           rows).
Proof.
  intros Hcols Hrows.
  destruct (ReadDatabase_run header input minPerEmployer minPerJobTitle)
    as [[_ Hmissing]|[_ Hrun]]; [done|].
  rewrite Hrows in Hrun. destruct Hrun as (db & Hdb & HE & HJ & HY & Hall).
  exists db. split; [done|]. split; [exact HE|]. split; [exact HJ|].
  split; [done|]. exact Hall.
Qed.

(** X21: Every database that ReadDatabase returns can be indexed by the rest
    of the program: the employer, job title and year index of every record is
    within the list it refers to, every salary is a uint32, and no list names
    a value twice. *)
Theorem ReadDatabase_well_formed `{MapRange} (input : list csv_read)
    (minPerEmployer minPerJobTitle : nat) (db : Database) :
  ReadDatabase input minPerEmployer minPerJobTitle = Ok db →
  Forall (λ e, (Employer e < length (Employers db))%nat
               ∧ (JobTitle e < length (JobTitles db))%nat
               ∧ (Year e < length (Years db))%nat
               ∧ uint32 (Salary e))
    (Employees db)
  ∧ NoDup (Employers db) ∧ NoDup (JobTitles db) ∧ NoDup (Years db).
Proof.
  intros Hdb. destruct input as [|[header|err] input]; [done| |done].
  destruct (ReadDatabase_run header input minPerEmployer minPerJobTitle)
    as [[Hmissing _]|[_ Hrun]]; [congruence|].
  destruct (classify_rows (columns_of header) input) as [rows| |] eqn:Hrows;
    [|congruence..].
  destruct Hrun as (db' & Hdb' & Hof).
  assert (db' = db) as -> by congruence.
  destruct (database_of_well_formed _ _ _ _ Hof) as (Hwf & HE & HJ & HY).
  split; [|done].
  destruct Hof as (_ & _ & _ & Hall).
  pose proof (classify_rows_salary _ _ _ Hrows) as Hsal.
  apply Forall_forall. intros e He.
  unfold well_formed, well_indexed in Hwf. rewrite Forall_forall in Hwf.
  destruct (Hwf e He) as (H1 & H2 & H3). repeat split; try done.
  all: apply list_elem_of_lookup in He as [i Hi];
    destruct (Forall2_lookup_l _ _ _ _ _ Hall Hi) as (r & Hr & (_ & _ & _ & _ & Hs));
    rewrite Hs;
    assert (r ∈ rows) as Hin
      by (eapply list_elem_of_filter, list_elem_of_lookup_2, Hr);
    rewrite Forall_forall in Hsal; by apply Hsal.
Qed.

Lemma stands_for_same (db1 db2 : Database) (e1 e2 : Employee) (r : Row) :
  NoDup (Years db1) → Years db1 = Years db2 →
  stands_for (Employers db1) (JobTitles db1) (Years db1) e1 r →
  stands_for (Employers db2) (JobTitles db2) (Years db2) e2 r →
  Id e1 = Id e2
  ∧ is_Some (Employers db1 !! Employer e1)
  ∧ Employers db1 !! Employer e1 = Employers db2 !! Employer e2
  ∧ is_Some (JobTitles db1 !! JobTitle e1)
  ∧ JobTitles db1 !! JobTitle e1 = JobTitles db2 !! JobTitle e2
  ∧ Year e1 = Year e2
  ∧ Salary e1 = Salary e2.
Proof.
  intros Hnd HY (Hid1 & He1 & Hj1 & Hy1 & Hs1) (Hid2 & He2 & Hj2 & Hy2 & Hs2).
  rewrite <- HY in Hy2.
  split; [congruence|]. split; [by eexists|]. split; [congruence|].
  split; [by eexists|]. split; [congruence|].
  split; [by eapply NoDup_lookup|congruence].
Qed.

(** X22: The order in which Go visits the two maps of ReadDatabase changes
    only the numbering of the employers and of the job titles: with another
    order ReadDatabase fails with the same error or panics alike, and
    otherwise returns the same records in the same order with the same
    attribute values, years, identifiers and salaries. *)
Theorem ReadDatabase_order (M1 M2 : MapRange) (input : list csv_read)
    (minPerEmployer minPerJobTitle : nat) :
  match @ReadDatabase M1 input minPerEmployer minPerJobTitle with
  | Ok db1 =>
      ∃ db2, @ReadDatabase M2 input minPerEmployer minPerJobTitle = Ok db2
             ∧ same_table db1 db2
  | Failed e => @ReadDatabase M2 input minPerEmployer minPerJobTitle = Failed e
  | Panic => @ReadDatabase M2 input minPerEmployer minPerJobTitle = Panic
  end.
Proof.
  destruct input as [|[header|err] input]; [done| |done].
  destruct (@ReadDatabase_run M1 header input minPerEmployer minPerJobTitle)
    as [[Hm1 Hmissing]|[Hfound Hrun1]].
  { rewrite Hm1.
    by destruct (@ReadDatabase_run M2 header input minPerEmployer
                   minPerJobTitle) as [[Hm2 _]|[Hfound _]]. }
  destruct (@ReadDatabase_run M2 header input minPerEmployer minPerJobTitle)
    as [[_ Hmissing]|[_ Hrun2]]; [done|].
  destruct (classify_rows (columns_of header) input) as [rows| |];
    [|by rewrite Hrun1..].
  destruct Hrun1 as (db1 & -> & Hof1). destruct Hrun2 as (db2 & -> & Hof2).
  exists db2. split; [done|].
  destruct (database_of_well_formed _ _ _ _ Hof1) as (_ & _ & _ & Hnd).
  destruct Hof1 as (HE1 & HJ1 & HY1 & Hall1).
  destruct Hof2 as (HE2 & HJ2 & HY2 & Hall2).
  split; [by rewrite HE1, HE2|]. split; [by rewrite HJ1, HJ2|].
  split; [congruence|].
  assert (Years db1 = Years db2) as HY by congruence.
  revert Hall1 Hall2.
  generalize (kept_rows minPerEmployer minPerJobTitle rows).
  generalize (Employees db2). 
  induction (Employees db1) as [|e1 l1 IH]; intros l2 kept Hall1 Hall2.
  - apply Forall2_nil_inv_l in Hall1 as ->.
    apply Forall2_nil_inv_r in Hall2 as ->. constructor.
  - apply Forall2_cons_inv_l in Hall1 as (r & kept' & Hr1 & Hall1 & ->).
    apply Forall2_cons_inv_r in Hall2 as (e2 & l2' & Hr2 & Hall2 & ->).
    constructor; [by eapply stands_for_same|by eapply IH].
Qed.

(** ** The header *)

Lemma column_header_column (cols : Columns) (n : nat) (x name : string) :
  name ∈ column_names →
  column (header_column cols n x) name
  = if String.eqb x name then Z.of_nat n else column cols name.
Proof.
  intros Hname. unfold column_names in Hname.
  repeat (apply elem_of_cons in Hname as [->|Hname]);
    [..|by apply elem_of_nil in Hname];
    unfold header_column, column;
    repeat (match goal with
            | |- context [String.eqb ?a ?b] =>
                destruct (String.eqb_spec a b); try done; try congruence
            end).
Qed.

Lemma header_columns_column (header : list string) (name : string) :
  name ∈ column_names →
  ∀ (n : nat) (cols : Columns),
    (column (header_columns header n cols) name = column cols name
     ∧ name ∉ header)
    ∨ ∃ i : nat,
        column (header_columns header n cols) name = Z.of_nat (n + i)
        ∧ header !! i = Some name
        ∧ ∀ j, (i < j)%nat → header !! j ≠ Some name.
Proof.
  intros Hname. induction header as [|x header IH]; intros n cols.
  - left. split; [done|apply not_elem_of_nil].
  - cbn [header_columns].
    destruct (IH (n + 1)%nat (header_column cols n x))
      as [[Hcol Hnot]|(i & Hcol & Hi & Hlast)].
    + rewrite Hcol, column_header_column by done.
      destruct (String.eqb_spec x name) as [->|Hne].
      * right. exists 0%nat. split; [f_equal; lia|]. split; [done|].
        intros [|j] Hj; [lia|]. cbn. intros Hx.
        apply Hnot. by eapply list_elem_of_lookup_2.
      * left. split; [done|]. by apply not_elem_of_cons.
    + right. exists (S i). split; [rewrite Hcol; f_equal; lia|].
      split; [done|]. intros [|j] Hj; [lia|]. cbn. apply Hlast. lia.
Qed.

Lemma columns_of_column (header : list string) (name : string) :
  name ∈ column_names →
  (column (columns_of header) name = -1 ∧ name ∉ header)
  ∨ ∃ i : nat,
      column (columns_of header) name = Z.of_nat i
      ∧ header !! i = Some name
      ∧ ∀ j, (i < j)%nat → header !! j ≠ Some name.
Proof.
  intros Hname. unfold columns_of.
  destruct (header_columns_column header name Hname 0
              {| idCol := -1; employerCol := -1; jobTitleCol := -1;
                 salaryCol := -1; yearCol := -1 |})
    as [[Hcol Hnot]|(i & Hcol & Hi & Hlast)].
  - left. split; [|done]. rewrite Hcol. unfold column. cbn.
    by repeat destruct (String.eqb _ _).
  - right. by exists i.
Qed.

Lemma columns_found_column (cols : Columns) :
  columns_found cols ↔ ∀ name, name ∈ column_names → 0 ≤ column cols name.
Proof.
  unfold columns_found, column_names. split.
  - intros (H1 & H2 & H3 & H4 & H5) name Hname.
    repeat (apply elem_of_cons in Hname as [->|Hname]);
      [done..|by apply elem_of_nil in Hname].
  - intros Hall.
    repeat split;
      [apply (Hall ""%string)|apply (Hall "Employer"%string)
      |apply (Hall "Job Title"%string)|apply (Hall "Salary Paid"%string)
      |apply (Hall "Calendar Year"%string)];
      repeat first [by left|right].
Qed.

(** X23: The header loop of ReadDatabase finds the five columns exactly when
    the header holds each of the five names (the empty name for the
    identifier); the index kept for a name is that of its last occurrence in
    the header. *)
Theorem header_columns_found (header : list string) :
  (columns_found (columns_of header)
   ↔ ∀ name, name ∈ column_names → name ∈ header)
  ∧ ∀ name, name ∈ column_names → name ∈ header →
      ∃ i : nat,
        column (columns_of header) name = Z.of_nat i
        ∧ header !! i = Some name
        ∧ ∀ j, (i < j)%nat → header !! j ≠ Some name.
Proof.
  split.
  - rewrite columns_found_column. split; intros Hall name Hname.
    + destruct (columns_of_column header name Hname)
        as [[Hcol _]|(i & _ & Hi & _)].
      * specialize (Hall name Hname). lia.
      * by eapply list_elem_of_lookup_2.
    + destruct (columns_of_column header name Hname)
        as [[_ Hnot]|(i & -> & _)]; [|lia].
      destruct Hnot. by apply Hall.
  - intros name Hname Hin.
    by destruct (columns_of_column header name Hname) as [[_ Hnot]|Hi].
Qed.

Lemma classify_row_not_missing (cols : Columns) (record : list string) :
  classify_row cols record ≠ Failed missing_columns.
Proof.
  unfold classify_row, field, or_panic.
  destruct (record !! Z.to_nat (employerCol cols)); [|done].
  destruct (record !! Z.to_nat (jobTitleCol cols)); [|done].
  destruct (record !! Z.to_nat (salaryCol cols)) as [salaryStr|]; [|done].
  destruct (record !! Z.to_nat (idCol cols)) as [idStr|]; [|done].
  destruct (ParseUint idStr 64); [|done].
  destruct (record !! Z.to_nat (yearCol cols)) as [yearStr|]; [|done].
  destruct (ParseUint yearStr 16); [|done].
  unfold clean_salary. destruct salaryStr as [|c rest]; [done|].
  destruct (0 <=? _); [destruct (_ =? 0)|];
    by destruct (ParseUint _ 32).
Qed.

Lemma classify_rows_not_missing (cols : Columns) (input : list csv_read) :
  classify_rows cols input ≠ Failed missing_columns.
Proof.
  induction input as [|[record|err] input IH]; cbn; [done| |done].
  pose proof (classify_row_not_missing cols record) as Hrow.
  destruct (classify_row cols record); [|congruence|done].
  destruct (classify_rows cols input); [done|congruence|done].
Qed.

(** X24: ReadDatabase returns the missing-columns error exactly when the
    header lacks one of the five column names, whatever the records are. *)
Theorem ReadDatabase_missing_columns `{MapRange} (header : list string)
    (input : list csv_read) (minPerEmployer minPerJobTitle : nat) :
  ReadDatabase (csv_record header :: input) minPerEmployer minPerJobTitle
  = Failed missing_columns
  ↔ ∃ name, name ∈ column_names ∧ name ∉ header.
Proof.
  destruct (columns_found_column (columns_of header)) as [Hfound1 Hfound2].
  destruct (ReadDatabase_run header input minPerEmployer minPerJobTitle)
    as [[Hrun Hmissing]|[Hfound Hrun]].
  - rewrite Hrun. split; [intros _|done].
    destruct (decide (Forall (λ name, 0 ≤ column (columns_of header) name)
                        column_names)) as [Hall|Hex].
    + destruct Hmissing. apply Hfound2. by rewrite Forall_forall in Hall.
    + apply not_Forall_Exists in Hex; [|intros name; apply _].
      apply Exists_exists in Hex as (name & Hname & Hneg). exists name.
      cbn beta in Hneg. split; [done|].
      destruct (columns_of_column header name Hname) as [[_ ?]|(i & Hi & _)];
        [done|]. unfold compose in Hneg. exfalso. lia.
  - split.
    + intros Hfail. exfalso.
      pose proof (classify_rows_not_missing (columns_of header) input) as Hno.
      destruct (classify_rows (columns_of header) input);
        [destruct Hrun as (db & Hdb & _)|..]; congruence.
    + intros (name & Hname & Hnot). exfalso.
      specialize (Hfound1 Hfound name Hname).
      destruct (columns_of_column header name Hname)
        as [[Hcol _]|(i & _ & Hi & _)]; [lia|].
      destruct Hnot. by eapply list_elem_of_lookup_2.
Qed.

(** ** Panics of [ReadDatabase] *)

Lemma columns_of_bound (header : list string) (name : string) :
  name ∈ column_names →
  column (columns_of header) name < Z.of_nat (length header).
Proof.
  intros Hname.
  destruct (columns_of_column header name Hname) as [[-> _]|(i & -> & Hi & _)];
    [lia|].
  apply lookup_lt_Some in Hi. lia.
Qed.

Lemma field_in_range (record : list string) (col : Z) :
  0 ≤ col < Z.of_nat (length record) →
  ∃ value, record !! Z.to_nat col = Some value ∧ field record col = Ok value.
Proof.
  intros Hcol. destruct (lookup_lt_is_Some_2 record (Z.to_nat col)) as [v Hv];
    [lia|].
  exists v. unfold field. by rewrite Hv.
Qed.

Lemma clean_salary_panics (salaryStr : string) :
  clean_salary salaryStr = Panic ↔ salaryStr = ""%string.
Proof.
  unfold clean_salary. destruct salaryStr as [|c rest]; [done|].
  split; [|done].
  destruct (0 <=? _); [destruct (_ =? 0)|]; done.
Qed.

Lemma classify_row_plain (header record : list string) :
  columns_found (columns_of header) →
  plain_record header (csv_record record) →
  classify_row (columns_of header) record ≠ Panic.
Proof.
  intros Hfound [Hlen Hsalary].
  pose proof (proj1 (columns_found_column _) Hfound) as Hcols.
  assert (∀ name, name ∈ column_names →
            0 ≤ column (columns_of header) name < Z.of_nat (length record))
    as Hrange.
  { intros name Hname. rewrite Hlen. split; [by apply Hcols|].
    by apply columns_of_bound. }
  destruct (field_in_range record (employerCol (columns_of header)))
    as (employer & _ & He);
    [apply (Hrange "Employer"%string); unfold column_names;
     repeat first [by left|right]|].
  destruct (field_in_range record (jobTitleCol (columns_of header)))
    as (jobTitle & _ & Hj);
    [apply (Hrange "Job Title"%string); unfold column_names;
     repeat first [by left|right]|].
  destruct (field_in_range record (salaryCol (columns_of header)))
    as (salaryStr & Hsal & Hs);
    [apply (Hrange "Salary Paid"%string); unfold column_names;
     repeat first [by left|right]|].
  destruct (field_in_range record (idCol (columns_of header)))
    as (idStr & _ & Hi);
    [apply (Hrange ""%string); unfold column_names;
     repeat first [by left|right]|].
  destruct (field_in_range record (yearCol (columns_of header)))
    as (yearStr & _ & Hy);
    [apply (Hrange "Calendar Year"%string); unfold column_names;
     repeat first [by left|right]|].
  unfold classify_row. rewrite He, Hj, Hs, Hi.
  destruct (ParseUint idStr 64); [|done]. rewrite Hy.
  destruct (ParseUint yearStr 16); [|done].
  destruct (clean_salary salaryStr) as [cleaned| |] eqn:Hc.
  - by destruct (ParseUint cleaned 32).
  - done.
  - apply clean_salary_panics in Hc. congruence.
Qed.

(** X25: ReadDatabase does not panic on a table in which every record has as
    many fields as the header and no empty salary field: it returns a database
    or an error. *)
Theorem ReadDatabase_no_panic `{MapRange} (header : list string)
    (input : list csv_read) (minPerEmployer minPerJobTitle : nat) :
  Forall (plain_record header) input →
  ReadDatabase (csv_record header :: input) minPerEmployer minPerJobTitle
  ≠ Panic.
Proof.
  intros Hplain.
  destruct (ReadDatabase_run header input minPerEmployer minPerJobTitle)
    as [[Hrun _]|[Hfound Hrun]]; [congruence|].
  assert (classify_rows (columns_of header) input ≠ Panic) as Hno.
  { induction Hplain as [|[record|err] input Hrec Hplain IH]; cbn;
      [done| |done].
    pose proof (classify_row_plain header record Hfound Hrec) as Hrow.
    destruct (classify_row (columns_of header) record); [|done..].
    assert (classify_rows (columns_of header) input ≠ Panic) as Hrest.
    { apply IH.
      destruct (ReadDatabase_run header input minPerEmployer minPerJobTitle)
        as [[_ Hmissing]|[_ Hrun']]; done. }
    by destruct (classify_rows (columns_of header) input). }
  destruct (classify_rows (columns_of header) input);
    [destruct Hrun as (db & Hdb & _)|..]; congruence.
Qed.

Lemma classify_rows_app (cols : Columns) (input1 input2 : list csv_read) :
  classify_rows cols (input1 ++ input2)
  = let! rows1 := classify_rows cols input1 in
    let! rows2 := classify_rows cols input2 in
    Ok (rows1 ++ rows2).
Proof.
  induction input1 as [|[record|err] input1 IH]; cbn [app classify_rows].
  - by destruct (classify_rows cols input2).
  - destruct (classify_row cols record); [|done..]. rewrite IH.
    destruct (classify_rows cols input1); [|done..].
    by destruct (classify_rows cols input2).
  - done.
Qed.

(** X26: ReadDatabase panics on a record with an empty salary field, at
    salaryStr[0], when the header names the five columns, the records before
    it are read without error and the record has a valid identifier and year. *)
Theorem ReadDatabase_empty_salary_panics `{MapRange} (header : list string)
    (before after : list csv_read) (record : list string) (rows : list Row)
    (minPerEmployer minPerJobTitle : nat) (id year : Z) :
  let cols := columns_of header in
  columns_found cols →
  classify_rows cols before = Ok rows →
  length record = length header →
  (∃ idStr, record !! Z.to_nat (idCol cols) = Some idStr
            ∧ ParseUint idStr 64 = Some id) →
  (∃ yearStr, record !! Z.to_nat (yearCol cols) = Some yearStr
              ∧ ParseUint yearStr 16 = Some year) →
  record !! Z.to_nat (salaryCol cols) = Some ""%string →
  ReadDatabase (csv_record header :: before ++ csv_record record :: after)
    minPerEmployer minPerJobTitle
  = Panic.
Proof.
  intros cols Hfound Hbefore Hlen (idStr & Hid & Hidv) (yearStr & Hyear & Hyearv)
    Hsalary.
  destruct (ReadDatabase_run header (before ++ csv_record record :: after)
              minPerEmployer minPerJobTitle)
    as [[_ Hmissing]|[_ Hrun]]; [done|].
  fold cols in Hrun. rewrite classify_rows_app, Hbefore in Hrun.
  cbn [classify_rows] in Hrun.
  assert (classify_row cols record = Panic) as Hrow.
  { pose proof (proj1 (columns_found_column _) Hfound) as Hcols.
    assert (∀ name, name ∈ column_names →
              0 ≤ column cols name < Z.of_nat (length record)) as Hrange.
    { intros name Hname. rewrite Hlen. split; [by apply Hcols|].
      by apply columns_of_bound. }
    destruct (field_in_range record (employerCol cols)) as (employer & _ & He);
      [apply (Hrange "Employer"%string); unfold column_names;
       repeat first [by left|right]|].
    destruct (field_in_range record (jobTitleCol cols)) as (jobTitle & _ & Hj);
      [apply (Hrange "Job Title"%string); unfold column_names;
       repeat first [by left|right]|].
    unfold classify_row. rewrite He, Hj. unfold field.
    rewrite Hsalary, Hid. cbn [or_panic].
    rewrite Hidv, Hyear. cbn [or_panic]. rewrite Hyearv. done. }
  by rewrite Hrow in Hrun.
Qed.

(** ** The salary field *)

Lemma append_String (c : ascii) (s t : string) :
  String.append (String c s) t = String c (String.append s t).
Proof. reflexivity. Qed.

Lemma append_empty_l (t : string) : String.append "" t = t.
Proof. reflexivity. Qed.

Lemma append_empty_r (s : string) : String.append s "" = s.
Proof.
  induction s as [|c s IH]; [done|]. by rewrite append_String, IH.
Qed.

Lemma remove_commas_app (s t : string) :
  remove_commas (String.append s t)
  = String.append (remove_commas s) (remove_commas t).
Proof.
  induction s as [|c s IH]; [done|].
  rewrite append_String. cbn [remove_commas].
  destruct (Ascii.eqb c ","); by rewrite ?append_String, IH.
Qed.

Lemma digit_value_not (c : ascii) (d : Z) :
  digit_value c = Some d →
  Ascii.eqb c "." = false ∧ Ascii.eqb c "$" = false ∧ Ascii.eqb c "," = false.
Proof.
  unfold digit_value. intros Hd.
  destruct (Ascii.eqb_spec c "."), (Ascii.eqb_spec c "$"),
    (Ascii.eqb_spec c ","); subst; try done.
Qed.

Lemma digits_value_Some_inv (c : ascii) (s : string) (acc v : Z) :
  digits_value (String c s) acc = Some v → ∃ d, digit_value c = Some d.
Proof. cbn. destruct (digit_value c) as [d|]; [by exists d|done]. Qed.

Lemma IndexRune_period_digits (d x : string) :
  ∀ acc v, digits_value d acc = Some v →
    IndexRune_period (String.append d (String "." x)) = Z.of_nat (String.length d)
    ∧ IndexRune_period d = -1
    ∧ substring 0 (String.length d) (String.append d (String "." x)) = d.
Proof.
  induction d as [|c d IH]; intros acc v Hv.
  - rewrite append_empty_l. done.
  - destruct (digits_value_Some_inv _ _ _ _ Hv) as [n Hn].
    destruct (digit_value_not c n Hn) as (Hdot & _).
    cbn in Hv. rewrite Hn in Hv.
    destruct (IH _ _ Hv) as (H1 & H2 & H3).
    rewrite append_String.
    cbn [IndexRune_period String.length substring].
    rewrite Hdot, H1, H2, H3.
    split; [|done].
    destruct (Z.ltb_spec (Z.of_nat (String.length d)) 0); lia.
Qed.

Lemma ParseUint_digits (d : string) (v : Z) :
  d ≠ ""%string → digits_value d 0 = Some v → v < 2 ^ 32 →
  ParseUint d 32 = Some v.
Proof.
  intros Hne Hv Hlt. unfold ParseUint. destruct d as [|c d]; [done|].
  rewrite Hv. by destruct (Z.ltb_spec v (2 ^ 32)); [|lia].
Qed.

(** X27: For a salary field made of an optional dollar sign, digits with
    commas and an optional fraction after a period, the cleaning of the salary
    field in ReadDatabase and the ParseUint that follows give the number that
    the digits before the period spell without the commas, when it fits 32
    bits: the fraction is dropped without rounding, and a field with no digit
    before its period reads as 0. *)
Theorem clean_salary_amount (dollar : bool) (amount : string)
    (fraction : option string) (v : Z) :
  digits_value (remove_commas amount) 0 = Some v →
  v < 2 ^ 32 →
  remove_commas amount ≠ ""%string ∨ is_Some fraction →
  ∃ cleaned,
    clean_salary (salary_field dollar amount fraction) = Ok cleaned
    ∧ ParseUint cleaned 32 = Some v.
Proof.
  intros Hv Hlt Hsome.
  set (rest := match fraction with
               | Some f => String "." f
               | None => ""%string
               end).
  assert (∃ c s, String.append amount rest = String c s
                 ∧ Ascii.eqb c "$" = false) as (c & s & Hcs & Hc).
  { destruct amount as [|c amount].
    - destruct fraction as [f|]; [|by destruct Hsome as [?|[? ?]]].
      by exists "."%char, f.
    - exists c, (String.append amount rest). split; [apply append_String|].
      cbn in Hv. destruct (Ascii.eqb_spec c ",") as [->|Hne]; [done|].
      apply digits_value_Some_inv in Hv as [n Hn].
      by destruct (digit_value_not c n Hn) as (_ & ? & _). }
  assert (clean_salary (salary_field dollar amount fraction)
          = let salaryStr := remove_commas (String.append amount rest) in
            let salaryDecimal := IndexRune_period salaryStr in
            if 0 <=? salaryDecimal then
              if salaryDecimal =? 0 then Ok "0"%string
              else Ok (substring 0 (Z.to_nat salaryDecimal) salaryStr)
            else Ok salaryStr) as ->.
  { unfold salary_field. fold rest. destruct dollar.
    - rewrite append_String, append_empty_l. cbn [clean_salary].
      by rewrite Ascii.eqb_refl.
    - rewrite append_empty_l, Hcs. cbn [clean_salary]. by rewrite Hc. }
  cbn zeta. rewrite remove_commas_app.
  destruct fraction as [f|]; unfold rest.
  - cbn [remove_commas]. cbn [Ascii.eqb Bool.eqb].
    destruct (IndexRune_period_digits (remove_commas amount) (remove_commas f)
                0 v Hv) as (Hidx & _ & Hsub).
    rewrite Hidx.
    destruct (Z.leb_spec 0 (Z.of_nat (String.length (remove_commas amount))));
      [|lia].
    destruct (remove_commas amount) as [|c' d] eqn:Hd.
    + cbn. exists "0"%string. split; [done|].
      cbn in Hv. injection Hv as <-. done.
    + destruct (Z.eqb_spec (Z.of_nat (String.length (String c' d))) 0)
        as [Hz|_]; [cbn in Hz; lia|].
      rewrite Nat2Z.id, Hsub. eexists. split; [done|].
      by apply ParseUint_digits.
  - destruct Hsome as [Hne|[? ?]]; [|done].
    cbn [remove_commas].
    rewrite append_empty_r.
    destruct (IndexRune_period_digits (remove_commas amount) ""%string 0 v Hv)
      as (_ & -> & _).
    cbn. eexists. split; [done|]. by apply ParseUint_digits.
Qed.

Lemma clean_salary_amount_witness :
  ∃ cleaned,
    clean_salary "$101,250.50" = Ok cleaned
    ∧ ParseUint cleaned 32 = Some 101250.
Proof.
  apply (clean_salary_amount true "101,250" (Some "50"%string) 101250).
  - reflexivity.
  - reflexivity.
  - left. discriminate.
Defined.

(** ** Instances on the sample table *)

Lemma ReadDatabase_reads_witness :
  ∃ db,
    ReadDatabase (csv_record sample_header :: sample_records) 2 1 = Ok db
    ∧ database_of 2 1 sample_rows db.
Proof.
  apply (ReadDatabase_reads sample_header sample_records 2 1 sample_rows).
  - unfold columns_found. cbn. lia.
  - vm_compute. reflexivity.
Defined.

Lemma ReadDatabase_well_formed_witness :
  ∃ db,
    ReadDatabase (csv_record sample_header :: sample_records) 2 1 = Ok db
    ∧ Forall (λ e, (Employer e < length (Employers db))%nat
                   ∧ (JobTitle e < length (JobTitles db))%nat
                   ∧ (Year e < length (Years db))%nat
                   ∧ uint32 (Salary e))
        (Employees db)
    ∧ NoDup (Employers db) ∧ NoDup (JobTitles db) ∧ NoDup (Years db).
Proof.
  eexists. split; [vm_compute; reflexivity|].
  apply (ReadDatabase_well_formed (csv_record sample_header :: sample_records)
           2 1).
  vm_compute. reflexivity.
Defined.

Lemma ReadDatabase_no_panic_witness :
  ReadDatabase (csv_record sample_header :: sample_records) 2 1 ≠ Panic.
Proof.
  apply (ReadDatabase_no_panic sample_header sample_records 2 1).
  repeat constructor; discriminate.
Defined.

Lemma ReadDatabase_empty_salary_panics_witness :
  ReadDatabase
    (csv_record sample_header
     :: sample_records ++ csv_record sample_empty_salary :: sample_records)
    2 1
  = Panic.
Proof.
  apply (ReadDatabase_empty_salary_panics sample_header sample_records
           sample_records sample_empty_salary sample_rows 2 1 5 2016).
  - unfold columns_found. cbn. lia.
  - vm_compute. reflexivity.
  - reflexivity.
  - exists "5"%string. split; reflexivity.
  - exists "2016"%string. split; reflexivity.
  - reflexivity.
Defined.

(** ** From the table to the baseline search *)

Lemma ReadDatabase_Ok_well_formed `{MapRange} (input : list csv_read)
    (minPerEmployer minPerJobTitle : nat) (db : Database) :
  ReadDatabase input minPerEmployer minPerJobTitle = Ok db → well_formed db.
Proof.
  intros Hdb. destruct input as [|[header|err] input]; [done| |done].
  destruct (ReadDatabase_run header input minPerEmployer minPerJobTitle)
    as [[Hmissing _]|[_ Hrun]]; [congruence|].
  destruct (classify_rows (columns_of header) input) as [rows| |];
    [|congruence..].
  destruct Hrun as (db' & Hdb' & Hof).
  assert (db' = db) as -> by congruence.
  by destruct (database_of_well_formed _ _ _ _ Hof) as (Hwf & _).
Qed.

(** X28: The steps of main from the table to the baseline search compose: on
    any database that ReadDatabase returned, with at least as many employers,
    job titles and years as the original context takes (fewer than 2^64
    records, K at least 1), NewKnn, the forming of the original context and
    the baseline search do not panic, and the search finds no outlier when the
    original context selects fewer than 20 records. *)
Theorem baseline_search_after_ReadDatabase `{MapRange} `{SortSlice}
    {F : Type} `{FloatOps F} (input : list csv_read)
    (minPerEmployer minPerJobTitle : nat) (db : Database)
    (origE origJ origY k : nat) (threshold : F) :
  ReadDatabase input minPerEmployer minPerJobTitle = Ok db →
  (origE ≤ length (Employers db))%nat →
  (origJ ≤ length (JobTitles db))%nat →
  (origY ≤ length (Years db))%nat →
  (1 ≤ k)%nat →
  Z.of_nat (length (Employees db)) < 2 ^ 64 →
  ∃ knn baseline orig,
    NewKnn db = Some knn
    ∧ original_context db origE origJ origY = Some baseline
    ∧ find_original_outlier db (NewLof db knn k threshold) baseline = Some orig
    ∧ ((context_population db baseline < 20)%nat → orig = (None, f_zero)).
Proof.
  intros Hdb HE HJ HY Hk Hn.
  pose proof (ReadDatabase_Ok_well_formed _ _ _ _ Hdb) as Hwf.
  destruct (NewKnn_index db) as (knn & Hknn & _).
  pose proof (original_context_spec db origE origJ origY HE HJ HY) as Horig.
  set (baseline := {| EmployersIncluded := _ |}) in Horig.
  assert (context_for db baseline) as Hctx.
  { unfold context_for, baseline. cbn.
    rewrite !length_app, !length_replicate. lia. }
  set (lof := NewLof db knn k threshold).
  destruct (NewThreadCache_sized lof) as [Hsized Hslots].
  assert (Forall (λ b, (1 ≤ length b)%nat) (Neighborhoods (NewThreadCache lof)))
    as Hslots1.
  { eapply Forall_impl; [exact Hslots|]. intros b ->. done. }
  assert (length (Mask (NewInclusionMask db))
          = ((length (Employees db) + 7) / 8)%nat) as Hmask
    by apply length_replicate.
  destruct (FindOutliers_run db knn k threshold (NewThreadCache lof)
              (NewInclusionMask db) baseline Hknn Hwf Hctx Hsized Hslots1 Hmask
              ltac:(done) baseline_handler (None, f_zero))
    as (im' & _ & _ & _ & Hc & Hrun).
  set (pop := context_population db baseline) in *.
  assert (pop ≤ length (Employees db))%nat as Hle by apply length_filter.
  assert (Count im' = Z.of_nat pop) as Hcount'.
  { rewrite Hc. cbn [NewInclusionMask Count]. apply wrap_small. lia. }
  exists knn, baseline. unfold find_original_outlier. fold lof in Hrun |- *.
  rewrite Hrun, Hcount'. unfold MinPopulationSize.
  destruct (Z.ltb_spec (Z.of_nat pop) 20) as [Hlow|Hhigh].
  { eexists. split; [done|]. split; [done|]. split; [done|]. done. }
  destruct pop as [|[|p]] eqn:Hp; [lia|lia|].
  eexists. split; [done|]. split; [done|]. split; [done|]. lia.
Qed.

Lemma baseline_search_after_ReadDatabase_witness :
  ∃ knn baseline orig,
    NewKnn sample_database = Some knn
    ∧ original_context sample_database 1 2 2 = Some baseline
    ∧ find_original_outlier sample_database
        (NewLof sample_database knn 2 1.5%float) baseline
      = Some orig
    ∧ ((context_population sample_database baseline < 20)%nat
       → orig = (None, f_zero)).
Proof.
  apply (baseline_search_after_ReadDatabase
           (csv_record sample_header :: sample_records) 2 1 sample_database
           1 2 2 2 1.5%float).
  - vm_compute. reflexivity.
  - cbn. lia.
  - cbn. lia.
  - cbn. lia.
  - lia.
  - cbn. lia.
Defined.
